(** * Cyber blackjack server: the session state machine of server.js

    A shallow embedding of the game logic of [server.js] (deck engine,
    per-room game state, turn engine, view projection and the socket
    handlers that drive them), followed by the properties of the
    specification that were checked against it. *)

From Stdlib Require Import ZArith Lia Permutation Ascii String.
From stdpp Require Import base option list strings gmap.

Local Open Scope string_scope.
Local Open Scope Z_scope.
Local Open Scope list_scope.

(** ** Cards

    A card is the object [{ rank, suit }] pushed by [createDeck].  The
    only ranks and suits the server ever writes into such an object are
    the thirteen and four string literals of [createDeck]; they are
    enumerated here and [rankText]/[suitText] give back the literals,
    which is what the message templates print. *)

Inductive Suit := Hearts | Diamonds | Clubs | Spades.

Inductive Rank :=
  | R2 | R3 | R4 | R5 | R6 | R7 | R8 | R9 | R10 | RJ | RQ | RK | RA.

Record Card := mkCard { rank : Rank; suit : Suit }.

#[global] Instance Suit_eq_dec : EqDecision Suit.
Proof. solve_decision. Defined.
#[global] Instance Rank_eq_dec : EqDecision Rank.
Proof. solve_decision. Defined.
#[global] Instance Card_eq_dec : EqDecision Card.
Proof. solve_decision. Defined.

Definition suitText (s : Suit) : string :=
  match s with
  | Hearts => "Hearts" | Diamonds => "Diamonds"
  | Clubs => "Clubs" | Spades => "Spades"
  end.

Definition rankText (r : Rank) : string :=
  match r with
  | R2 => "2" | R3 => "3" | R4 => "4" | R5 => "5" | R6 => "6"
  | R7 => "7" | R8 => "8" | R9 => "9" | R10 => "10"
  | RJ => "J" | RQ => "Q" | RK => "K" | RA => "A"
  end.

(** ** Deck engine *)

Definition suits : list Suit := [Hearts; Diamonds; Clubs; Spades].
Definition ranks : list Rank :=
  [R2; R3; R4; R5; R6; R7; R8; R9; R10; RJ; RQ; RK; RA].

(** [createDeck]: the outer loop runs over the suits, the inner one over
    the ranks, each iteration pushing one card at the end. *)
Definition createDeck : list Card :=
  flat_map (fun s => map (fun r => mkCard r s) ranks) suits.

(** [[deck[i], deck[j]] = [deck[j], deck[i]]] on an array; both indices
    are in range wherever [shuffleDeck] uses it. *)
Definition swap (deck : list Card) (i j : nat) : list Card :=
  match deck !! i, deck !! j with
  | Some ci, Some cj => <[j := ci]> (<[i := cj]> deck)
  | _, _ => deck
  end.

(** The loop of [shuffleDeck], entered with index [i] and running down to
    1.  [Math.floor(Math.random() * (i + 1))] is an integer between 0 and
    [i]; the random source is a function [rnd] from the loop index to a
    natural number, reduced modulo [i + 1]. *)
Fixpoint shuffleFrom (rnd : nat -> nat) (i : nat) (deck : list Card)
  : list Card :=
  match i with
  | O => deck
  | S i' => shuffleFrom rnd i' (swap deck i (rnd i mod (i + 1))%nat)
  end.

Definition shuffleDeck (rnd : nat -> nat) (deck : list Card) : list Card :=
  shuffleFrom rnd (length deck - 1)%nat deck.

(** [getCardValue]: [parseInt(card.rank)] is taken on the numeral ranks
    only, where it gives the numeral. *)
Definition getCardValue (card : Card) (currentTotal : Z) : Z :=
  match rank card with
  | RA => if currentTotal + 11 >? 21 then 1 else 11
  | RK | RQ | RJ => 10
  | R2 => 2 | R3 => 3 | R4 => 4 | R5 => 5 | R6 => 6
  | R7 => 7 | R8 => 8 | R9 => 9 | R10 => 10
  end.

Definition isAce (card : Card) : bool :=
  match rank card with RA => true | _ => false end.

(** The [for ... of] loop of [calculateHandTotal], carrying [total] and
    [numAces]. *)
Fixpoint foldHand (hand : list Card) (total : Z) (numAces : nat)
  : Z * nat :=
  match hand with
  | [] => (total, numAces)
  | card :: rest =>
      foldHand rest (total + getCardValue card total)
        (if isAce card then S numAces else numAces)
  end.

(** The [while (total > 21 && numAces > 0)] loop. *)
Fixpoint adjustAces (numAces : nat) (total : Z) : Z :=
  match numAces with
  | O => total
  | S n => if total >? 21 then adjustAces n (total - 10) else total
  end.

Definition calculateHandTotal (hand : list Card) : Z :=
  let '(total, numAces) := foldHand hand 0 O in
  adjustAces numAces total.

(** ** Standard blackjack scoring, as the specification words it *)

(** The value of a card with every Ace counted as 1. *)
Definition hardValue (card : Card) : Z :=
  match rank card with
  | RA => 1
  | _ => getCardValue card 0
  end.

Definition minTotal (hand : list Card) : Z :=
  foldr (fun c acc => hardValue c + acc) 0 hand.

Definition countAces (hand : list Card) : nat :=
  length (filter (fun c => isAce c = true) hand).

(** [ace_total hand t]: [t] is the sum of the hand under some assignment
    of 1 or 11 to each Ace. *)
Inductive ace_total : list Card -> Z -> Prop :=
  | ace_total_nil : ace_total [] 0
  | ace_total_plain c hand t :
      isAce c = false -> ace_total hand t ->
      ace_total (c :: hand) (hardValue c + t)
  | ace_total_low c hand t :
      isAce c = true -> ace_total hand t -> ace_total (c :: hand) (1 + t)
  | ace_total_high c hand t :
      isAce c = true -> ace_total hand t -> ace_total (c :: hand) (11 + t).

(** Every total some assignment reaches. *)
Fixpoint allTotals (hand : list Card) : list Z :=
  match hand with
  | [] => [0]
  | c :: rest =>
      if isAce c
      then map (Z.add 1) (allTotals rest) ++ map (Z.add 11) (allTotals rest)
      else map (Z.add (hardValue c)) (allTotals rest)
  end.

(** Modelled on the specification's wording: the largest total not
    exceeding 21 when some assignment has one, the all-Aces-as-1 total
    otherwise. *)
Definition standardTotal (hand : list Card) : Z :=
  match filter (fun t => t <= 21) (allTotals hand) with
  | [] => minTotal hand
  | t :: ts => foldr Z.max t ts
  end.

(** ** Game state

    The game object of [initializeGame] has fixed properties ([deck],
    [players], [dealer], [currentTurn], ...) and two properties whose
    names are the players' connection identities.  The dynamic part is
    the finite map [seats]; connection identities are transport-generated
    and are taken never to coincide with a fixed property name nor with
    the text [undefined]. *)

Module Player.
Record t := mk {
  hand : list Card;
  score : Z;
  isStanding : bool;
  isBusted : bool;
  chips : Z }.

(** The seat objects are created by [initializeGame] without an [id]
    property and no statement of the server adds one: reading [.id] from
    a seat gives [undefined]. *)
Definition id (p : t) : option string := None.
End Player.

Module Dealer.
Record t := mk {
  hand : list Card;
  score : Z;
  isBusted : bool }.
End Dealer.

(** [gameOver], [gameOverMessage] and [gameOverType] are absent until
    [determineGameOutcome] assigns them; every reader treats the absent
    property as [false] or as the empty string ([|| false], [|| ''],
    [if (game.gameOver)]), which is how absence is represented. *)
Record Game := mkGame {
  deck : list Card;
  players : list string;
  seats : gmap string Player.t;
  dealer : Dealer.t;
  currentTurn : string;
  turnOrder : list string;
  turnIndex : nat;
  message : string;
  gameOver : bool;
  gameOverMessage : string;
  gameOverType : string }.

Definition setDeck (d : list Card) (g : Game) : Game :=
  mkGame d (players g) (seats g) (dealer g) (currentTurn g) (turnOrder g)
    (turnIndex g) (message g) (gameOver g) (gameOverMessage g)
    (gameOverType g).

Definition setSeat (k : string) (p : Player.t) (g : Game) : Game :=
  mkGame (deck g) (players g) (<[k := p]> (seats g)) (dealer g)
    (currentTurn g) (turnOrder g) (turnIndex g) (message g) (gameOver g)
    (gameOverMessage g) (gameOverType g).

Definition setDealer (d : Dealer.t) (g : Game) : Game :=
  mkGame (deck g) (players g) (seats g) d (currentTurn g) (turnOrder g)
    (turnIndex g) (message g) (gameOver g) (gameOverMessage g)
    (gameOverType g).

Definition setTurn (i : nat) (who : string) (g : Game) : Game :=
  mkGame (deck g) (players g) (seats g) (dealer g) who (turnOrder g) i
    (message g) (gameOver g) (gameOverMessage g) (gameOverType g).

Definition setMessage (m : string) (g : Game) : Game :=
  mkGame (deck g) (players g) (seats g) (dealer g) (currentTurn g)
    (turnOrder g) (turnIndex g) m (gameOver g) (gameOverMessage g)
    (gameOverType g).

Definition setOutcome (m ty : string) (g : Game) : Game :=
  mkGame (deck g) (players g) (seats g) (dealer g) (currentTurn g)
    (turnOrder g) (turnIndex g) (message g) true m ty.

(** [deck.pop()]: the last element and the array without it; [None] when
    the array is empty, where JavaScript gives [undefined]. *)
Definition pop (d : list Card) : option (Card * list Card) :=
  match rev d with
  | [] => None
  | c :: r => Some (c, rev r)
  end.

(** How a template literal prints a property that may be [undefined]. *)
Definition template (v : option string) : string :=
  match v with
  | Some s => s
  | None => "undefined"
  end.

(** In the functions below [None] stands for an uncaught [TypeError]
    (a property read from [undefined]) or, in [skipExhausted], for a loop
    that never ends; the half-updated state left behind in that case is
    not represented. *)

(** [initializeGame], given the random source of the shuffle.  The six
    pops are taken from the end of the shuffled array in the order of
    the source. *)
Definition initializeGame (rnd : nat -> nat) (player1Id player2Id : string)
  : option Game :=
  let deck0 := shuffleDeck rnd createDeck in
  '(c1, deck1) ← pop deck0;
  '(c2, deck2) ← pop deck1;
  '(c3, deck3) ← pop deck2;
  '(c4, deck4) ← pop deck3;
  '(c5, deck5) ← pop deck4;
  '(c6, deck6) ← pop deck5;
  let player1Hand := [c1; c4] in
  let player2Hand := [c2; c5] in
  let dealerHand := [c3; c6] in
  Some (mkGame deck6 [player1Id; player2Id]
    (<[player2Id :=
         Player.mk player2Hand (calculateHandTotal player2Hand)
           false false 1000]>
       (<[player1Id :=
            Player.mk player1Hand (calculateHandTotal player1Hand)
              false false 1000]> ∅))
    (Dealer.mk dealerHand (calculateHandTotal dealerHand) false)
    player1Id [player1Id; player2Id; "dealer"] 0
    "Game started! Player 1's turn." false "" "").

(** ** View projector *)

(** An entry of the dealer hand of a view: a real card or the object
    [{ rank: '?', suit: '?' }]. *)
Inductive ViewCard :=
  | Shown (c : Card)
  | Placeholder.

Module PlayerView.
Record t := mk {
  id : string;
  hand : list Card;
  score : Z;
  isStanding : bool;
  isBusted : bool;
  chips : Z }.
End PlayerView.

Module OpponentView.
Record t := mk {
  id : string;
  hand : list Card;
  score : Z;
  hideFirstCard : bool;
  isStanding : bool;
  isBusted : bool }.
End OpponentView.

Module DealerView.
Record t := mk {
  hand : list ViewCard;
  score : Z;
  hideSecondCard : bool }.
End DealerView.

Module View.
Record t := mk {
  playerState : PlayerView.t;
  opponentState : OpponentView.t;
  dealerState : DealerView.t;
  currentTurn : string;
  message : string;
  gameOver : bool;
  gameOverMessage : string;
  gameOverType : string }.
End View.

(** [game.players.find(id => id !== playerId)]. *)
Definition otherThan (playerId : string) (ids : list string)
  : option string :=
  List.find (fun id => negb (String.eqb id playerId)) ids.

(** [getGameStateForPlayer].  A missing seat, a missing opponent (both
    entries of [players] equal to [playerId]) and an empty dealer hand
    each end in a property read from [undefined]. *)
Definition getGameStateForPlayer (game : Game) (playerId : string)
  : option View.t :=
  currentPlayer ← seats game !! playerId;
  opponentId ← otherThan playerId (players game);
  opponentPlayer ← seats game !! opponentId;
  upCard ← Dealer.hand (dealer game) !! 0%nat;
  Some (View.mk
    (PlayerView.mk playerId (Player.hand currentPlayer)
       (Player.score currentPlayer) (Player.isStanding currentPlayer)
       (Player.isBusted currentPlayer) (Player.chips currentPlayer))
    (OpponentView.mk opponentId (Player.hand opponentPlayer)
       (Player.score opponentPlayer) false
       (Player.isStanding opponentPlayer) (Player.isBusted opponentPlayer))
    (DealerView.mk [Shown upCard; Placeholder] (getCardValue upCard 0) true)
    (currentTurn game) (message game) (gameOver game)
    (gameOverMessage game) (gameOverType game)).

(** ** Turn engine

    Every function of the turn engine begins with
    [const game = activeGames[gameRoomId]] and then mutates that one
    object.  The bodies are embedded in [Room] as functions on the game;
    the functions of the same names after [Room] look the room up in the
    store and put the result back. *)

Module Room.

(** The dealer's [while (game.dealer.score < 17)] loop.  Each iteration
    pops the last card of the deck, so the loop is written by recursion on
    [undealt], the deck listed from its end; the score tested is always
    the total of the hand held, as in the source. *)
Fixpoint dealerHits (undealt hand : list Card) (msg : string)
  : option (list Card * list Card * string) :=
  if calculateHandTotal hand <? 17 then
    match undealt with
    | [] => None
    | newCard :: undealt' =>
        dealerHits undealt' (hand ++ [newCard])
          (msg +:+ " Dealer hits and gets " +:+ rankText (rank newCard)
               +:+ " of " +:+ suitText (suit newCard) +:+ ".")
    end
  else Some (undealt, hand, msg).

Definition handleDealerTurn (game : Game) : option Game :=
  '(undealt, hand, msg) ←
    dealerHits (rev (deck game)) (Dealer.hand (dealer game))
      "Dealer's turn...";
  let score := calculateHandTotal hand in
  if score >? 21 then
    Some (setMessage (msg +:+ " Dealer busts!")
           (setDealer (Dealer.mk hand score true)
             (setDeck (rev undealt) game)))
  else
    Some (setMessage (msg +:+ " Dealer stands.")
           (setDealer (Dealer.mk hand score (Dealer.isBusted (dealer game)))
             (setDeck (rev undealt) game))).

(** One of the two [if] chains of [determineGameOutcome], which differ
    only in the player they read: the clause appended to the message and
    the value left in [type]. *)
Definition judge (player : Player.t) (dealer : Dealer.t)
    (message type : string) : string * string :=
  if Player.isBusted player then
    (message +:+ template (Player.id player) +:+ " busted. ", type)
  else if Dealer.isBusted dealer
          || (Player.score player >? Dealer.score dealer) then
    (message +:+ template (Player.id player) +:+ " wins! ", "win")
  else if Player.score player <? Dealer.score dealer then
    (message +:+ template (Player.id player) +:+ " loses. ", "lose")
  else
    (message +:+ template (Player.id player) +:+ " pushes. ", type).

Definition determineGameOutcome (game : Game) : option Game :=
  id1 ← players game !! 0%nat;
  player1 ← seats game !! id1;
  id2 ← players game !! 1%nat;
  player2 ← seats game !! id2;
  let '(message, type) := judge player1 (dealer game) "Round over! " "info" in
  let '(message, type) := judge player2 (dealer game) message type in
  Some (setOutcome message type game).

(** The [while] loop of [advanceTurn], entered at [nextTurnIndex].  It
    stops at the entry ['dealer'] or at a player who is neither busted nor
    standing.  After [length turnOrder] steps the index is back where it
    started with nothing changed, so running out of [fuel] is a loop that
    never ends. *)
Fixpoint skipExhausted (game : Game) (fuel nextTurnIndex : nat)
  : option (nat * string) :=
  nextPlayerId ← turnOrder game !! nextTurnIndex;
  if String.eqb nextPlayerId "dealer" then Some (nextTurnIndex, nextPlayerId)
  else
    player ← seats game !! nextPlayerId;
    if Player.isBusted player || Player.isStanding player then
      match fuel with
      | O => None
      | S fuel' =>
          skipExhausted game fuel'
            ((nextTurnIndex + 1) mod length (turnOrder game))%nat
      end
    else Some (nextTurnIndex, nextPlayerId).

Definition advanceTurn (game : Game) : option Game :=
  let n := length (turnOrder game) in
  '(nextTurnIndex, nextPlayerId) ←
    skipExhausted game n ((turnIndex game + 1) mod n)%nat;
  let game := setTurn nextTurnIndex nextPlayerId game in
  if String.eqb (currentTurn game) "dealer" then
    handleDealerTurn game ≫= determineGameOutcome
  else
    Some (setMessage ("It's " +:+ currentTurn game +:+ "'s turn.") game).

Definition handleHit (playerId : string) (game : Game) : option Game :=
  if negb (String.eqb (currentTurn game) playerId) then Some game
  else
    player ← seats game !! playerId;
    if Player.isStanding player || Player.isBusted player then Some game
    else
      '(newCard, deck') ← pop (deck game);
      let hand := Player.hand player ++ [newCard] in
      let score := calculateHandTotal hand in
      if score >? 21 then
        advanceTurn
          (setMessage (playerId +:+ " busted!")
            (setSeat playerId
              (Player.mk hand score (Player.isStanding player) true
                 (Player.chips player))
              (setDeck deck' game)))
      else
        Some (setMessage
               (playerId +:+ " hits and gets " +:+ rankText (rank newCard)
                  +:+ " of " +:+ suitText (suit newCard) +:+ ".")
               (setSeat playerId
                 (Player.mk hand score (Player.isStanding player)
                    (Player.isBusted player) (Player.chips player))
                 (setDeck deck' game))).

Definition handleStand (playerId : string) (game : Game) : option Game :=
  if negb (String.eqb (currentTurn game) playerId) then Some game
  else
    player ← seats game !! playerId;
    if Player.isStanding player || Player.isBusted player then Some game
    else
      advanceTurn
        (setMessage (playerId +:+ " stands.")
          (setSeat playerId
            (Player.mk (Player.hand player) (Player.score player) true
               (Player.isBusted player) (Player.chips player))
            game)).

End Room.

(** ** Session store

    [activeGames] is an object used as a map from room identifier to
    game.  [for ... in] visits its keys in the order in which they were
    first assigned, so it is kept as an association list in that order,
    with at most one entry per key. *)

Definition Store := list (string * Game).

Fixpoint objGet (k : string) (o : Store) : option Game :=
  match o with
  | [] => None
  | (k', g) :: rest => if String.eqb k' k then Some g else objGet k rest
  end.

(** [o[k] = g]: an existing key keeps its place, a new one goes last. *)
Fixpoint objSet (k : string) (g : Game) (o : Store) : Store :=
  match o with
  | [] => [(k, g)]
  | (k', g') :: rest =>
      if String.eqb k' k then (k, g) :: rest else (k', g') :: objSet k g rest
  end.

(** [delete o[k]]. *)
Fixpoint objDelete (k : string) (o : Store) : Store :=
  match o with
  | [] => []
  | (k', g') :: rest =>
      if String.eqb k' k then objDelete k rest else (k', g') :: objDelete k rest
  end.

(** Run a function of the turn engine on the game of a room.  An unknown
    room gives [undefined] for [game], and the first property read from
    it throws. *)
Definition onGame (gameRoomId : string) (body : Game -> option Game)
    (activeGames : Store) : option Store :=
  game ← objGet gameRoomId activeGames;
  game' ← body game;
  Some (objSet gameRoomId game' activeGames).

Definition handleHit (gameRoomId playerId : string) : Store -> option Store :=
  onGame gameRoomId (Room.handleHit playerId).

Definition handleStand (gameRoomId playerId : string)
  : Store -> option Store :=
  onGame gameRoomId (Room.handleStand playerId).

Definition advanceTurn (gameRoomId : string) : Store -> option Store :=
  onGame gameRoomId Room.advanceTurn.

Definition handleDealerTurn (gameRoomId : string) : Store -> option Store :=
  onGame gameRoomId Room.handleDealerTurn.

Definition determineGameOutcome (gameRoomId : string)
  : Store -> option Store :=
  onGame gameRoomId Room.determineGameOutcome.

(** ** Socket handlers

    An emitted event is recorded with the room it is addressed to
    ([io.to(x).emit] and, for [socket.emit], the sender's own identity),
    its name and its payload. *)

Inductive Payload :=
  | MatchFound (opponentId : string)
  | GameUpdate (view : View.t)
  | ErrorUpdate (message messageType : string)
  | GameOver (message type : string) (finalGame : option View.t).

Record Event := emit { to : string; event : string; payload : Payload }.

Record Server := mkServer {
  matchmakingQueue : list string;
  activeGames : Store }.

(** [indexOf] followed by [splice(index, 1)] when the index is found. *)
Fixpoint removeFirst (socketId : string) (queue : list string)
  : list string :=
  match queue with
  | [] => []
  | x :: rest =>
      if String.eqb x socketId then rest else x :: removeFirst socketId rest
  end.

(** [game.players.includes(socketId)]. *)
Definition includes (socketId : string) (ids : list string) : bool :=
  existsb (fun id => String.eqb id socketId) ids.

(** [if (remainingPlayerId)] on a string. *)
Definition truthy (s : string) : bool := negb (String.eqb s "").

Definition requestMatch (rnd : nat -> nat) (socketId : string) (s : Server)
  : option (Server * list Event) :=
  match matchmakingQueue s ++ [socketId] with
  | player1Id :: player2Id :: queue =>
      let gameRoomId := "game-" +:+ player1Id +:+ "-" +:+ player2Id in
      newGame ← initializeGame rnd player1Id player2Id;
      view1 ← getGameStateForPlayer newGame player1Id;
      view2 ← getGameStateForPlayer newGame player2Id;
      Some (mkServer queue (objSet gameRoomId newGame (activeGames s)),
            [emit player1Id "matchFound" (MatchFound player2Id);
             emit player2Id "matchFound" (MatchFound player1Id);
             emit player1Id "pvpGameUpdate" (GameUpdate view1);
             emit player2Id "pvpGameUpdate" (GameUpdate view2)])
  | queue => Some (mkServer queue (activeGames s), [])
  end.

Definition cancelMatchmaking (socketId : string) (s : Server)
  : option (Server * list Event) :=
  Some (mkServer (removeFirst socketId (matchmakingQueue s)) (activeGames s),
        []).

(** The [for ... in] loop of the disconnect handler up to its [break]:
    the first room, in key order, whose game lists [socketId]. *)
Fixpoint firstGameOf (socketId : string) (o : Store)
  : option (string * Game) :=
  match o with
  | [] => None
  | (roomId, game) :: rest =>
      if includes socketId (players game) then Some (roomId, game)
      else firstGameOf socketId rest
  end.

Definition disconnect (socketId : string) (s : Server)
  : option (Server * list Event) :=
  let queue := removeFirst socketId (matchmakingQueue s) in
  match firstGameOf socketId (activeGames s) with
  | Some (roomId, game) =>
      Some (mkServer queue (objDelete roomId (activeGames s)),
            match otherThan socketId (players game) with
            | Some remainingPlayerId =>
                if truthy remainingPlayerId then
                  [emit remainingPlayerId "pvpGameOver"
                     (GameOver "Opponent disconnected. You win!" "win" None)]
                else []
            | None => []
            end)
  | None => Some (mkServer queue (activeGames s), [])
  end.

(** The [playerAction] handler from its second statement on, for the
    value [gameRoomId] its first statement has found ([None] for
    [undefined]). *)
Definition playerActionOn (gameRoomId : option string)
    (socketId action : string) (s : Server) : option (Server * list Event) :=
  match gameRoomId with
  | None => Some (s, [])
  | Some gameRoomId =>
      match objGet gameRoomId (activeGames s) with
      | None => Some (s, [])
      | Some game =>
          if negb (String.eqb (currentTurn game) socketId) then
            Some (s, [emit socketId "pvpGameUpdate"
                        (ErrorUpdate "It's not your turn!" "error")])
          else
            games ←
              (if String.eqb action "hit" then
                 handleHit gameRoomId socketId (activeGames s)
               else if String.eqb action "stand" then
                 handleStand gameRoomId socketId (activeGames s)
               else Some (activeGames s));
            game ← objGet gameRoomId games;
            id0 ← players game !! 0%nat;
            view0 ← getGameStateForPlayer game id0;
            id1 ← players game !! 1%nat;
            view1 ← getGameStateForPlayer game id1;
            let updates :=
              [emit id0 "pvpGameUpdate" (GameUpdate view0);
               emit id1 "pvpGameUpdate" (GameUpdate view1)] in
            if gameOver game then
              finalGame ← getGameStateForPlayer game id0;
              Some (mkServer (matchmakingQueue s) games,
                    updates ++
                    [emit gameRoomId "pvpGameOver"
                       (GameOver (gameOverMessage game) (gameOverType game)
                          (Some finalGame))])
            else Some (mkServer (matchmakingQueue s) games, updates)
      end
  end.

(** [Object.keys(socket.rooms)].  The file takes the [Server] class from
    [socket.io] and reads [io.sockets.sockets] with [get], as a [Map]:
    that is socket.io 3 or later, where [socket.rooms] is a [Set] of room
    names.  [Object.keys] lists the own enumerable string-keyed
    properties of its argument; the members of a [Set] are not properties
    of it and a [Set] has none, so the result is the empty array whatever
    rooms the socket has joined. *)
Definition Object_keys (rooms : list string) : list string := [].

(** The [playerAction] handler, for a socket whose [rooms] holds
    [rooms]: the first statement looks for a key of [socket.rooms] that
    starts with [game-], the rest is [playerActionOn]. *)
Definition playerAction (rooms : list string) (socketId action : string)
    (s : Server) : option (Server * list Event) :=
  playerActionOn (List.find (String.prefix "game-") (Object_keys rooms))
    socketId action s.

(** The events the state is followed through.  A [PlayerAction] carries
    the value of [gameRoomId] the handler goes on with.  The handler
    itself only ever goes on with [None] (see [playerAction]); the other
    values are kept, so that the turn engine is followed as it works when
    it is called on the room of a session. *)
Inductive Input :=
  | RequestMatch (rnd : nat -> nat) (socketId : string)
  | CancelMatchmaking (socketId : string)
  | Disconnect (socketId : string)
  | PlayerAction (gameRoomId : option string) (socketId action : string).

Definition sender (i : Input) : string :=
  match i with
  | RequestMatch _ socketId => socketId
  | CancelMatchmaking socketId => socketId
  | Disconnect socketId => socketId
  | PlayerAction _ socketId _ => socketId
  end.

Definition handle (i : Input) (s : Server) : option (Server * list Event) :=
  match i with
  | RequestMatch rnd socketId => requestMatch rnd socketId s
  | CancelMatchmaking socketId => cancelMatchmaking socketId s
  | Disconnect socketId => disconnect socketId s
  | PlayerAction gameRoomId socketId action =>
      playerActionOn gameRoomId socketId action s
  end.

(** The names a connection identity is taken never to have (see the
    section on the game state); it is not the empty string either. *)
Definition reservedNames : list string :=
  ["deck"; "players"; "dealer"; "currentTurn"; "turnOrder"; "turnIndex";
   "message"; "gameOver"; "gameOverMessage"; "gameOverType"; "undefined"].

Definition connectionId (id : string) : Prop :=
  id <> "" /\ id ∉ reservedNames.

(** The server runs from the empty queue and the empty store, one event
    at a time; an event whose handler throws ends the run.  [reachable]
    lets a [playerAction] go on with any room, [running] only with the
    room its handler finds: every running state is reachable, so what
    holds of every reachable state holds of the server as it runs. *)
Inductive reachable : Server -> Prop :=
  | reachable_start : reachable (mkServer [] [])
  | reachable_handle s i s' events :
      reachable s -> connectionId (sender i) ->
      handle i s = Some (s', events) -> reachable s'.

Inductive running : Server -> Prop :=
  | running_start : running (mkServer [] [])
  | running_requestMatch s rnd socketId s' events :
      running s -> connectionId socketId ->
      requestMatch rnd socketId s = Some (s', events) -> running s'
  | running_cancelMatchmaking s socketId s' events :
      running s -> connectionId socketId ->
      cancelMatchmaking socketId s = Some (s', events) -> running s'
  | running_disconnect s socketId s' events :
      running s -> connectionId socketId ->
      disconnect socketId s = Some (s', events) -> running s'
  | running_playerAction s rooms socketId action s' events :
      running s -> connectionId socketId ->
      playerAction rooms socketId action s = Some (s', events) -> running s'.

(** Running a list of events, collecting what is emitted. *)
Fixpoint run (inputs : list Input) (s : Server)
  : option (Server * list Event) :=
  match inputs with
  | [] => Some (s, [])
  | i :: rest =>
      '(s', events) ← handle i s;
      '(s'', events') ← run rest s';
      Some (s'', events ++ events')
  end.

(** ** Notions the properties are stated with *)

(** Two games that differ at most in the dealer's second card and in the
    dealer's stored total. *)
Definition sameButHoleCard (g1 g2 : Game) : Prop :=
  deck g1 = deck g2 /\ players g1 = players g2 /\ seats g1 = seats g2
  /\ currentTurn g1 = currentTurn g2 /\ turnOrder g1 = turnOrder g2
  /\ turnIndex g1 = turnIndex g2 /\ message g1 = message g2
  /\ gameOver g1 = gameOver g2 /\ gameOverMessage g1 = gameOverMessage g2
  /\ gameOverType g1 = gameOverType g2
  /\ Dealer.isBusted (dealer g1) = Dealer.isBusted (dealer g2)
  /\ length (Dealer.hand (dealer g1)) = length (Dealer.hand (dealer g2))
  /\ forall i : nat, i <> 1%nat ->
       Dealer.hand (dealer g1) !! i = Dealer.hand (dealer g2) !! i.

(** The four results a player can have against the dealer, and the
    precedence of the specification among them. *)
Inductive Outcome := Busted | Wins | Loses | Push.

Inductive player_outcome (p : Player.t) (d : Dealer.t) : Outcome -> Prop :=
  | outcome_busted :
      Player.isBusted p = true -> player_outcome p d Busted
  | outcome_wins :
      Player.isBusted p = false ->
      Dealer.isBusted d = true \/ Player.score p > Dealer.score d ->
      player_outcome p d Wins
  | outcome_loses :
      Player.isBusted p = false -> Dealer.isBusted d = false ->
      Player.score p < Dealer.score d ->
      player_outcome p d Loses
  | outcome_push :
      Player.isBusted p = false -> Dealer.isBusted d = false ->
      Player.score p = Dealer.score d ->
      player_outcome p d Push.

(** The words of the outcome message that follow a player's name. *)
Definition verdict (o : Outcome) : string :=
  match o with
  | Busted => " busted. "
  | Wins => " wins! "
  | Loses => " loses. "
  | Push => " pushes. "
  end.

(** [occursIn a s]: the text [a] occurs in [s] at some position. *)
Fixpoint occursIn (a s : string) : bool :=
  String.prefix a s
  || match s with
     | EmptyString => false
     | String _ s' => occursIn a s'
     end.

Definition isSpace (c : ascii) : bool := Ascii.eqb c " "%char.

Fixpoint hasSpace (s : string) : bool :=
  match s with
  | EmptyString => false
  | String c s' => isSpace c || hasSpace s'
  end.

(** The length of the part of [s] before its first space. *)
Fixpoint firstWord (s : string) : nat :=
  match s with
  | EmptyString => O
  | String c s' => if isSpace c then O else S (firstWord s')
  end.

(** The length of the longest stretch of [s] without a space. *)
Fixpoint longestWord (s : string) : nat :=
  match s with
  | EmptyString => O
  | String _ s' => Nat.max (firstWord s) (longestWord s')
  end.

(** What the remaining participant is sent when the other one leaves. *)
Definition forfeit (remainingPlayerId : string) : Event :=
  emit remainingPlayerId "pvpGameOver"
    (GameOver "Opponent disconnected. You win!" "win" None).

(** ** States used as instances *)

(** The server before any connection. *)
Definition start : Server := mkServer [] [].

(** A random source that always draws 0. *)
Definition rnd0 : nat -> nat := fun _ => O.

(** The game dealt to [a] and [b] from the deck shuffled with [rnd0]:
    [a] holds 2 and Q, [b] holds A and J, the dealer K and 10. *)
Definition dealtGame : Game :=
  mkGame (removelast (removelast (removelast (removelast (removelast
            (removelast (shuffleDeck rnd0 createDeck)))))))
    ["a"; "b"]
    (<["b" := Player.mk [mkCard RA Spades; mkCard RJ Spades] 21
                false false 1000]>
       (<["a" := Player.mk [mkCard R2 Hearts; mkCard RQ Spades] 12
                   false false 1000]> ∅))
    (Dealer.mk [mkCard RK Spades; mkCard R10 Spades] 20 false)
    "a" ["a"; "b"; "dealer"] 0 "Game started! Player 1's turn." false "" "".

(** The same game with another card in the dealer's second place. *)
Definition dealtGame' : Game :=
  setDealer (Dealer.mk [mkCard RK Spades; mkCard R6 Clubs] 16 false)
    dealtGame.

(** The server right after [a] and [b] have been matched. *)
Definition matched : Server := mkServer [] [("game-a-b", dealtGame)].

(** [a] is matched with [b], asks again and is matched with [c]. *)
Definition twoTables : list Input :=
  [RequestMatch rnd0 "a"; RequestMatch rnd0 "b";
   RequestMatch rnd0 "a"; RequestMatch rnd0 "c"].

(** A resolved position: [a] stands on 20, [b] has busted with 24, the
    dealer has stopped on 18. *)
Definition showdown : Game :=
  mkGame [mkCard R2 Hearts] ["a"; "b"]
    (<["b" := Player.mk [mkCard R10 Hearts; mkCard R5 Clubs; mkCard R9 Clubs]
                24 false true 1000]>
       (<["a" := Player.mk [mkCard RK Hearts; mkCard RQ Hearts] 20
                   true false 1000]> ∅))
    (Dealer.mk [mkCard R10 Spades; mkCard R8 Spades] 18 false)
    "dealer" ["a"; "b"; "dealer"] 2 "Dealer's turn... Dealer stands."
    false "" "".

(** ** Invariants of a served game *)

(** The hand a seat holds; nothing for an identity without a seat. *)
Definition handOf (g : Game) (id : string) : list Card :=
  match seats g !! id with
  | Some p => Player.hand p
  | None => []
  end.

(** The dealer's cards, the cards of the players in seat order and the
    cards left in the deck. *)
Definition allCards (g : Game) : list Card :=
  Dealer.hand (dealer g) ++ flat_map (handOf g) (players g) ++ deck g.

(** A player who can no longer act. *)
Definition exhausted (p : Player.t) : bool :=
  Player.isBusted p || Player.isStanding p.

(** An entry of the turn order at which [advanceTurn] stops: the dealer,
    or a player still able to act. *)
Definition eligible (g : Game) (id : string) : Prop :=
  id = "dealer"
  \/ exists p, seats g !! id = Some p /\ exhausted p = false.

(** [advancedFrom i g']: the turn of [g'] is the first eligible entry of
    the turn order met when walking circularly from the entry after
    index [i]. *)
Definition advancedFrom (i : nat) (g' : Game) : Prop :=
  let n := length (turnOrder g') in
  exists k : nat,
    (k < n)%nat
    /\ turnIndex g' = ((i + 1 + k) mod n)%nat
    /\ turnOrder g' !! turnIndex g' = Some (currentTurn g')
    /\ eligible g' (currentTurn g')
    /\ forall j : nat, (j < k)%nat ->
         exists id, turnOrder g' !! ((i + 1 + j) mod n)%nat = Some id
                    /\ ~ eligible g' id.

(** A card weighs its value with Aces as 1, less ten for an Ace: no total
    [calculateHandTotal] returns is below the weight of the hand. *)
Definition weight (c : Card) : Z :=
  if isAce c then -9 else hardValue c.

Definition handWeight (h : list Card) : Z :=
  foldr (fun c acc => weight c + acc) 0 h.

(** Where a game stands: the first player to act, the second, or over. *)
Definition phase (g : Game) (id1 id2 : string) (p1 p2 : Player.t) : Prop :=
  (turnIndex g = 0%nat /\ currentTurn g = id1 /\ gameOver g = false
   /\ exhausted p1 = false /\ exhausted p2 = false
   /\ handWeight (Dealer.hand (dealer g)) <= 20)
  \/ (turnIndex g = 1%nat /\ currentTurn g = id2 /\ gameOver g = false
      /\ exhausted p1 = true /\ exhausted p2 = false
      /\ handWeight (Dealer.hand (dealer g)) <= 20)
  \/ (turnIndex g = 2%nat /\ currentTurn g = "dealer" /\ gameOver g = true
      /\ exhausted p1 = true /\ exhausted p2 = true).

Record seated (g : Game) (id1 id2 : string) (p1 p2 : Player.t) : Prop := {
  seated_distinct : id1 <> id2;
  seated_id1 : connectionId id1;
  seated_id2 : connectionId id2;
  seated_players : players g = [id1; id2];
  seated_turnOrder : turnOrder g = [id1; id2; "dealer"];
  seated_seat1 : seats g !! id1 = Some p1;
  seated_seat2 : seats g !! id2 = Some p2;
  seated_cards :
    Permutation
      (Dealer.hand (dealer g) ++ Player.hand p1 ++ Player.hand p2 ++ deck g)
      createDeck;
  seated_score1 : Player.score p1 = calculateHandTotal (Player.hand p1);
  seated_score2 : Player.score p2 = calculateHandTotal (Player.hand p2);
  seated_bust1 : Player.isBusted p1 = false -> Player.score p1 <= 21;
  seated_bust2 : Player.isBusted p2 = false -> Player.score p2 <= 21;
  seated_weight1 : handWeight (Player.hand p1) <= 31;
  seated_weight2 : handWeight (Player.hand p2) <= 31;
  seated_phase : phase g id1 id2 p1 p2 }.

Definition wf_game (g : Game) : Prop :=
  exists id1 id2 p1 p2, seated g id1 id2 p1 p2.

Record wf_server (s : Server) : Prop := {
  wf_queue_ids : Forall connectionId (matchmakingQueue s);
  wf_queue_short : (length (matchmakingQueue s) <= 1)%nat;
  wf_rooms : NoDup (map fst (activeGames s));
  wf_games : Forall (fun rg => wf_game (snd rg)) (activeGames s) }.

(** What a valid action leaves behind, as far as the later properties
    need it: the game is again a served game with the same seats taken,
    the deck has only lost cards from its end, and the turn index either
    stayed with the same holder or moved on by one. *)
Definition stepped (stays : bool) (g g' : Game) (id1 id2 : string) : Prop :=
  (exists p1' p2', seated g' id1 id2 p1' p2')
  /\ (exists drawn, deck g = deck g' ++ drawn)
  /\ (if stays
      then turnIndex g' = turnIndex g /\ currentTurn g' = currentTurn g
      else turnIndex g' = S (turnIndex g)).

(** What [advanceTurn] is to achieve from a game [g]: the turn is moved
    to the next eligible entry, and it is the dealer's only when every
    player is exhausted. *)
Definition turnAdvanced (g g' : Game) : Prop :=
  advancedFrom (turnIndex g) g'
  /\ (currentTurn g' = "dealer" ->
      forall id, id ∈ players g' ->
        exists p, seats g' !! id = Some p /\ exhausted p = true).


(** ** Notions for the further properties *)

(** What an action may do to a seat: add cards at the end of the hand and
    set a flag; never change the chips nor clear a flag. *)
Record keptSeat (p p' : Player.t) : Prop := {
  kept_hand : Player.hand p `prefix_of` Player.hand p';
  kept_chips : Player.chips p' = Player.chips p;
  kept_standing : Player.isStanding p = true -> Player.isStanding p' = true;
  kept_busted : Player.isBusted p = true -> Player.isBusted p' = true }.

(** What an action never undoes; the cards it moves are accounted for
    by [dealt]. *)
Record evolves (g g' : Game) : Prop := {
  ev_players : players g' = players g;
  ev_turnOrder : turnOrder g' = turnOrder g;
  ev_deck : exists drawn, deck g = deck g' ++ drawn;
  ev_dealer : Dealer.hand (dealer g) `prefix_of` Dealer.hand (dealer g');
  ev_seats :
    forall id,
      match seats g !! id, seats g' !! id with
      | Some p, Some p' => keptSeat p p'
      | None, None => True
      | _, _ => False
      end;
  ev_over : gameOver g = true -> gameOver g' = true }.

(** A stored score is the total of the hand held, and the bust flag says
    whether it is above 21. *)
Definition scoredSeat (p : Player.t) : Prop :=
  Player.score p = calculateHandTotal (Player.hand p)
  /\ (Player.isBusted p = true <-> 21 < Player.score p).

Definition scoredDealer (d : Dealer.t) : Prop :=
  Dealer.score d = calculateHandTotal (Dealer.hand d)
  /\ (Dealer.isBusted d = true <-> 21 < Dealer.score d).

Record consistent (g : Game) : Prop := {
  cons_seats :
    forall id p, seats g !! id = Some p ->
      scoredSeat p /\ Player.chips p = 1000
      /\ (2 <= length (Player.hand p))%nat;
  cons_dealer : scoredDealer (dealer g);
  cons_dealer_cards : (2 <= length (Dealer.hand (dealer g)))%nat }.

(** The four events [requestMatch] emits when it pairs two connections. *)
Definition matchEvents (player1Id player2Id : string) (view1 view2 : View.t)
  : list Event :=
  [emit player1Id "matchFound" (MatchFound player2Id);
   emit player2Id "matchFound" (MatchFound player1Id);
   emit player1Id "pvpGameUpdate" (GameUpdate view1);
   emit player2Id "pvpGameUpdate" (GameUpdate view2)].

(** The view of a seated player, field by field. *)
Definition viewOf (g : Game) (playerId opponentId : string)
    (own opponent : Player.t) (upCard : Card) : View.t :=
  View.mk
    (PlayerView.mk playerId (Player.hand own) (Player.score own)
       (Player.isStanding own) (Player.isBusted own) (Player.chips own))
    (OpponentView.mk opponentId (Player.hand opponent)
       (Player.score opponent) false (Player.isStanding opponent)
       (Player.isBusted opponent))
    (DealerView.mk [Shown upCard; Placeholder] (getCardValue upCard 0) true)
    (currentTurn g) (message g) (gameOver g) (gameOverMessage g)
    (gameOverType g).


(** A position with two cards left in the deck and a dealer on 5. *)
Definition shortDeck : Game :=
  setDealer (Dealer.mk [mkCard R2 Clubs; mkCard R3 Clubs] 5 false)
    (setDeck [mkCard R4 Clubs; mkCard R5 Clubs] dealtGame).


(** The [gameOverType] of a round whose players ended with [o1] and
    [o2]: the last win or loss met in the order of the players. *)
Definition resultType (o1 o2 : Outcome) : string :=
  match o2 with
  | Wins => "win"
  | Loses => "lose"
  | _ => match o1 with
         | Wins => "win"
         | Loses => "lose"
         | _ => "info"
         end
  end.

(** The outcome fields of a game agree with its cards: empty while the
    round is on; once it is over the dealer stands on 17 or more and the
    message and the type are those of the results of the two seats as
    they are now. *)
Definition resolved (g : Game) : Prop :=
  if gameOver g then
    17 <= Dealer.score (dealer g)
    /\ exists id1 id2 p1 p2 o1 o2,
         players g = [id1; id2]
         /\ seats g !! id1 = Some p1 /\ seats g !! id2 = Some p2
         /\ player_outcome p1 (dealer g) o1
         /\ player_outcome p2 (dealer g) o2
         /\ gameOverMessage g
            = "Round over! " +:+ "undefined" +:+ verdict o1
                +:+ "undefined" +:+ verdict o2
         /\ gameOverType g = resultType o1 o2
  else gameOverMessage g = "" /\ gameOverType g = "".


(** The result of a hand against the dealer's, read off the two totals. *)
Definition handResult (hand dealerHand : list Card) (o : Outcome) : Prop :=
  let p := calculateHandTotal hand in
  let d := calculateHandTotal dealerHand in
  match o with
  | Busted => 21 < p
  | Wins => p <= 21 /\ (21 < d \/ d < p)
  | Loses => p <= 21 /\ d <= 21 /\ p < d
  | Push => p <= 21 /\ d <= 21 /\ p = d
  end.


(** A room of the store is named after the two players of its game. *)
Definition named (rg : string * Game) : Prop :=
  exists id1 id2,
    players (snd rg) = [id1; id2]
    /\ fst rg = "game-" +:+ id1 +:+ "-" +:+ id2.


(** A dealer who has to draw: 2 and 3 in hand, and 7, 9, 4 left in the
    deck, the 4 on top. *)
Definition dealerDraws : Game :=
  setDealer (Dealer.mk [mkCard R2 Clubs; mkCard R3 Clubs] 5 false)
    (setDeck [mkCard R7 Hearts; mkCard R9 Diamonds; mkCard R4 Clubs]
       dealtGame).

(** The last hit of a round: [a] stands on 20, [b] holds 15 and is to
    act, the dealer holds 5; the deck is 7, 9, 4, K, the K on top. *)
Definition lastHit : Game :=
  mkGame [mkCard R7 Hearts; mkCard R9 Diamonds; mkCard R4 Clubs;
          mkCard RK Diamonds]
    ["a"; "b"]
    (<["b" := Player.mk [mkCard R10 Hearts; mkCard R5 Clubs] 15
                false false 1000]>
       (<["a" := Player.mk [mkCard RK Hearts; mkCard RQ Hearts] 20
                   true false 1000]> ∅))
    (Dealer.mk [mkCard R2 Clubs; mkCard R3 Clubs] 5 false)
    "b" ["a"; "b"; "dealer"] 1 "It's b's turn." false "" "".

(** The game of [matched] after [a] and then [b] have stood, and the
    server holding it. *)
Definition stoodGame : Game :=
  setOutcome "Round over! undefined loses. undefined wins! " "win"
    (setMessage "Dealer's turn... Dealer stands."
       (setTurn 2 "dealer"
          (setSeat "b"
             (Player.mk [mkCard RA Spades; mkCard RJ Spades] 21
                true false 1000)
             (setSeat "a"
                (Player.mk [mkCard R2 Hearts; mkCard RQ Spades] 12
                   true false 1000)
                dealtGame)))).

Definition bothStood : Server := mkServer [] [("game-a-b", stoodGame)].

(** What a hit or a stand by [playerId] does with the cards.  The cards
    that have left the end of the deck, in the order popped, are the
    cards [toPlayer] added to the hand of [playerId], at most one,
    followed by the cards [toDealer] added to the dealer's hand.  A hand
    that got a card has its total stored as score; the seat of
    [playerId] is otherwise as it was but for its flags, the dealer is
    as it was unless the round was played out, and every other seat is
    untouched. *)
Record dealt (playerId : string) (g g' : Game)
    (toPlayer toDealer : list Card) : Prop := {
  dealt_deck : deck g = deck g' ++ rev (toPlayer ++ toDealer);
  dealt_one : (length toPlayer <= 1)%nat;
  dealt_dealer_hand :
    Dealer.hand (dealer g') = Dealer.hand (dealer g) ++ toDealer;
  dealt_dealer :
    dealer g' = dealer g
    \/ (Dealer.score (dealer g')
        = calculateHandTotal (Dealer.hand (dealer g'))
        /\ Dealer.isBusted (dealer g')
           = if Dealer.score (dealer g') >? 21 then true
             else Dealer.isBusted (dealer g));
  dealt_others :
    forall id, id <> playerId -> seats g' !! id = seats g !! id;
  dealt_actor :
    match seats g !! playerId, seats g' !! playerId with
    | Some p, Some p' =>
        Player.hand p' = Player.hand p ++ toPlayer
        /\ Player.score p'
           = match toPlayer with
             | [] => Player.score p
             | _ :: _ => calculateHandTotal (Player.hand p')
             end
        /\ Player.chips p' = Player.chips p
    | None, None => toPlayer = []
    | _, _ => False
    end }.


(** A room of the store holds a game as [initializeGame] returned it for
    the two distinct connections the room is named after. *)
Definition asDealt (rg : string * Game) : Prop :=
  exists rnd id1 id2,
    id1 <> id2
    /\ fst rg = "game-" +:+ id1 +:+ "-" +:+ id2
    /\ initializeGame rnd id1 id2 = Some (snd rg).

(** * Properties *)

(** ** Scoring *)

Lemma hardValue_bounds c : 1 <= hardValue c <= 10.
Proof. destruct c as [[] s]; cbv; split; discriminate. Qed.

Lemma getCardValue_plain c t : isAce c = false -> getCardValue c t = hardValue c.
Proof. destruct c as [[] s]; cbv; congruence. Qed.

Lemma getCardValue_ace c t :
  isAce c = true ->
  getCardValue c t = if t + 11 >? 21 then 1 else 11.
Proof. destruct c as [[] s]; cbv [isAce getCardValue rank]; congruence. Qed.

Lemma hardValue_ace c : isAce c = true -> hardValue c = 1.
Proof. destruct c as [[] s]; cbv; congruence. Qed.

Lemma minTotal_cons c hand : minTotal (c :: hand) = hardValue c + minTotal hand.
Proof. reflexivity. Qed.

Lemma minTotal_app h1 h2 : minTotal (h1 ++ h2) = minTotal h1 + minTotal h2.
Proof.
  induction h1 as [|c h1 IH]; [reflexivity|].
  rewrite <- app_comm_cons, !minTotal_cons, IH. lia.
Qed.

Lemma minTotal_nonneg hand : 0 <= minTotal hand.
Proof.
  induction hand as [|c hand IH]; [reflexivity|].
  rewrite minTotal_cons. pose proof (hardValue_bounds c). lia.
Qed.

Lemma countAces_cons c hand :
  countAces (c :: hand) = ((if isAce c then 1 else 0) + countAces hand)%nat.
Proof.
  unfold countAces. rewrite filter_cons.
  destruct (isAce c); case_decide; simpl; congruence.
Qed.

Lemma countAces_le_minTotal hand : Z.of_nat (countAces hand) <= minTotal hand.
Proof.
  induction hand as [|c hand IH]; [reflexivity|].
  rewrite countAces_cons, minTotal_cons.
  pose proof (hardValue_bounds c). destruct (isAce c); lia.
Qed.

(** The fold adds to the all-Aces-as-1 total ten for each Ace it took as
    11; it takes at most one Ace as 11, none once the running total has
    passed 10, and one whenever that fits under 21. *)
Lemma foldHand_spec hand : forall t n,
  0 <= t ->
  exists k : nat,
    foldHand hand t n
      = (t + minTotal hand + 10 * Z.of_nat k, (n + countAces hand)%nat)
    /\ (k <= 1)%nat /\ (k <= countAces hand)%nat
    /\ (11 <= t -> k = O)
    /\ (t + minTotal hand + 10 <= 21 -> (1 <= countAces hand)%nat -> k = 1%nat).
Proof.
  induction hand as [|c hand IH]; intros t n Ht.
  - exists O. change (minTotal []) with 0. change (countAces []) with O.
    simpl. split; [f_equal; lia|]. repeat split; lia.
  - simpl foldHand. rewrite minTotal_cons, countAces_cons.
    pose proof (hardValue_bounds c) as Hb.
    pose proof (minTotal_nonneg hand) as Hm.
    destruct (isAce c) eqn:Hace.
    + rewrite (getCardValue_ace c t Hace), (hardValue_ace c Hace).
      destruct (Z.gtb_spec (t + 11) 21) as [Hgt|Hle].
      * destruct (IH (t + 1) (S n) ltac:(lia))
          as (k & -> & Hk1 & Hk2 & Hk3 & Hk4).
        assert (k = O) by (apply Hk3; lia). subst k.
        exists O. split; [f_equal; lia|]. repeat split; lia.
      * destruct (IH (t + 11) (S n) ltac:(lia))
          as (k & -> & Hk1 & Hk2 & Hk3 & Hk4).
        assert (k = O) by (apply Hk3; lia). subst k.
        exists 1%nat. split; [f_equal; lia|]. repeat split; lia.
    + rewrite (getCardValue_plain c t Hace).
      destruct (IH (t + hardValue c) n ltac:(lia))
        as (k & -> & Hk1 & Hk2 & Hk3 & Hk4).
      exists k. split; [f_equal; lia|].
      repeat split; try lia; intros; apply Hk4; lia.
Qed.

Lemma adjustAces_id n t : t <= 21 -> adjustAces n t = t.
Proof.
  destruct n; [reflexivity|]. simpl. intros H.
  destruct (Z.gtb_spec t 21); [lia|reflexivity].
Qed.

Lemma adjustAces_step n t :
  21 < t -> adjustAces (S n) t = adjustAces n (t - 10).
Proof. simpl. intros H. destruct (Z.gtb_spec t 21); [reflexivity|lia]. Qed.

(** The demotion loop never goes below what [numAces] subtractions give,
    and stops under 21 as soon as some number of them suffices. *)
Lemma adjustAces_le n : forall t (k : nat),
  (k <= n)%nat -> t - 10 * Z.of_nat k <= 21 -> adjustAces n t <= 21.
Proof.
  induction n as [|n IH]; intros t k Hk Ht.
  - assert (k = O) by lia. subst k. simpl. lia.
  - destruct (Z_le_gt_dec t 21) as [Hle|Hgt].
    + rewrite adjustAces_id; lia.
    + rewrite adjustAces_step by lia.
      destruct k as [|k]; [lia|].
      apply (IH (t - 10) k); lia.
Qed.

Lemma ace_total_min hand t : ace_total hand t -> minTotal hand <= t.
Proof.
  induction 1; rewrite ?minTotal_cons; try reflexivity;
    rewrite ?(hardValue_ace c) by assumption; lia.
Qed.

Lemma ace_total_minTotal hand : ace_total hand (minTotal hand).
Proof.
  induction hand as [|c hand IH]; [constructor|].
  rewrite minTotal_cons. destruct (isAce c) eqn:Hace.
  - rewrite (hardValue_ace c Hace). now apply ace_total_low.
  - now apply ace_total_plain.
Qed.

(** With one Ace in the hand, ten more than the all-Aces-as-1 total is
    reachable. *)
Lemma ace_total_soft hand :
  (1 <= countAces hand)%nat -> ace_total hand (minTotal hand + 10).
Proof.
  induction hand as [|c hand IH]; [cbv; lia|].
  rewrite countAces_cons, minTotal_cons. destruct (isAce c) eqn:Hace.
  - intros _. rewrite (hardValue_ace c Hace).
    replace (1 + minTotal hand + 10) with (11 + minTotal hand) by lia.
    apply ace_total_high; [assumption|apply ace_total_minTotal].
  - intros H. replace (hardValue c + minTotal hand + 10)
      with (hardValue c + (minTotal hand + 10)) by lia.
    apply ace_total_plain; [assumption|]. apply IH. lia.
Qed.

(** Any total of an assignment is the minimal one plus ten per Ace taken
    as 11. *)
Lemma ace_total_shape hand t :
  ace_total hand t ->
  exists j : nat, t = minTotal hand + 10 * Z.of_nat j /\ (j <= countAces hand)%nat.
Proof.
  induction 1 as [|c hand t Hace _ (j & -> & Hj)|c hand t Hace _ (j & -> & Hj)
                 |c hand t Hace _ (j & -> & Hj)];
    rewrite ?minTotal_cons, ?countAces_cons, ?Hace, ?(hardValue_ace c) by assumption.
  - exists O. split; [reflexivity|lia].
  - exists j. split; lia.
  - exists j. split; lia.
  - exists (S j). split; lia.
Qed.

(** When the all-Aces-as-1 total is at most 21, the value returned is
    that total or ten more, the latter exactly when an Ace is held and
    ten more still fits. *)
Lemma calculateHandTotal_soft hand :
  minTotal hand <= 21 ->
  calculateHandTotal hand
    = if decide ((1 <= countAces hand)%nat /\ minTotal hand + 10 <= 21)
      then minTotal hand + 10 else minTotal hand.
Proof.
  intros Hmin. unfold calculateHandTotal.
  destruct (foldHand_spec hand 0 O ltac:(lia))
    as (k & -> & Hk1 & Hk2 & Hk3 & Hk4).
  simpl (0 + _)%nat. rewrite Z.add_0_l.
  case_decide as Hd.
  - destruct Hd as [Ha Hs]. rewrite Hk4 by lia.
    rewrite adjustAces_id; lia.
  - destruct k as [|[|k]]; [| |lia].
    + rewrite adjustAces_id; lia.
    + destruct (countAces hand) as [|a] eqn:Ea; [lia|].
      rewrite adjustAces_step by lia. rewrite adjustAces_id; lia.
Qed.

(** The value returned is the best total at most 21 whenever there is
    one. *)
Lemma calculateHandTotal_best hand t :
  ace_total hand t -> t <= 21 ->
  ace_total hand (calculateHandTotal hand)
  /\ t <= calculateHandTotal hand <= 21.
Proof.
  intros Ht Hle. pose proof (ace_total_min hand t Ht) as Hmin.
  rewrite calculateHandTotal_soft by lia.
  destruct (ace_total_shape hand t Ht) as (j & -> & Hj).
  case_decide as Hd.
  - destruct Hd as [Ha Hs]. split; [now apply ace_total_soft|].
    pose proof (countAces_le_minTotal hand). lia.
  - split; [apply ace_total_minTotal|].
    destruct j as [|j]; [lia|]. exfalso. apply Hd. split; lia.
Qed.

(** A hand whose all-Aces-as-1 total is at most 21 is scored at most
    21: the loop has enough Aces to undo what the fold added. *)
Lemma calculateHandTotal_minTotal_le hand :
  minTotal hand <= 21 -> calculateHandTotal hand <= 21.
Proof.
  intros Hmin. unfold calculateHandTotal.
  destruct (foldHand_spec hand 0 O ltac:(lia))
    as (k & -> & Hk1 & Hk2 & Hk3 & Hk4).
  apply (adjustAces_le _ _ k); simpl; lia.
Qed.

(** C2: when some assignment of 1 or 11 to the Aces of a hand gives a
    total of at most 21, [calculateHandTotal] returns a value of at most
    21: such a hand is never scored as a bust. *)
Theorem calculateHandTotal_no_false_bust (hand : list Card) (t : Z) :
  ace_total hand t -> t <= 21 -> calculateHandTotal hand <= 21.
Proof.
  intros Ht Hle. apply calculateHandTotal_minTotal_le.
  pose proof (ace_total_min hand t Ht). lia.
Qed.

Lemma calculateHandTotal_no_false_bust_witness :
  ace_total [mkCard RA Hearts; mkCard RA Spades; mkCard R9 Clubs] 21
  /\ calculateHandTotal [mkCard RA Hearts; mkCard RA Spades; mkCard R9 Clubs]
     <= 21.
Proof.
  assert (H : ace_total
                [mkCard RA Hearts; mkCard RA Spades; mkCard R9 Clubs] 21).
  { apply (ace_total_high _ _ 10); [reflexivity|].
    apply (ace_total_low _ _ 9); [reflexivity|].
    apply (ace_total_plain (mkCard R9 Clubs) [] 0); [reflexivity|].
    constructor. }
  split; [exact H|].
  apply (calculateHandTotal_no_false_bust _ 21 H). lia.
Defined.

(** ** Agreement with standard scoring below the bust line *)

Lemma allTotals_ace_total hand : forall t, t ∈ allTotals hand <-> ace_total hand t.
Proof.
  induction hand as [|c hand IH]; intros t; simpl.
  - rewrite list_elem_of_singleton. split; [intros ->; constructor|].
    inversion 1; reflexivity.
  - destruct (isAce c) eqn:Hace.
    + rewrite elem_of_app, !list_elem_of_fmap. split.
      * intros [(u & -> & Hu)|(u & -> & Hu)]; apply IH in Hu;
          [now apply ace_total_low|now apply ace_total_high].
      * inversion 1; subst; try congruence;
          [left|right]; eexists; (split; [reflexivity|]); now apply IH.
    + rewrite list_elem_of_fmap. split.
      * intros (u & -> & Hu). apply IH in Hu. now apply ace_total_plain.
      * inversion 1; subst; try congruence.
        eexists; (split; [reflexivity|]); now apply IH.
Qed.

Lemma foldr_max_spec (t : Z) (ts : list Z) :
  foldr Z.max t ts ∈ t :: ts
  /\ forall x, x ∈ t :: ts -> x <= foldr Z.max t ts.
Proof.
  induction ts as [|u ts [IHin IHle]]; simpl.
  - split; [apply list_elem_of_here|].
    intros x Hx. apply list_elem_of_singleton in Hx as ->. lia.
  - split.
    + destruct (Z.max_spec u (foldr Z.max t ts)) as [[_ ->]|[_ ->]].
      * apply elem_of_cons in IHin as [Heq|Hin];
          [rewrite Heq; apply list_elem_of_here|].
        now apply list_elem_of_further, list_elem_of_further.
      * apply list_elem_of_further, list_elem_of_here.
    + intros x Hx. apply elem_of_cons in Hx as [->|Hx].
      * specialize (IHle t (list_elem_of_here _ _)). lia.
      * apply elem_of_cons in Hx as [->|Hx]; [lia|].
        specialize (IHle x (list_elem_of_further _ _ _ Hx)). lia.
Qed.

(** On every hand whose all-Aces-as-1 total is at most 21 the value
    returned is the standard total. *)
Lemma calculateHandTotal_standard hand :
  minTotal hand <= 21 -> calculateHandTotal hand = standardTotal hand.
Proof.
  intros Hmin. unfold standardTotal.
  pose proof (ace_total_minTotal hand) as Hm.
  destruct (calculateHandTotal_best hand _ Hm Hmin) as (Hcalc & _ & Hle).
  assert (Hin : forall t, t ∈ filter (fun t => t <= 21) (allTotals hand)
                          <-> ace_total hand t /\ t <= 21).
  { intros t. rewrite list_elem_of_filter, allTotals_ace_total. tauto. }
  destruct (filter (fun t => t <= 21) (allTotals hand)) as [|t ts] eqn:Hf.
  - exfalso. apply (not_elem_of_nil (minTotal hand)). apply Hin. now split.
  - destruct (foldr_max_spec t ts) as [Hmax Hub].
    apply Hin in Hmax as [Hmax Hmax21].
    destruct (calculateHandTotal_best hand _ Hmax Hmax21) as (_ & Hge & _).
    assert (calculateHandTotal hand <= foldr Z.max t ts)
      by (apply Hub, Hin; now split).
    lia.
Qed.

(** ** The demotion loop above the bust line *)

(** C1: [calculateHandTotal] is meant to give the standard blackjack
    total, the all-Aces-as-1 total when that exceeds 21.  On the hand
    10, 5, A, 9 the standard total is 25 (a bust) and the function
    returns 15: the Ace was counted as 1 by the fold and the loop
    subtracts 10 for it all the same. *)
Theorem calculateHandTotal_demotes_low_ace :
  let hand := [mkCard R10 Hearts; mkCard R5 Diamonds; mkCard RA Clubs;
               mkCard R9 Spades] in
  foldHand hand 0 O = (25, 1%nat)
  /\ calculateHandTotal hand = 15
  /\ minTotal hand = 25
  /\ standardTotal hand = 25.
Proof. vm_compute. repeat split. Qed.

(** ** View projection *)

(** The projection reads nothing of the dealer but the first card. *)
Lemma getGameStateForPlayer_upcard_only g1 g2 playerId :
  players g1 = players g2 -> seats g1 = seats g2 ->
  currentTurn g1 = currentTurn g2 -> message g1 = message g2 ->
  gameOver g1 = gameOver g2 -> gameOverMessage g1 = gameOverMessage g2 ->
  gameOverType g1 = gameOverType g2 ->
  Dealer.hand (dealer g1) !! 0%nat = Dealer.hand (dealer g2) !! 0%nat ->
  getGameStateForPlayer g1 playerId = getGameStateForPlayer g2 playerId.
Proof.
  intros Hp Hs Hc Hm Ho Hom Hot Hd. unfold getGameStateForPlayer.
  rewrite Hp, Hs, Hc, Hm, Ho, Hom, Hot, Hd. reflexivity.
Qed.

Lemma getGameStateForPlayer_dealerState game playerId v :
  getGameStateForPlayer game playerId = Some v ->
  exists upCard,
    Dealer.hand (dealer game) !! 0%nat = Some upCard
    /\ View.dealerState v
       = DealerView.mk [Shown upCard; Placeholder] (getCardValue upCard 0) true.
Proof.
  unfold getGameStateForPlayer. intros H.
  destruct (seats game !! playerId) as [cp|]; [|discriminate].
  destruct (otherThan playerId (players game)) as [oid|]; [|discriminate].
  simpl in H. destruct (seats game !! oid) as [op|]; [|discriminate].
  simpl in H. destruct (Dealer.hand (dealer game) !! 0%nat) as [up|];
    [|discriminate].
  simpl in H. injection H as <-. exists up. split; reflexivity.
Qed.

(** C4: for either recipient, the projection of a game shows of the
    dealer only the first card, a placeholder and the value of the first
    card alone; two games that differ only in the dealer's second card
    (and the total stored from it) have the same projection.  This holds
    for every game, in particular while the round is not resolved. *)
Theorem dealer_hole_card_masked (g1 g2 : Game) (playerId : string) :
  sameButHoleCard g1 g2 ->
  getGameStateForPlayer g1 playerId = getGameStateForPlayer g2 playerId
  /\ forall v, getGameStateForPlayer g1 playerId = Some v ->
       exists upCard,
         Dealer.hand (dealer g1) !! 0%nat = Some upCard
         /\ View.dealerState v
            = DealerView.mk [Shown upCard; Placeholder]
                (getCardValue upCard 0) true.
Proof.
  intros (Hd & Hp & Hs & Hc & Hto & Hti & Hm & Ho & Hom & Hot & Hb & Hl & Hh).
  split.
  - apply getGameStateForPlayer_upcard_only; try assumption.
    apply Hh. discriminate.
  - intros v Hv. now apply getGameStateForPlayer_dealerState with playerId.
Qed.

Lemma dealer_hole_card_masked_witness :
  gameOver dealtGame = false
  /\ getGameStateForPlayer dealtGame "a" = getGameStateForPlayer dealtGame' "a"
  /\ getGameStateForPlayer dealtGame "b" = getGameStateForPlayer dealtGame' "b".
Proof.
  assert (H : sameButHoleCard dealtGame dealtGame').
  { repeat split. intros [|[|i]] Hi; [reflexivity|congruence|reflexivity]. }
  split; [reflexivity|].
  split; [exact (proj1 (dealer_hole_card_masked _ _ "a" H))|].
  exact (proj1 (dealer_hole_card_masked _ _ "b" H)).
Defined.

(** ** Session store *)

Lemma objSet_same k g o : objGet k o = Some g -> objSet k g o = o.
Proof.
  induction o as [|[k' g'] o IH]; simpl; [discriminate|].
  destruct (String.eqb_spec k' k) as [->|Hne].
  - intros [= ->]. reflexivity.
  - intros H. now rewrite IH.
Qed.

Lemma objGet_objSet k g o : objGet k (objSet k g o) = Some g.
Proof.
  induction o as [|[k' g'] o IH]; simpl.
  - now rewrite String.eqb_refl.
  - destruct (String.eqb_spec k' k) as [->|Hne]; simpl.
    + now rewrite String.eqb_refl.
    + destruct (String.eqb_spec k' k); [contradiction|assumption].
Qed.

Lemma objGet_objSet_ne k k' g o :
  k' <> k -> objGet k' (objSet k g o) = objGet k' o.
Proof.
  intros Hne. induction o as [|[k0 g0] o IH]; simpl.
  - destruct (String.eqb_spec k k'); [congruence|reflexivity].
  - destruct (String.eqb_spec k0 k) as [->|Hk]; simpl.
    + destruct (String.eqb_spec k k'); [congruence|reflexivity].
    + destruct (String.eqb_spec k0 k'); [reflexivity|assumption].
Qed.

Lemma objGet_objDelete k o : objGet k (objDelete k o) = None.
Proof.
  induction o as [|[k' g'] o IH]; simpl; [reflexivity|].
  destruct (String.eqb_spec k' k) as [->|Hne]; simpl; [assumption|].
  destruct (String.eqb_spec k' k); [contradiction|assumption].
Qed.

Lemma objGet_objDelete_ne k k' o :
  k' <> k -> objGet k' (objDelete k o) = objGet k' o.
Proof.
  intros Hne. induction o as [|[k0 g0] o IH]; simpl; [reflexivity|].
  destruct (String.eqb_spec k0 k) as [->|Hk]; simpl.
  - destruct (String.eqb_spec k k'); [congruence|assumption].
  - destruct (String.eqb_spec k0 k'); [reflexivity|assumption].
Qed.

(** ** Actions out of turn *)

Lemma Room_invalid_action game playerId :
  (currentTurn game <> playerId
   \/ exists player, seats game !! playerId = Some player
        /\ (Player.isStanding player = true \/ Player.isBusted player = true)) ->
  Room.handleHit playerId game = Some game
  /\ Room.handleStand playerId game = Some game.
Proof.
  unfold Room.handleHit, Room.handleStand.
  destruct (String.eqb_spec (currentTurn game) playerId) as [Heq|Hne];
    simpl; [|intros _; split; reflexivity].
  intros [Hne|(player & -> & Hflag)]; [contradiction|]. simpl.
  assert (Player.isStanding player || Player.isBusted player = true) as ->
    by (destruct Hflag as [-> | ->]; [reflexivity|apply orb_true_r]).
  split; reflexivity.
Qed.

(** C8: a hit or a stand by someone who does not hold the turn, or who is
    already standing or busted, returns normally and leaves the whole
    store, and with it every field of the session, as it was. *)
Theorem invalid_action_is_noop (activeGames : Store)
    (gameRoomId playerId : string) (game : Game) :
  objGet gameRoomId activeGames = Some game ->
  (currentTurn game <> playerId
   \/ exists player, seats game !! playerId = Some player
        /\ (Player.isStanding player = true \/ Player.isBusted player = true)) ->
  handleHit gameRoomId playerId activeGames = Some activeGames
  /\ handleStand gameRoomId playerId activeGames = Some activeGames.
Proof.
  intros Hget Hinv. destruct (Room_invalid_action game playerId Hinv) as [Hh Hs].
  unfold handleHit, handleStand, onGame. rewrite Hget. simpl.
  rewrite Hh, Hs. simpl. rewrite (objSet_same _ _ _ Hget). split; reflexivity.
Qed.

Lemma invalid_action_is_noop_witness :
  handleHit "game-a-b" "b" [("game-a-b", dealtGame)]
    = Some [("game-a-b", dealtGame)]
  /\ handleStand "game-a-b" "b" [("game-a-b", dealtGame)]
    = Some [("game-a-b", dealtGame)].
Proof.
  apply (invalid_action_is_noop [("game-a-b", dealtGame)] "game-a-b" "b"
           dealtGame).
  - reflexivity.
  - left. discriminate.
Defined.

Example initializeGame_dealtGame : initializeGame rnd0 "a" "b" = Some dealtGame.
Proof. vm_compute. reflexivity. Qed.

(** ** Outcome of the round *)

(** Exactly one of the four outcomes applies to a player. *)
Lemma player_outcome_total p d : exists o, player_outcome p d o.
Proof.
  destruct (Player.isBusted p) eqn:Hb; [exists Busted; now constructor|].
  destruct (Dealer.isBusted d) eqn:Hd;
    [exists Wins; constructor; [assumption|now left]|].
  destruct (Z.lt_total (Player.score p) (Dealer.score d)) as [Hlt|[Heq|Hgt]].
  - exists Loses. now constructor.
  - exists Push. now constructor.
  - exists Wins. constructor; [assumption|right; lia].
Qed.

Lemma player_outcome_unique p d o o' :
  player_outcome p d o -> player_outcome p d o' -> o = o'.
Proof.
  intros H H'. destruct H, H'; try reflexivity; try congruence;
    repeat match goal with H : _ \/ _ |- _ => destruct H end;
    try congruence; lia.
Qed.

(** The clause [judge] appends and the type it leaves, by outcome. *)
Lemma judge_outcome p d o message type :
  player_outcome p d o ->
  Room.judge p d message type
  = (message +:+ "undefined" +:+ verdict o,
     match o with
     | Wins => "win"
     | Loses => "lose"
     | _ => type
     end).
Proof.
  unfold Room.judge. intros H. destruct H as [Hb|Hb Hw|Hb Hd Hlt|Hb Hd Heq];
    rewrite Hb; simpl; try reflexivity.
  - assert (Dealer.isBusted d || (Player.score p >? Dealer.score d) = true)
      as ->; [|reflexivity].
    destruct Hw as [-> | Hgt]; [reflexivity|].
    apply orb_true_iff. right. apply Z.gtb_lt. lia.
  - rewrite Hd. simpl.
    destruct (Z.gtb_spec (Player.score p) (Dealer.score d)); [lia|].
    destruct (Z.ltb_spec (Player.score p) (Dealer.score d)); [reflexivity|lia].
  - rewrite Hd. simpl.
    destruct (Z.gtb_spec (Player.score p) (Dealer.score d)); [lia|].
    destruct (Z.ltb_spec (Player.score p) (Dealer.score d)); [lia|reflexivity].
Qed.

Lemma append_assoc (a b c : string) : (a +:+ b) +:+ c = a +:+ b +:+ c.
Proof.
  induction a as [|x a IH]; [reflexivity|].
  change (String x ((a +:+ b) +:+ c) = String x (a +:+ b +:+ c)).
  f_equal. exact IH.
Qed.

Lemma Room_determineGameOutcome_spec game id1 id2 player1 player2 o1 o2 :
  players game !! 0%nat = Some id1 -> players game !! 1%nat = Some id2 ->
  seats game !! id1 = Some player1 -> seats game !! id2 = Some player2 ->
  player_outcome player1 (dealer game) o1 ->
  player_outcome player2 (dealer game) o2 ->
  exists type,
    Room.determineGameOutcome game
    = Some (setOutcome
              ("Round over! " +:+ "undefined" +:+ verdict o1
                 +:+ "undefined" +:+ verdict o2) type game).
Proof.
  intros H1 H2 Hs1 Hs2 Ho1 Ho2. unfold Room.determineGameOutcome.
  rewrite H1. simpl. rewrite Hs1. simpl. rewrite H2. simpl. rewrite Hs2. simpl.
  rewrite (judge_outcome _ _ o1 _ _ Ho1), (judge_outcome _ _ o2 _ _ Ho2).
  rewrite append_assoc. eexists. reflexivity.
Qed.

(** C6: when the round resolves, each player is judged against the dealer
    on its own: busted first; otherwise a win if the dealer is busted or
    the player's total is higher; otherwise a loss if it is lower;
    otherwise, the totals being equal, a push.  The outcome message lists
    the two results in seat order.  With the first player at 20, the
    second busted and the dealer at 18, the first wins and the second is
    busted. *)
Theorem determineGameOutcome_precedence (activeGames : Store)
    (gameRoomId id1 id2 : string) (game : Game) (player1 player2 : Player.t) :
  objGet gameRoomId activeGames = Some game ->
  players game = [id1; id2] ->
  seats game !! id1 = Some player1 -> seats game !! id2 = Some player2 ->
  exists (game' : Game) (o1 o2 : Outcome),
    determineGameOutcome gameRoomId activeGames
      = Some (objSet gameRoomId game' activeGames)
    /\ gameOver game' = true
    /\ player_outcome player1 (dealer game) o1
    /\ player_outcome player2 (dealer game) o2
    /\ gameOverMessage game'
       = "Round over! " +:+ "undefined" +:+ verdict o1
           +:+ "undefined" +:+ verdict o2
    /\ (Player.score player1 = 20 -> Player.isBusted player1 = false ->
        Player.isBusted player2 = true ->
        Dealer.score (dealer game) = 18 ->
        Dealer.isBusted (dealer game) = false ->
        o1 = Wins /\ o2 = Busted).
Proof.
  intros Hget Hp Hs1 Hs2.
  destruct (player_outcome_total player1 (dealer game)) as [o1 Ho1].
  destruct (player_outcome_total player2 (dealer game)) as [o2 Ho2].
  destruct (Room_determineGameOutcome_spec game id1 id2 player1 player2 o1 o2)
    as [type Hrun]; try assumption; try (rewrite Hp; reflexivity).
  eexists _, o1, o2. unfold determineGameOutcome, onGame.
  rewrite Hget. simpl. rewrite Hrun. simpl.
  split; [reflexivity|]. split; [reflexivity|].
  split; [assumption|]. split; [assumption|]. split; [reflexivity|].
  intros Hs Hb1 Hb2 Hds Hdb. split.
  - apply (player_outcome_unique player1 (dealer game)); [assumption|].
    apply outcome_wins; [assumption|]. right. lia.
  - apply (player_outcome_unique player2 (dealer game)); [assumption|].
    now apply outcome_busted.
Qed.

Lemma determineGameOutcome_precedence_witness :
  exists game',
    determineGameOutcome "game-a-b" [("game-a-b", showdown)]
      = Some [("game-a-b", game')]
    /\ gameOverMessage game' = "Round over! undefined wins! undefined busted. ".
Proof.
  destruct (determineGameOutcome_precedence [("game-a-b", showdown)]
              "game-a-b" "a" "b" showdown
              (Player.mk [mkCard RK Hearts; mkCard RQ Hearts] 20
                 true false 1000)
              (Player.mk [mkCard R10 Hearts; mkCard R5 Clubs; mkCard R9 Clubs]
                 24 false true 1000)
              eq_refl eq_refl eq_refl eq_refl)
    as (game' & o1 & o2 & Hrun & _ & _ & _ & Hmsg & Hscenario).
  destruct (Hscenario eq_refl eq_refl eq_refl eq_refl eq_refl) as [-> ->].
  exists game'. split; [exact Hrun|exact Hmsg].
Defined.

(** *** The text of the outcome message *)

Lemma prefix_firstWord a : forall s,
  String.prefix a s = true -> hasSpace a = false ->
  (String.length a <= firstWord s)%nat.
Proof.
  induction a as [|x a IH]; intros s Hp Hs; simpl; [lia|].
  destruct s as [|y s]; simpl in Hp; [discriminate|].
  destruct (ascii_dec x y) as [->|]; [|discriminate].
  simpl in Hs. apply orb_false_iff in Hs as [Hy Ha].
  simpl. rewrite Hy. specialize (IH s Hp Ha). lia.
Qed.

Lemma occursIn_longestWord a : forall s,
  occursIn a s = true -> hasSpace a = false ->
  (String.length a <= longestWord s)%nat.
Proof.
  induction s as [|y s IH]; intros Ho Hs.
  - simpl in Ho. rewrite orb_false_r in Ho.
    apply (prefix_firstWord a "" Ho Hs).
  - cbn [occursIn] in Ho. apply orb_true_iff in Ho as [Hp|Ho].
    + pose proof (prefix_firstWord a _ Hp Hs). cbn [longestWord]. lia.
    + specialize (IH Ho Hs). cbn [longestWord]. lia.
Qed.

Lemma outcome_message_words o1 o2 :
  longestWord ("Round over! " +:+ "undefined" +:+ verdict o1
                  +:+ "undefined" +:+ verdict o2) = 9%nat.
Proof. destruct o1, o2; vm_compute; reflexivity. Qed.

(** C10: the outcome message names each player through the [id] property
    of a seat, which no seat has: whatever the connection identities are,
    the message reads [undefined] in both places, and no identity (a
    transport-generated name: twenty characters, none of them a space)
    occurs in it. *)
Theorem outcome_message_prints_undefined (activeGames activeGames' : Store)
    (gameRoomId : string) :
  determineGameOutcome gameRoomId activeGames = Some activeGames' ->
  exists (game' : Game) (o1 o2 : Outcome),
    objGet gameRoomId activeGames' = Some game'
    /\ gameOverMessage game'
       = "Round over! " +:+ "undefined" +:+ verdict o1
           +:+ "undefined" +:+ verdict o2
    /\ forall id : string,
         hasSpace id = false -> (10 <= String.length id)%nat ->
         occursIn id (gameOverMessage game') = false.
Proof.
  unfold determineGameOutcome, onGame. intros H.
  destruct (objGet gameRoomId activeGames) as [game|]; [|discriminate].
  simpl in H.
  destruct (Room.determineGameOutcome game) as [game'|] eqn:Hrun;
    [|discriminate].
  injection H as <-. unfold Room.determineGameOutcome in Hrun.
  destruct (players game !! 0%nat) as [id1|] eqn:H1; [|discriminate].
  simpl in Hrun.
  destruct (seats game !! id1) as [player1|] eqn:Hs1; [|discriminate].
  simpl in Hrun.
  destruct (players game !! 1%nat) as [id2|] eqn:H2; [|discriminate].
  simpl in Hrun.
  destruct (seats game !! id2) as [player2|] eqn:Hs2; [|discriminate].
  simpl in Hrun.
  destruct (player_outcome_total player1 (dealer game)) as [o1 Ho1].
  destruct (player_outcome_total player2 (dealer game)) as [o2 Ho2].
  rewrite (judge_outcome _ _ o1 _ _ Ho1), (judge_outcome _ _ o2 _ _ Ho2)
    in Hrun.
  rewrite append_assoc in Hrun. injection Hrun as <-.
  exists (setOutcome
            ("Round over! " +:+ "undefined" +:+ verdict o1
               +:+ "undefined" +:+ verdict o2)
            match o2 with
            | Wins => "win"
            | Loses => "lose"
            | _ => match o1 with
                   | Wins => "win"
                   | Loses => "lose"
                   | _ => "info"
                   end
            end game), o1, o2.
  split; [apply objGet_objSet|]. split; [reflexivity|].
  intros id Hspace Hlen. cbn [gameOverMessage setOutcome].
  destruct (occursIn id _) eqn:Hocc; [|reflexivity].
  pose proof (occursIn_longestWord id _ Hocc Hspace) as Hle.
  rewrite outcome_message_words in Hle. lia.
Qed.

Lemma outcome_message_prints_undefined_witness :
  exists game',
    determineGameOutcome "game-a-b" [("game-a-b", showdown)]
      = Some [("game-a-b", game')]
    /\ occursIn "abcdefghijklmnopqrst" (gameOverMessage game') = false.
Proof.
  destruct (outcome_message_prints_undefined [("game-a-b", showdown)]
              [("game-a-b",
                setOutcome "Round over! undefined wins! undefined busted. "
                  "win" showdown)]
              "game-a-b" eq_refl)
    as (game' & o1 & o2 & Hget & _ & Hnone).
  exists game'. injection Hget as <-. split; [reflexivity|].
  apply Hnone; [reflexivity|simpl; lia].
Defined.

(** ** The deck *)

Lemma createDeck_NoDup : NoDup createDeck.
Proof. apply (bool_decide_unpack _). vm_compute. exact I. Qed.

Lemma createDeck_length : length createDeck = 52%nat.
Proof. reflexivity. Qed.

Lemma createDeck_complete (c : Card) : c ∈ createDeck.
Proof.
  destruct c as [r s]. apply (bool_decide_unpack _).
  destruct r, s; vm_compute; exact I.
Qed.

(** Overwriting one position with a value and putting the value that was
    there in front is a rearrangement. *)
Lemma insert_Permutation (l : list Card) : forall (j : nat) (x y : Card),
  l !! j = Some y -> y :: <[j := x]> l ≡ₚ x :: l.
Proof.
  induction l as [|a l IH]; intros j x y Hj; [discriminate|].
  destruct j as [|j]; simpl in *.
  - injection Hj as ->. apply perm_swap.
  - transitivity (a :: y :: <[j := x]> l); [apply perm_swap|].
    transitivity (a :: x :: l); [|apply perm_swap].
    apply perm_skip. now apply IH.
Qed.

Lemma swap_Permutation (deck : list Card) : forall i j : nat,
  swap deck i j ≡ₚ deck.
Proof.
  unfold swap. induction deck as [|a deck IH]; intros i j; [now destruct i|].
  destruct i as [|i], j as [|j]; simpl.
  - reflexivity.
  - destruct (deck !! j) as [y|] eqn:Hj; [|reflexivity].
    simpl. now apply insert_Permutation.
  - destruct (deck !! i) as [x|] eqn:Hi; [|reflexivity].
    simpl. now apply insert_Permutation.
  - specialize (IH i j).
    destruct (deck !! i) as [x|]; [|reflexivity].
    destruct (deck !! j) as [y|]; [|reflexivity].
    simpl. now rewrite IH.
Qed.

Lemma shuffleFrom_Permutation rnd i : forall deck,
  shuffleFrom rnd i deck ≡ₚ deck.
Proof.
  induction i as [|i IH]; intros deck; [reflexivity|].
  simpl. rewrite IH. apply swap_Permutation.
Qed.

Lemma shuffleDeck_Permutation rnd deck : shuffleDeck rnd deck ≡ₚ deck.
Proof. apply shuffleFrom_Permutation. Qed.

Lemma pop_snoc d c : pop (d ++ [c]) = Some (c, d).
Proof. unfold pop. rewrite rev_unit, rev_involutive. reflexivity. Qed.

Lemma pop_Some (d : list Card) c d' : pop d = Some (c, d') -> d = d' ++ [c].
Proof.
  unfold pop. destruct (rev d) as [|x r] eqn:Hr; [discriminate|].
  intros [= -> <-]. rewrite <- (rev_involutive d), Hr. reflexivity.
Qed.

Lemma pop_nonempty (d : list Card) : d <> [] -> exists c d', d = d' ++ [c].
Proof.
  intros Hd. destruct (rev d) as [|x r] eqn:Hr.
  - apply (f_equal (@rev Card)) in Hr. rewrite rev_involutive in Hr. contradiction.
  - exists x, (rev r). rewrite <- (rev_involutive d), Hr. reflexivity.
Qed.

(** ** Weights *)

Lemma weight_le c : weight c <= 10.
Proof. destruct c as [[] s]; cbv; discriminate. Qed.

Lemma handWeight_cons c h : handWeight (c :: h) = weight c + handWeight h.
Proof. reflexivity. Qed.

Lemma handWeight_app h1 h2 :
  handWeight (h1 ++ h2) = handWeight h1 + handWeight h2.
Proof.
  induction h1 as [|c h1 IH]; [reflexivity|].
  rewrite <- app_comm_cons, !handWeight_cons, IH. lia.
Qed.

Lemma handWeight_Permutation h1 h2 :
  h1 ≡ₚ h2 -> handWeight h1 = handWeight h2.
Proof.
  induction 1; rewrite ?handWeight_cons; lia.
Qed.

Lemma handWeight_createDeck : handWeight createDeck = 300.
Proof. reflexivity. Qed.

Lemma handWeight_minTotal h :
  handWeight h = minTotal h - 10 * Z.of_nat (countAces h).
Proof.
  induction h as [|c h IH]; [reflexivity|].
  rewrite handWeight_cons, minTotal_cons, countAces_cons, IH. unfold weight.
  destruct (isAce c) eqn:Hace; [rewrite (hardValue_ace c Hace)|]; lia.
Qed.

Lemma adjustAces_ge n : forall t, t - 10 * Z.of_nat n <= adjustAces n t.
Proof.
  induction n as [|n IH]; intros t; simpl adjustAces; [lia|].
  destruct (Z.gtb_spec t 21); [|lia].
  specialize (IH (t - 10)). lia.
Qed.

(** No total is below the weight of the hand. *)
Lemma calculateHandTotal_weight h : handWeight h <= calculateHandTotal h.
Proof.
  rewrite handWeight_minTotal. unfold calculateHandTotal.
  destruct (foldHand_spec h 0 O ltac:(lia)) as (k & -> & _).
  simpl (0 + _)%nat.
  pose proof (adjustAces_ge (countAces h)
                (0 + minTotal h + 10 * Z.of_nat k)). lia.
Qed.

(** Two cards never bust. *)
Lemma calculateHandTotal_pair a b : calculateHandTotal [a; b] <= 21.
Proof.
  apply calculateHandTotal_minTotal_le.
  pose proof (hardValue_bounds a). pose proof (hardValue_bounds b).
  unfold minTotal. simpl. lia.
Qed.

Lemma handWeight_pair a b : handWeight [a; b] <= 20.
Proof.
  pose proof (weight_le a). pose proof (weight_le b).
  unfold handWeight. simpl. lia.
Qed.

(** ** The initial deal *)

Lemma initializeGame_seated rnd id1 id2 :
  id1 <> id2 -> connectionId id1 -> connectionId id2 ->
  exists g p1 p2,
    initializeGame rnd id1 id2 = Some g /\ seated g id1 id2 p1 p2.
Proof.
  intros Hne Hid1 Hid2.
  pose proof (shuffleDeck_Permutation rnd createDeck) as Hperm.
  pose proof (Permutation_length Hperm) as Hlen.
  rewrite createDeck_length, <- length_rev in Hlen.
  destruct (rev (shuffleDeck rnd createDeck))
    as [|c1 [|c2 [|c3 [|c4 [|c5 [|c6 r]]]]]] eqn:Hrev; try discriminate.
  clear Hlen. apply (f_equal (@rev Card)) in Hrev.
  rewrite rev_involutive in Hrev. simpl in Hrev.
  unfold initializeGame. cbv zeta. rewrite Hrev.
  rewrite pop_snoc. cbn [mbind option_bind]. rewrite pop_snoc.
  cbn [mbind option_bind]. rewrite pop_snoc. cbn [mbind option_bind].
  rewrite pop_snoc. cbn [mbind option_bind]. rewrite pop_snoc.
  cbn [mbind option_bind]. rewrite pop_snoc. cbn [mbind option_bind].
  eexists _, (Player.mk [c1; c4] (calculateHandTotal [c1; c4])
                false false 1000),
    (Player.mk [c2; c5] (calculateHandTotal [c2; c5]) false false 1000).
  split; [reflexivity|].
  split; cbn [players turnOrder seats dealer deck turnIndex currentTurn
              gameOver Dealer.hand Player.hand Player.score Player.isBusted];
    try assumption; try reflexivity.
  - rewrite lookup_insert_ne by congruence. apply lookup_insert_eq.
  - apply lookup_insert_eq.
  - rewrite <- Hperm, Hrev. solve_Permutation.
  - intros _. apply calculateHandTotal_pair.
  - intros _. apply calculateHandTotal_pair.
  - pose proof (handWeight_pair c1 c4). lia.
  - pose proof (handWeight_pair c2 c5). lia.
  - left. repeat split. apply handWeight_pair.
Qed.

(** ** The dealer's turn *)

Lemma dealerHits_drawn u : forall h m u' h' m',
  Room.dealerHits u h m = Some (u', h', m') ->
  exists drawn, u = drawn ++ u' /\ h' = h ++ drawn.
Proof.
  induction u as [|c u IH]; intros h m u' h' m'; simpl.
  - destruct (calculateHandTotal h <? 17); [discriminate|].
    intros [= <- <- <-]. exists []. split; [reflexivity|now rewrite app_nil_r].
  - destruct (calculateHandTotal h <? 17).
    + intros H. destruct (IH _ _ _ _ _ H) as (drawn & -> & ->).
      exists (c :: drawn). split; [reflexivity|now rewrite <- app_assoc].
    + intros [= <- <- <-]. exists [].
      split; [reflexivity|now rewrite app_nil_r].
Qed.

(** The dealer cannot run out of cards while the cards left and the
    cards held weigh more than 16 together. *)
Lemma dealerHits_returns u : forall h m,
  16 < handWeight h + handWeight u ->
  exists r, Room.dealerHits u h m = Some r.
Proof.
  induction u as [|c u IH]; intros h m Hw; simpl.
  - destruct (Z.ltb_spec (calculateHandTotal h) 17) as [Hlt|]; [|eauto].
    pose proof (calculateHandTotal_weight h). change (handWeight []) with 0 in Hw.
    lia.
  - destruct (calculateHandTotal h <? 17); [|eauto].
    apply IH. rewrite handWeight_app, handWeight_cons in *.
    change (handWeight []) with 0. lia.
Qed.

Lemma handWeight_rev h : handWeight (rev h) = handWeight h.
Proof. apply handWeight_Permutation. symmetry. apply Permutation_rev. Qed.

(** The dealer's turn followed by the judgement, for a game with its two
    players seated. *)
Lemma Room_dealer_resolution g id1 id2 p1 p2 :
  players g = [id1; id2] ->
  seats g !! id1 = Some p1 -> seats g !! id2 = Some p2 ->
  16 < handWeight (Dealer.hand (dealer g)) + handWeight (deck g) ->
  exists g' drawn,
    Room.handleDealerTurn g ≫= Room.determineGameOutcome = Some g'
    /\ gameOver g' = true /\ seats g' = seats g /\ players g' = players g
    /\ turnOrder g' = turnOrder g /\ turnIndex g' = turnIndex g
    /\ currentTurn g' = currentTurn g
    /\ deck g = deck g' ++ rev drawn
    /\ Dealer.hand (dealer g') = Dealer.hand (dealer g) ++ drawn.
Proof.
  intros Hp Hs1 Hs2 Hw. unfold Room.handleDealerTurn.
  rewrite <- (handWeight_rev (deck g)) in Hw.
  destruct (dealerHits_returns (rev (deck g)) (Dealer.hand (dealer g))
              "Dealer's turn..." Hw) as [[[u' h'] m'] Hrun].
  rewrite Hrun. cbn [mbind option_bind].
  destruct (dealerHits_drawn _ _ _ _ _ _ Hrun) as (drawn & Hu & ->).
  apply (f_equal (@rev Card)) in Hu. rewrite rev_involutive, rev_app_distr in Hu.
  exists
    (let d := if calculateHandTotal (Dealer.hand (dealer g) ++ drawn) >? 21
              then Dealer.mk (Dealer.hand (dealer g) ++ drawn)
                     (calculateHandTotal (Dealer.hand (dealer g) ++ drawn)) true
              else Dealer.mk (Dealer.hand (dealer g) ++ drawn)
                     (calculateHandTotal (Dealer.hand (dealer g) ++ drawn))
                     (Dealer.isBusted (dealer g)) in
     let '(message, type) := Room.judge p1 d "Round over! " "info" in
     let '(message, type) := Room.judge p2 d message type in
     setOutcome message type
       (setMessage
          (m' +:+ (if calculateHandTotal (Dealer.hand (dealer g) ++ drawn) >? 21
                   then " Dealer busts!" else " Dealer stands."))
          (setDealer d (setDeck (rev u') g)))),
    drawn.
  cbv zeta.
  destruct (calculateHandTotal (Dealer.hand (dealer g) ++ drawn) >? 21);
    cbn [mbind option_bind]; unfold Room.determineGameOutcome;
    cbn [players seats dealer setMessage setDealer setDeck];
    rewrite Hp; cbn [lookup list_lookup mbind option_bind];
    rewrite Hs1, Hs2; cbn [mbind option_bind];
    destruct (Room.judge p1 _ _ _) as [msg1 ty1];
    destruct (Room.judge p2 _ _ _) as [msg2 ty2];
    cbn; repeat split; try reflexivity; try exact Hu; try exact Hp.
Qed.

(** ** Advancing the turn *)

Lemma Room_advanceTurn_to_second g id1 id2 p2 :
  turnOrder g = [id1; id2; "dealer"] -> turnIndex g = 0%nat ->
  id2 <> "dealer" -> seats g !! id2 = Some p2 -> exhausted p2 = false ->
  Room.advanceTurn g
  = Some (setMessage ("It's " +:+ id2 +:+ "'s turn.") (setTurn 1 id2 g)).
Proof.
  intros Hto Hti Hid Hs Hex. unfold Room.advanceTurn.
  rewrite Hto, Hti. cbn [length]. change ((0 + 1) mod 3)%nat with 1%nat.
  cbn [Room.skipExhausted]. rewrite Hto. cbn [lookup list_lookup mbind option_bind].
  apply String.eqb_neq in Hid. rewrite Hid, Hs. cbn [mbind option_bind].
  unfold exhausted in Hex. rewrite Hex. cbn [mbind option_bind].
  cbn [currentTurn setTurn]. rewrite Hid. reflexivity.
Qed.

Lemma Room_advanceTurn_to_dealer g id1 id2 :
  turnOrder g = [id1; id2; "dealer"] -> turnIndex g = 1%nat ->
  Room.advanceTurn g
  = Room.handleDealerTurn (setTurn 2 "dealer" g)
      ≫= Room.determineGameOutcome.
Proof.
  intros Hto Hti. unfold Room.advanceTurn.
  rewrite Hto, Hti. cbn [length]. change ((1 + 1) mod 3)%nat with 2%nat.
  cbn [Room.skipExhausted]. rewrite Hto. reflexivity.
Qed.

(** ** One action on a served game *)

Lemma connectionId_not_dealer id : connectionId id -> id <> "dealer".
Proof.
  intros [_ H] ->. apply H. unfold reservedNames.
  apply list_elem_of_In. simpl. tauto.
Qed.

Lemma seated_total_weight g id1 id2 p1 p2 :
  seated g id1 id2 p1 p2 ->
  handWeight (Dealer.hand (dealer g)) + handWeight (Player.hand p1)
  + handWeight (Player.hand p2) + handWeight (deck g) = 300.
Proof.
  intros H. rewrite <- handWeight_createDeck.
  rewrite <- (handWeight_Permutation _ _ (seated_cards _ _ _ _ _ H)).
  rewrite !handWeight_app. lia.
Qed.

Lemma seated_live_weight1 g id1 id2 p1 p2 :
  seated g id1 id2 p1 p2 -> exhausted p1 = false ->
  handWeight (Player.hand p1) <= 21.
Proof.
  intros H Hex. apply orb_false_iff in Hex as [Hb _].
  pose proof (seated_bust1 _ _ _ _ _ H Hb) as Hle.
  rewrite (seated_score1 _ _ _ _ _ H) in Hle.
  pose proof (calculateHandTotal_weight (Player.hand p1)). lia.
Qed.

Lemma seated_live_weight2 g id1 id2 p1 p2 :
  seated g id1 id2 p1 p2 -> exhausted p2 = false ->
  handWeight (Player.hand p2) <= 21.
Proof.
  intros H Hex. apply orb_false_iff in Hex as [Hb _].
  pose proof (seated_bust2 _ _ _ _ _ H Hb) as Hle.
  rewrite (seated_score2 _ _ _ _ _ H) in Hle.
  pose proof (calculateHandTotal_weight (Player.hand p2)). lia.
Qed.

(** While a player is to act the deck is not empty. *)
Lemma seated_deck_nonempty g id1 id2 p1 p2 :
  seated g id1 id2 p1 p2 -> gameOver g = false ->
  exists c d, deck g = d ++ [c].
Proof.
  intros H Hover. apply pop_nonempty. intros Hnil.
  pose proof (seated_total_weight _ _ _ _ _ H) as Hsum.
  pose proof (seated_weight1 _ _ _ _ _ H).
  pose proof (seated_weight2 _ _ _ _ _ H).
  rewrite Hnil in Hsum. change (handWeight []) with 0 in Hsum.
  destruct (seated_phase _ _ _ _ _ H)
    as [(_ & _ & _ & _ & _ & Hd)|[(_ & _ & _ & _ & _ & Hd)|(_ & _ & Ho & _)]];
    [lia|lia|congruence].
Qed.

Ltac seated_fields H :=
  pose proof (seated_distinct _ _ _ _ _ H) as Hdistinct;
  pose proof (seated_id1 _ _ _ _ _ H) as Hid1;
  pose proof (seated_id2 _ _ _ _ _ H) as Hid2;
  pose proof (seated_players _ _ _ _ _ H) as Hplayers;
  pose proof (seated_turnOrder _ _ _ _ _ H) as HturnOrder;
  pose proof (seated_seat1 _ _ _ _ _ H) as Hseat1;
  pose proof (seated_seat2 _ _ _ _ _ H) as Hseat2;
  pose proof (seated_cards _ _ _ _ _ H) as Hcards;
  pose proof (seated_score1 _ _ _ _ _ H) as Hscore1;
  pose proof (seated_score2 _ _ _ _ _ H) as Hscore2;
  pose proof (seated_bust1 _ _ _ _ _ H) as Hbust1;
  pose proof (seated_bust2 _ _ _ _ _ H) as Hbust2;
  pose proof (seated_weight1 _ _ _ _ _ H) as Hweight1;
  pose proof (seated_weight2 _ _ _ _ _ H) as Hweight2;
  pose proof (seated_total_weight _ _ _ _ _ H) as Htotal.

Ltac seat_lookup :=
  first [ apply lookup_insert_eq
        | rewrite lookup_insert_ne by congruence; assumption ].

(** A hit by the first player while it is that player's turn. *)
Lemma Room_handleHit_first g id1 id2 p1 p2 :
  seated g id1 id2 p1 p2 -> turnIndex g = 0%nat -> currentTurn g = id1 ->
  exhausted p1 = false -> exhausted p2 = false ->
  handWeight (Dealer.hand (dealer g)) <= 20 -> gameOver g = false ->
  exists c d g',
    deck g = d ++ [c]
    /\ Room.handleHit id1 g = Some g'
    /\ stepped (negb (calculateHandTotal (Player.hand p1 ++ [c]) >? 21))
         g g' id1 id2.
Proof.
  intros H Hti Hct Hex1 Hex2 Hdw Hover.
  destruct (seated_deck_nonempty _ _ _ _ _ H Hover) as (c & d & Hdeck).
  pose proof (seated_live_weight1 _ _ _ _ _ H Hex1) as Hlive.
  seated_fields H.
  pose proof (connectionId_not_dealer _ Hid2) as Hnd2.
  pose proof Hex1 as Hflags. apply orb_false_iff in Hflags as [Hb1 Hst1].
  exists c, d. unfold Room.handleHit.
  rewrite Hct, String.eqb_refl. cbn [negb]. rewrite Hseat1.
  cbn [mbind option_bind]. rewrite Hst1, Hb1. cbn [orb].
  rewrite Hdeck, pop_snoc. cbn [mbind option_bind].
  pose proof (weight_le c) as Hwc.
  destruct (Z.gtb_spec (calculateHandTotal (Player.hand p1 ++ [c])) 21)
    as [Hgt|Hle]; cbn [negb].
  - match goal with
    | |- context [Room.advanceTurn ?gb] =>
        assert (Hs2' : seats gb !! id2 = Some p2) by (cbn; seat_lookup);
        rewrite (Room_advanceTurn_to_second gb id1 id2 p2
                   HturnOrder Hti Hnd2 Hs2' Hex2)
    end.
    eexists. split; [reflexivity|]. split; [reflexivity|]. split; [|split].
    + exists (Player.mk (Player.hand p1 ++ [c])
                (calculateHandTotal (Player.hand p1 ++ [c])) false true
                (Player.chips p1)). exists p2.
      split; cbn; try assumption; try reflexivity; try seat_lookup.
      * rewrite <- Hcards, Hdeck. solve_Permutation.
      * discriminate.
      * rewrite handWeight_app. change (handWeight [c]) with (weight c + 0). lia.
      * right. left. repeat split; assumption.
    + exists [c]. cbn. exact Hdeck.
    + cbn. now rewrite Hti.
  - eexists. split; [reflexivity|]. split; [reflexivity|]. split; [|split].
    + exists (Player.mk (Player.hand p1 ++ [c])
                (calculateHandTotal (Player.hand p1 ++ [c])) false false
                (Player.chips p1)). exists p2.
      split; cbn; try assumption; try reflexivity; try seat_lookup.
      * rewrite <- Hcards, Hdeck. solve_Permutation.
      * intros _. exact Hle.
      * rewrite handWeight_app. change (handWeight [c]) with (weight c + 0). lia.
      * left. repeat split; assumption.
    + exists [c]. cbn. exact Hdeck.
    + cbn. split; reflexivity.
Qed.

(** A hit by the second player while it is that player's turn. *)
Lemma Room_handleHit_second g id1 id2 p1 p2 :
  seated g id1 id2 p1 p2 -> turnIndex g = 1%nat -> currentTurn g = id2 ->
  exhausted p1 = true -> exhausted p2 = false ->
  handWeight (Dealer.hand (dealer g)) <= 20 -> gameOver g = false ->
  exists c d g',
    deck g = d ++ [c]
    /\ Room.handleHit id2 g = Some g'
    /\ stepped (negb (calculateHandTotal (Player.hand p2 ++ [c]) >? 21))
         g g' id1 id2.
Proof.
  intros H Hti Hct Hex1 Hex2 Hdw Hover.
  destruct (seated_deck_nonempty _ _ _ _ _ H Hover) as (c & d & Hdeck).
  pose proof (seated_live_weight2 _ _ _ _ _ H Hex2) as Hlive.
  seated_fields H.
  pose proof Hex2 as Hflags. apply orb_false_iff in Hflags as [Hb2 Hst2].
  exists c, d. unfold Room.handleHit.
  rewrite Hct, String.eqb_refl. cbn [negb]. rewrite Hseat2.
  cbn [mbind option_bind]. rewrite Hst2, Hb2. cbn [orb].
  rewrite Hdeck, pop_snoc. cbn [mbind option_bind].
  pose proof (weight_le c) as Hwc.
  rewrite Hdeck, handWeight_app in Htotal.
  change (handWeight [c]) with (weight c + 0) in Htotal.
  destruct (Z.gtb_spec (calculateHandTotal (Player.hand p2 ++ [c])) 21)
    as [Hgt|Hle]; cbn [negb].
  - match goal with
    | |- context [Room.advanceTurn ?gb] =>
        rewrite (Room_advanceTurn_to_dealer gb id1 id2 HturnOrder Hti);
        destruct (Room_dealer_resolution (setTurn 2 "dealer" gb) id1 id2 p1
                    (Player.mk (Player.hand p2 ++ [c])
                       (calculateHandTotal (Player.hand p2 ++ [c])) false true
                       (Player.chips p2)))
          as (g' & drawn & Hrun & Hover' & Hseats' & Hplayers' & Hto' & Hti'
              & Hct' & Hdeck' & Hdealer');
        [exact Hplayers|cbn; seat_lookup|cbn; seat_lookup
        |cbn [dealer deck setTurn setMessage setSeat setDeck]; lia|]
    end.
    exists g'. split; [reflexivity|]. split; [exact Hrun|].
    cbn in Hseats', Hplayers', Hto', Hti', Hct', Hdeck', Hdealer'.
    split; [|split].
    + exists p1, (Player.mk (Player.hand p2 ++ [c])
                    (calculateHandTotal (Player.hand p2 ++ [c])) false true
                    (Player.chips p2)).
      split; rewrite ?Hseats', ?Hplayers', ?Hto', ?Hdealer'; cbn;
        try assumption; try reflexivity; try seat_lookup.
      * rewrite <- Hcards, Hdeck, Hdeck', <- (Permutation_rev drawn).
        solve_Permutation.
      * discriminate.
      * rewrite handWeight_app. change (handWeight [c]) with (weight c + 0). lia.
      * right. right. repeat split; assumption.
    + exists (rev drawn ++ [c]). rewrite Hdeck, Hdeck', <- app_assoc.
      reflexivity.
    + rewrite Hti', Hti. reflexivity.
  - eexists. split; [reflexivity|]. split; [reflexivity|]. split; [|split].
    + exists p1, (Player.mk (Player.hand p2 ++ [c])
                    (calculateHandTotal (Player.hand p2 ++ [c])) false false
                    (Player.chips p2)).
      split; cbn; try assumption; try reflexivity; try seat_lookup.
      * rewrite <- Hcards, Hdeck. solve_Permutation.
      * intros _. exact Hle.
      * rewrite handWeight_app. change (handWeight [c]) with (weight c + 0). lia.
      * right. left. repeat split; assumption.
    + exists [c]. cbn. exact Hdeck.
    + cbn. split; reflexivity.
Qed.

(** A stand by the first player while it is that player's turn. *)
Lemma Room_handleStand_first g id1 id2 p1 p2 :
  seated g id1 id2 p1 p2 -> turnIndex g = 0%nat -> currentTurn g = id1 ->
  exhausted p1 = false -> exhausted p2 = false ->
  handWeight (Dealer.hand (dealer g)) <= 20 -> gameOver g = false ->
  exists g', Room.handleStand id1 g = Some g' /\ stepped false g g' id1 id2.
Proof.
  intros H Hti Hct Hex1 Hex2 Hdw Hover. seated_fields H.
  pose proof (connectionId_not_dealer _ Hid2) as Hnd2.
  pose proof Hex1 as Hflags. apply orb_false_iff in Hflags as [Hb1 Hst1].
  unfold Room.handleStand.
  rewrite Hct, String.eqb_refl. cbn [negb]. rewrite Hseat1.
  cbn [mbind option_bind]. rewrite Hst1, Hb1. cbn [orb].
  match goal with
  | |- context [Room.advanceTurn ?gb] =>
      assert (Hs2' : seats gb !! id2 = Some p2) by (cbn; seat_lookup);
      rewrite (Room_advanceTurn_to_second gb id1 id2 p2
                 HturnOrder Hti Hnd2 Hs2' Hex2)
  end.
  eexists. split; [reflexivity|]. split; [|split].
  - exists (Player.mk (Player.hand p1) (Player.score p1) true false
              (Player.chips p1)), p2.
    split; cbn; try assumption; try reflexivity; try seat_lookup.
    + intros _. now apply Hbust1.
    + right. left. repeat split; assumption.
  - exists []. cbn. now rewrite app_nil_r.
  - cbn. now rewrite Hti.
Qed.

(** A stand by the second player while it is that player's turn. *)
Lemma Room_handleStand_second g id1 id2 p1 p2 :
  seated g id1 id2 p1 p2 -> turnIndex g = 1%nat -> currentTurn g = id2 ->
  exhausted p1 = true -> exhausted p2 = false ->
  handWeight (Dealer.hand (dealer g)) <= 20 -> gameOver g = false ->
  exists g', Room.handleStand id2 g = Some g' /\ stepped false g g' id1 id2.
Proof.
  intros H Hti Hct Hex1 Hex2 Hdw Hover.
  pose proof (seated_live_weight2 _ _ _ _ _ H Hex2) as Hlive.
  seated_fields H.
  pose proof Hex2 as Hflags. apply orb_false_iff in Hflags as [Hb2 Hst2].
  unfold Room.handleStand.
  rewrite Hct, String.eqb_refl. cbn [negb]. rewrite Hseat2.
  cbn [mbind option_bind]. rewrite Hst2, Hb2. cbn [orb].
  match goal with
  | |- context [Room.advanceTurn ?gb] =>
      rewrite (Room_advanceTurn_to_dealer gb id1 id2 HturnOrder Hti);
      destruct (Room_dealer_resolution (setTurn 2 "dealer" gb) id1 id2 p1
                  (Player.mk (Player.hand p2) (Player.score p2) true false
                     (Player.chips p2)))
        as (g' & drawn & Hrun & Hover' & Hseats' & Hplayers' & Hto' & Hti'
            & Hct' & Hdeck' & Hdealer');
      [exact Hplayers|cbn; seat_lookup|cbn; seat_lookup
        |cbn [dealer deck setTurn setMessage setSeat setDeck]; lia|]
  end.
  exists g'. split; [exact Hrun|]. cbn in Hseats', Hplayers', Hto', Hti',
    Hct', Hdeck', Hdealer'. split; [|split].
  - exists p1, (Player.mk (Player.hand p2) (Player.score p2) true false
                  (Player.chips p2)).
    split; rewrite ?Hseats', ?Hplayers', ?Hto', ?Hdealer'; cbn;
      try assumption; try reflexivity; try seat_lookup.
    + rewrite <- Hcards, Hdeck', <- (Permutation_rev drawn).
      solve_Permutation.
    + intros _. now apply Hbust2.
    + right. right. repeat split; assumption.
  - exists (rev drawn). exact Hdeck'.
  - rewrite Hti', Hti. reflexivity.
Qed.

(** An action by a connection on a served game: it returns, the game is
    again a served game, and the deck has only lost cards from its end. *)
Lemma Room_action_served g pid :
  wf_game g -> pid <> "dealer" ->
  (exists g', Room.handleHit pid g = Some g' /\ wf_game g'
              /\ exists drawn, deck g = deck g' ++ drawn)
  /\ (exists g', Room.handleStand pid g = Some g' /\ wf_game g'
                 /\ exists drawn, deck g = deck g' ++ drawn).
Proof.
  intros (id1 & id2 & p1 & p2 & H) Hpid.
  destruct (String.eqb_spec (currentTurn g) pid) as [Hct|Hne].
  2: { destruct (Room_invalid_action g pid (or_introl Hne)) as [Hh Hs].
       split; exists g; (split; [assumption|]);
         (split; [now exists id1, id2, p1, p2|]);
         exists []; now rewrite app_nil_r. }
  destruct (seated_phase _ _ _ _ _ H)
    as [(Hti & Hc & Ho & Hex1 & Hex2 & Hdw)
       |[(Hti & Hc & Ho & Hex1 & Hex2 & Hdw)|(_ & Hc & _)]];
    [| |congruence]; rewrite Hc in Hct; subst pid.
  - destruct (Room_handleHit_first _ _ _ _ _ H Hti Hc Hex1 Hex2 Hdw Ho)
      as (c & d & g' & _ & Hrun & (p1' & p2' & Hs') & Hdrawn & _).
    destruct (Room_handleStand_first _ _ _ _ _ H Hti Hc Hex1 Hex2 Hdw Ho)
      as (g'' & Hrun' & (p1'' & p2'' & Hs'') & Hdrawn' & _).
    split; [exists g'|exists g'']; (split; [assumption|]);
      (split; [|assumption]); eexists _, _, _, _; eassumption.
  - destruct (Room_handleHit_second _ _ _ _ _ H Hti Hc Hex1 Hex2 Hdw Ho)
      as (c & d & g' & _ & Hrun & (p1' & p2' & Hs') & Hdrawn & _).
    destruct (Room_handleStand_second _ _ _ _ _ H Hti Hc Hex1 Hex2 Hdw Ho)
      as (g'' & Hrun' & (p1'' & p2'' & Hs'') & Hdrawn' & _).
    split; [exists g'|exists g'']; (split; [assumption|]);
      (split; [|assumption]); eexists _, _, _, _; eassumption.
Qed.

(** ** The server as a whole *)

Lemma objGet_elem k g (o : Store) : objGet k o = Some g -> (k, g) ∈ o.
Proof.
  induction o as [|[k' g'] o IH]; simpl; [discriminate|].
  destruct (String.eqb_spec k' k) as [->|Hne].
  - intros [= ->]. apply list_elem_of_here.
  - intros H. apply list_elem_of_further. now apply IH.
Qed.

Lemma objSet_keys k g (o : Store) x :
  x ∈ map fst (objSet k g o) -> x = k \/ x ∈ map fst o.
Proof.
  induction o as [|[k' g'] o IH]; simpl.
  - intros Hx. left. now apply list_elem_of_singleton in Hx.
  - destruct (String.eqb_spec k' k) as [->|Hne]; simpl.
    + intros Hx. now right.
    + intros Hx. apply elem_of_cons in Hx as [->|Hx].
      * right. apply list_elem_of_here.
      * destruct (IH Hx) as [->|Hin]; [now left|].
        right. now apply list_elem_of_further.
Qed.

Lemma objSet_NoDup k g (o : Store) :
  NoDup (map fst o) -> NoDup (map fst (objSet k g o)).
Proof.
  induction o as [|[k' g'] o IH]; simpl; intros Hnd.
  - apply NoDup_singleton.
  - apply NoDup_cons in Hnd as [Hk' Hnd].
    destruct (String.eqb_spec k' k) as [->|Hne]; simpl.
    + apply NoDup_cons. split; assumption.
    + apply NoDup_cons. split; [|now apply IH].
      intros Hin. apply objSet_keys in Hin as [->|Hin]; contradiction.
Qed.

Lemma objSet_Forall (P : string * Game -> Prop) k g (o : Store) :
  P (k, g) -> Forall P o -> Forall P (objSet k g o).
Proof.
  intros Hg. induction 1 as [|[k' g'] o Hx Ho IH]; simpl.
  - now repeat constructor.
  - destruct (String.eqb k' k); constructor; assumption.
Qed.

Lemma objDelete_Forall (P : string * Game -> Prop) k (o : Store) :
  Forall P o -> Forall P (objDelete k o).
Proof.
  induction 1 as [|[k' g'] o Hx Ho IH]; simpl; [constructor|].
  destruct (String.eqb k' k); [assumption|now constructor].
Qed.

Lemma objDelete_keys k (o : Store) x :
  x ∈ map fst (objDelete k o) -> x ∈ map fst o.
Proof.
  induction o as [|[k' g'] o IH]; simpl; [trivial|].
  destruct (String.eqb k' k); simpl.
  - intros Hx. apply list_elem_of_further. now apply IH.
  - intros Hx. apply elem_of_cons in Hx as [->|Hx];
      [apply list_elem_of_here|apply list_elem_of_further; now apply IH].
Qed.

Lemma objDelete_NoDup k (o : Store) :
  NoDup (map fst o) -> NoDup (map fst (objDelete k o)).
Proof.
  induction o as [|[k' g'] o IH]; simpl; intros Hnd; [constructor|].
  apply NoDup_cons in Hnd as [Hk' Hnd].
  destruct (String.eqb k' k); simpl; [now apply IH|].
  apply NoDup_cons. split; [|now apply IH].
  intros Hin. apply objDelete_keys in Hin. contradiction.
Qed.

Lemma removeFirst_Forall (P : string -> Prop) sid q :
  Forall P q -> Forall P (removeFirst sid q).
Proof.
  induction 1 as [|x q Hx Hq IH]; simpl; [constructor|].
  destruct (String.eqb x sid); [assumption|now constructor].
Qed.

Lemma removeFirst_length sid q : (length (removeFirst sid q) <= length q)%nat.
Proof.
  induction q as [|x q IH]; simpl; [lia|].
  destruct (String.eqb x sid); simpl; lia.
Qed.

Lemma wf_server_game s k g :
  wf_server s -> objGet k (activeGames s) = Some g -> wf_game g.
Proof.
  intros Hwf Hget. apply objGet_elem in Hget.
  pose proof (wf_games _ Hwf) as Hall. rewrite Forall_forall in Hall.
  apply (Hall (k, g)). assumption.
Qed.

Lemma onGame_served gameRoomId body (o o' : Store) :
  (forall g, wf_game g -> forall g', body g = Some g' -> wf_game g') ->
  NoDup (map fst o) -> Forall (fun rg => wf_game (snd rg)) o ->
  onGame gameRoomId body o = Some o' ->
  NoDup (map fst o') /\ Forall (fun rg => wf_game (snd rg)) o'.
Proof.
  intros Hbody Hnd Hall. unfold onGame.
  destruct (objGet gameRoomId o) as [g|] eqn:Hget; [|discriminate].
  cbn [mbind option_bind].
  destruct (body g) as [g'|] eqn:Hrun; [|discriminate].
  intros [= <-]. split; [now apply objSet_NoDup|].
  apply objSet_Forall; [|assumption]. cbn. apply (Hbody g); [|assumption].
  apply objGet_elem in Hget. rewrite Forall_forall in Hall.
  apply (Hall (gameRoomId, g)). assumption.
Qed.

Lemma otherThan_pair id1 id2 o :
  otherThan id1 [id1; id2] = Some o -> id1 <> id2 /\ o = id2.
Proof.
  unfold otherThan. simpl. rewrite String.eqb_refl. simpl.
  destruct (String.eqb_spec id2 id1) as [->|Hne]; simpl; [discriminate|].
  intros [= <-]. split; congruence.
Qed.

Lemma getGameStateForPlayer_opponent g playerId v :
  getGameStateForPlayer g playerId = Some v ->
  exists o, otherThan playerId (players g) = Some o.
Proof.
  unfold getGameStateForPlayer. intros H.
  destruct (seats g !! playerId); [|discriminate]. cbn in H.
  destruct (otherThan playerId (players g)) as [o|]; [|discriminate].
  now exists o.
Qed.

Lemma initializeGame_players rnd id1 id2 g :
  initializeGame rnd id1 id2 = Some g -> players g = [id1; id2].
Proof.
  unfold initializeGame. cbv zeta.
  repeat (destruct (pop _) as [[? ?]|]; cbn [mbind option_bind];
          [|discriminate]).
  intros [= <-]. reflexivity.
Qed.

Lemma requestMatch_served rnd sid s s' events :
  wf_server s -> connectionId sid ->
  requestMatch rnd sid s = Some (s', events) -> wf_server s'.
Proof.
  intros [Hq Hlen Hnd Hall] Hsid. unfold requestMatch.
  destruct (matchmakingQueue s) as [|id1 [|? ?]] eqn:Hqueue;
    [| |simpl in Hlen; lia]; cbn [app].
  - intros [= <- <-]. split; cbn [matchmakingQueue activeGames length];
      try assumption; [|lia].
    constructor; [assumption|constructor].
  - destruct (initializeGame rnd id1 sid) as [g|] eqn:Hinit;
      cbn [mbind option_bind]; [|discriminate].
    destruct (getGameStateForPlayer g id1) as [v1|] eqn:Hv1;
      cbn [mbind option_bind]; [|discriminate].
    destruct (getGameStateForPlayer g sid) as [v2|];
      cbn [mbind option_bind]; [|discriminate].
    intros [= <- <-].
    destruct (getGameStateForPlayer_opponent _ _ _ Hv1) as [o Ho].
    rewrite (initializeGame_players _ _ _ _ Hinit) in Ho.
    apply otherThan_pair in Ho as [Hne _].
    apply Forall_cons in Hq as [Hid1 _].
    destruct (initializeGame_seated rnd id1 sid Hne Hid1 Hsid)
      as (g0 & p1 & p2 & Hinit0 & Hseated).
    rewrite Hinit in Hinit0. injection Hinit0 as <-.
    split; cbn [matchmakingQueue activeGames length];
      [constructor|lia|now apply objSet_NoDup|].
    apply objSet_Forall; [|assumption]. now exists id1, sid, p1, p2.
Qed.

Ltac bind_cases H :=
  repeat match type of H with
         | context [mbind _ ?x] =>
             destruct x eqn:?; cbn [mbind option_bind] in H;
             [|discriminate H]
         | (if ?b then _ else _) = _ => destruct b
         end.

Lemma playerAction_games r sid action s s' events :
  playerActionOn r sid action s = Some (s', events) ->
  s' = s
  \/ exists room games',
       r = Some room /\ s' = mkServer (matchmakingQueue s) games'
       /\ (handleHit room sid (activeGames s) = Some games'
           \/ handleStand room sid (activeGames s) = Some games'
           \/ games' = activeGames s).
Proof.
  unfold playerActionOn. destruct r as [room|]; [|intros [= <- _]; now left].
  destruct (objGet room (activeGames s)) as [game|];
    [|intros [= <- _]; now left].
  destruct (negb (String.eqb (currentTurn game) sid));
    [intros [= <- _]; now left|].
  intros H. right. exists room.
  destruct (String.eqb action "hit").
  - destruct (handleHit room sid (activeGames s)) as [games'|] eqn:Hrun;
      cbn [mbind option_bind] in H; [|discriminate].
    exists games'. split; [reflexivity|]. split; [|now left].
    bind_cases H; now injection H as <- _.
  - destruct (String.eqb action "stand").
    + destruct (handleStand room sid (activeGames s)) as [games'|] eqn:Hrun;
        cbn [mbind option_bind] in H; [|discriminate].
      exists games'. split; [reflexivity|]. split; [|now right; left].
      bind_cases H; now injection H as <- _.
    + cbn [mbind option_bind] in H.
      exists (activeGames s). split; [reflexivity|]. split; [|now right; right].
      bind_cases H; now injection H as <- _.
Qed.

Lemma playerAction_served r sid action s s' events :
  wf_server s -> connectionId sid ->
  playerActionOn r sid action s = Some (s', events) -> wf_server s'.
Proof.
  intros Hwf Hsid H.
  destruct (playerAction_games _ _ _ _ _ _ H)
    as [->|(room & games' & -> & -> & Hrun)]; [assumption|].
  destruct Hwf as [Hq Hlen Hnd Hall].
  pose proof (connectionId_not_dealer _ Hsid) as Hnd'.
  destruct Hrun as [Hrun|[Hrun| ->]]; [| |now split].
  - destruct (onGame_served room (Room.handleHit sid) _ _
                (fun g Hg g' Hrun' =>
                   match proj1 (Room_action_served g sid Hg Hnd') with
                   | ex_intro _ g0 (conj Hrun0 (conj Hwf0 _)) =>
                       eq_ind g0 wf_game Hwf0 g'
                         (Some_inj _ _ (eq_trans (eq_sym Hrun0) Hrun'))
                   end) Hnd Hall Hrun) as [Hnd1 Hall1].
    now split.
  - destruct (onGame_served room (Room.handleStand sid) _ _
                (fun g Hg g' Hrun' =>
                   match proj2 (Room_action_served g sid Hg Hnd') with
                   | ex_intro _ g0 (conj Hrun0 (conj Hwf0 _)) =>
                       eq_ind g0 wf_game Hwf0 g'
                         (Some_inj _ _ (eq_trans (eq_sym Hrun0) Hrun'))
                   end) Hnd Hall Hrun) as [Hnd1 Hall1].
    now split.
Qed.

(** Every state the server reaches has a queue of at most one waiting
    connection and a store of served games under distinct room names. *)
Lemma reachable_served s : reachable s -> wf_server s.
Proof.
  induction 1 as [|s i s' events _ IH Hid Hrun].
  - split; simpl; [constructor|lia|constructor|constructor].
  - destruct i as [rnd sid|sid|sid|r sid action]; simpl in Hid, Hrun.
    + now apply (requestMatch_served rnd sid s s' events).
    + unfold cancelMatchmaking in Hrun. injection Hrun as <- _.
      destruct IH as [Hq Hlen Hnd Hall]. split; simpl; try assumption.
      * now apply removeFirst_Forall.
      * pose proof (removeFirst_length sid (matchmakingQueue s)). lia.
    + unfold disconnect in Hrun. destruct IH as [Hq Hlen Hnd Hall].
      pose proof (removeFirst_length sid (matchmakingQueue s)).
      destruct (firstGameOf sid (activeGames s)) as [[roomId game]|];
        injection Hrun as <- _; split; simpl; try assumption; try lia;
        try now apply removeFirst_Forall.
      * now apply objDelete_NoDup.
      * now apply objDelete_Forall.
    + now apply (playerAction_served r sid action s s' events).
Qed.

Lemma connectionId_a : connectionId "a".
Proof.
  split; [discriminate|]. intros H. apply list_elem_of_In in H.
  simpl in H. intuition discriminate.
Qed.

Lemma connectionId_b : connectionId "b".
Proof.
  split; [discriminate|]. intros H. apply list_elem_of_In in H.
  simpl in H. intuition discriminate.
Qed.

Lemma reachable_matched : reachable matched.
Proof.
  assert (H1 : handle (RequestMatch rnd0 "a") start
               = Some (mkServer ["a"] [], [])) by reflexivity.
  assert (H2 : exists events,
             handle (RequestMatch rnd0 "b") (mkServer ["a"] [])
             = Some (matched, events)).
  { vm_compute. eexists. reflexivity. }
  destruct H2 as [events H2].
  apply (reachable_handle _ (RequestMatch rnd0 "b") _ _
           (reachable_handle _ (RequestMatch rnd0 "a") _ _
              reachable_start connectionId_a H1)
           connectionId_b H2).
Qed.

(** ** Turn order *)

Lemma stepped_turnAdvanced g g' id1 id2 :
  stepped false g g' id1 id2 -> turnAdvanced g g'.
Proof.
  intros ((p1' & p2' & H') & _ & Hti). seated_fields H'.
  pose proof (connectionId_not_dealer _ Hid2) as Hnd2.
  unfold turnAdvanced, advancedFrom. rewrite HturnOrder, Hplayers.
  cbn [length].
  destruct (seated_phase _ _ _ _ _ H')
    as [(Hti' & _)|[(Hti' & Hc & _ & Hex1 & Hex2 & _)
                   |(Hti' & Hc & _ & Hex1 & Hex2)]];
    [congruence| |]; rewrite Hti' in *; injection Hti as <-; rewrite Hc.
  - split; [|intros; contradiction].
    exists O. split; [lia|]. split; [reflexivity|]. split; [reflexivity|].
    split; [right; now exists p2'|]. intros j Hj. lia.
  - split.
    + exists O. split; [lia|]. split; [reflexivity|]. split; [reflexivity|].
      split; [now left|]. intros j Hj. lia.
    + intros _ id Hid. apply elem_of_cons in Hid as [->|Hid];
        [now exists p1'|].
      apply list_elem_of_singleton in Hid as ->. now exists p2'.
Qed.

(** C5: in every state the server reaches, a hit by the holder of the
    turn (neither standing nor busted) whose new total is at most 21
    leaves the turn with that player; a hit that busts, and a stand, move
    the turn circularly through [turnOrder] to the next entry that is the
    dealer or a player neither standing nor busted, and the dealer gets
    the turn only when both players are standing or busted.  Both
    actions return. *)
Theorem turn_order (s : Server) (gameRoomId actor : string) (game : Game)
    (player : Player.t) :
  reachable s -> connectionId actor ->
  objGet gameRoomId (activeGames s) = Some game ->
  currentTurn game = actor -> seats game !! actor = Some player ->
  Player.isStanding player = false -> Player.isBusted player = false ->
  (exists newCard deck' games' game',
     deck game = deck' ++ [newCard]
     /\ handleHit gameRoomId actor (activeGames s) = Some games'
     /\ objGet gameRoomId games' = Some game'
     /\ if calculateHandTotal (Player.hand player ++ [newCard]) >? 21
        then turnAdvanced game game'
        else currentTurn game' = actor /\ turnIndex game' = turnIndex game)
  /\ (exists games' game',
        handleStand gameRoomId actor (activeGames s) = Some games'
        /\ objGet gameRoomId games' = Some game'
        /\ turnAdvanced game game').
Proof.
  intros Hreach Hactor Hget Hct Hseat _ _.
  pose proof (connectionId_not_dealer _ Hactor) as Hnd.
  destruct (wf_server_game _ _ _ (reachable_served _ Hreach) Hget)
    as (id1 & id2 & p1 & p2 & H).
  unfold handleHit, handleStand, onGame. rewrite Hget.
  cbn [mbind option_bind].
  destruct (seated_phase _ _ _ _ _ H)
    as [(Hti & Hc & Ho & Hex1 & Hex2 & Hdw)
       |[(Hti & Hc & Ho & Hex1 & Hex2 & Hdw)|(_ & Hc & _)]];
    [| |congruence]; rewrite Hc in Hct; subst actor.
  - rewrite (seated_seat1 _ _ _ _ _ H) in Hseat. injection Hseat as <-.
    destruct (Room_handleHit_first _ _ _ _ _ H Hti Hc Hex1 Hex2 Hdw Ho)
      as (c & d & g' & Hdeck & Hrun & Hstep).
    destruct (Room_handleStand_first _ _ _ _ _ H Hti Hc Hex1 Hex2 Hdw Ho)
      as (g'' & Hrun' & Hstep').
    rewrite Hrun, Hrun'. cbn [mbind option_bind]. split.
    + exists c, d; eexists _, g'. split; [exact Hdeck|].
      split; [reflexivity|]. split; [apply objGet_objSet|].
      destruct (calculateHandTotal (Player.hand p1 ++ [c]) >? 21);
        cbn [negb] in Hstep; [now apply stepped_turnAdvanced with id1 id2|].
      destruct Hstep as (_ & _ & Hti' & Hct'). split; congruence.
    + eexists _, g''. split; [reflexivity|]. split; [apply objGet_objSet|].
      now apply stepped_turnAdvanced with id1 id2.
  - rewrite (seated_seat2 _ _ _ _ _ H) in Hseat. injection Hseat as <-.
    destruct (Room_handleHit_second _ _ _ _ _ H Hti Hc Hex1 Hex2 Hdw Ho)
      as (c & d & g' & Hdeck & Hrun & Hstep).
    destruct (Room_handleStand_second _ _ _ _ _ H Hti Hc Hex1 Hex2 Hdw Ho)
      as (g'' & Hrun' & Hstep').
    rewrite Hrun, Hrun'. cbn [mbind option_bind]. split.
    + exists c, d; eexists _, g'. split; [exact Hdeck|].
      split; [reflexivity|]. split; [apply objGet_objSet|].
      destruct (calculateHandTotal (Player.hand p2 ++ [c]) >? 21);
        cbn [negb] in Hstep; [now apply stepped_turnAdvanced with id1 id2|].
      destruct Hstep as (_ & _ & Hti' & Hct'). split; congruence.
    + eexists _, g''. split; [reflexivity|]. split; [apply objGet_objSet|].
      now apply stepped_turnAdvanced with id1 id2.
Qed.

Lemma turn_order_witness :
  exists games' game',
    handleStand "game-a-b" "a" (activeGames matched) = Some games'
    /\ objGet "game-a-b" games' = Some game'
    /\ turnAdvanced dealtGame game'.
Proof.
  exact (proj2 (turn_order matched "game-a-b" "a" dealtGame
                  (Player.mk [mkCard R2 Hearts; mkCard RQ Spades] 12
                     false false 1000)
                  reachable_matched connectionId_a eq_refl eq_refl eq_refl
                  eq_refl eq_refl)).
Defined.

(** ** Deck integrity *)

Lemma seated_allCards g id1 id2 p1 p2 :
  seated g id1 id2 p1 p2 -> allCards g ≡ₚ createDeck.
Proof.
  intros H. unfold allCards, handOf.
  rewrite (seated_players _ _ _ _ _ H). cbn [flat_map].
  rewrite (seated_seat1 _ _ _ _ _ H), (seated_seat2 _ _ _ _ _ H).
  rewrite app_nil_r, <- app_assoc. apply (seated_cards _ _ _ _ _ H).
Qed.

Lemma onGame_result gameRoomId body (o : Store) g g' :
  objGet gameRoomId o = Some g -> body g = Some g' ->
  onGame gameRoomId body o = Some (objSet gameRoomId g' o).
Proof. intros Hget Hrun. unfold onGame. now rewrite Hget; cbn; rewrite Hrun. Qed.

(** C7: in every state the server reaches (its sessions are those of
    two distinct connections), the dealer's hand, the two players' hands
    and the deck of every session make up exactly one standard deck: 52 cards, every rank and suit, none twice.  This holds
    right after the deal and after every action; a hit or a stand by any
    connection returns and leaves a deck that is the former deck with
    cards removed from its end. *)
Theorem deck_integrity (s : Server) (gameRoomId : string) (game : Game) :
  reachable s -> objGet gameRoomId (activeGames s) = Some game ->
  (exists id1 id2, players game = [id1; id2] /\ id1 <> id2)
  /\ (allCards game ≡ₚ createDeck /\ NoDup (allCards game)
      /\ length (allCards game) = 52%nat
      /\ forall c : Card, c ∈ allCards game)
  /\ forall playerId, connectionId playerId ->
       (exists games' game' drawn,
          handleHit gameRoomId playerId (activeGames s) = Some games'
          /\ objGet gameRoomId games' = Some game'
          /\ deck game = deck game' ++ drawn)
       /\ (exists games' game' drawn,
             handleStand gameRoomId playerId (activeGames s) = Some games'
             /\ objGet gameRoomId games' = Some game'
             /\ deck game = deck game' ++ drawn).
Proof.
  intros Hreach Hget.
  pose proof (wf_server_game _ _ _ (reachable_served _ Hreach) Hget) as Hwf.
  split; [|split].
  - destruct Hwf as (id1 & id2 & p1 & p2 & H). exists id1, id2.
    split; [apply (seated_players _ _ _ _ _ H)|].
    apply (seated_distinct _ _ _ _ _ H).
  - destruct Hwf as (id1 & id2 & p1 & p2 & H).
    pose proof (seated_allCards _ _ _ _ _ H) as Hperm.
    split; [exact Hperm|]. split; [|split].
    + rewrite Hperm. apply createDeck_NoDup.
    + rewrite Hperm. apply createDeck_length.
    + intros c. rewrite Hperm. apply createDeck_complete.
  - intros playerId Hid.
    destruct (Room_action_served game playerId Hwf
                (connectionId_not_dealer _ Hid))
      as [(g' & Hrun & _ & drawn & Hdeck) (g'' & Hrun' & _ & drawn' & Hdeck')].
    split.
    + exists (objSet gameRoomId g' (activeGames s)), g', drawn.
      split; [now apply (onGame_result _ _ _ game)|].
      split; [apply objGet_objSet|exact Hdeck].
    + exists (objSet gameRoomId g'' (activeGames s)), g'', drawn'.
      split; [now apply (onGame_result _ _ _ game)|].
      split; [apply objGet_objSet|exact Hdeck'].
Qed.

(** C7 as stated fails for a connection paired with itself: the two
    seats are one property of the game object, the first hand dealt is
    lost, and the cards of the dealer, of "both" seats and of the deck
    count one hand twice and miss the 2 of Hearts dealt first.  The
    handler that created the game then throws on projecting it. *)
Lemma initializeGame_same_identity :
  exists g,
    initializeGame rnd0 "a" "a" = Some g
    /\ players g = ["a"; "a"]
    /\ bool_decide (NoDup (allCards g)) = false
    /\ bool_decide (mkCard R2 Hearts ∈ allCards g) = false
    /\ requestMatch rnd0 "a" (mkServer ["a"] []) = None.
Proof. vm_compute. eexists. repeat split. Qed.

Lemma deck_integrity_witness :
  allCards dealtGame ≡ₚ createDeck /\ NoDup (allCards dealtGame)
  /\ length (allCards dealtGame) = 52%nat.
Proof.
  destruct (deck_integrity matched "game-a-b" dealtGame reachable_matched
              eq_refl) as (_ & (Hperm & Hnd & Hlen & _) & _).
  split; [exact Hperm|]. split; [exact Hnd|exact Hlen].
Defined.

(** ** Disconnection *)

Lemma includes_elem sid ids : includes sid ids = true <-> sid ∈ ids.
Proof.
  unfold includes. induction ids as [|x ids IH]; simpl.
  - split; [discriminate|]. intros H. now apply elem_of_nil in H.
  - rewrite orb_true_iff, IH, elem_of_cons, String.eqb_eq.
    split; intros [H|H]; auto.
Qed.

Lemma firstGameOf_first sid (before after : Store) roomId game :
  (forall rg, rg ∈ before -> sid ∉ players (snd rg)) ->
  sid ∈ players game ->
  firstGameOf sid (before ++ (roomId, game) :: after) = Some (roomId, game).
Proof.
  intros Hbefore Hin. induction before as [|[r g] before IH]; simpl.
  - apply includes_elem in Hin. now rewrite Hin.
  - destruct (includes sid (players g)) eqn:Hinc.
    + apply includes_elem in Hinc. exfalso.
      apply (Hbefore (r, g)); [apply list_elem_of_here|assumption].
    + apply IH. intros rg Hrg. apply Hbefore. now apply list_elem_of_further.
Qed.

Lemma firstGameOf_none sid (o : Store) :
  (forall rg, rg ∈ o -> sid ∉ players (snd rg)) -> firstGameOf sid o = None.
Proof.
  induction o as [|[r g] o IH]; intros Hall; simpl; [reflexivity|].
  destruct (includes sid (players g)) eqn:Hinc.
  - apply includes_elem in Hinc. exfalso.
    apply (Hall (r, g)); [apply list_elem_of_here|assumption].
  - apply IH. intros rg Hrg. apply Hall. now apply list_elem_of_further.
Qed.

Lemma removeFirst_short sid q :
  (length q <= 1)%nat ->
  (sid ∉ removeFirst sid q)
  /\ forall x, x <> sid -> (x ∈ removeFirst sid q <-> x ∈ q).
Proof.
  destruct q as [|y [|? ?]]; simpl; intros Hlen; [| |lia].
  - split; [apply not_elem_of_nil|reflexivity].
  - destruct (String.eqb_spec y sid) as [->|Hne].
    + split; [apply not_elem_of_nil|]. intros x Hx.
      rewrite list_elem_of_singleton. split; [|contradiction].
      intros H. now apply elem_of_nil in H.
    + split; [|reflexivity]. rewrite list_elem_of_singleton. congruence.
Qed.

(** C9: in every state the server reaches, when a connection that takes
    part in stored sessions disconnects, the first of them in store order
    is removed, exactly one [pvpGameOver] of type [win] is sent, to the
    other participant of that session, and every other room of the store
    is left as it was (a later session of the same connection stays, its
    other participant unnotified); when the connection takes part in no
    session, nothing is sent, the store is unchanged and the connection
    is no longer in the queue. *)
Theorem disconnect_forfeits_first_session (s : Server) (socketId : string) :
  reachable s ->
  (forall (before after : Store) (roomId : string) (game : Game),
     activeGames s = before ++ (roomId, game) :: after ->
     (forall rg, rg ∈ before -> socketId ∉ players (snd rg)) ->
     socketId ∈ players game ->
     exists remaining s',
       remaining ∈ players game /\ remaining <> socketId
       /\ disconnect socketId s = Some (s', [forfeit remaining])
       /\ objGet roomId (activeGames s') = None
       /\ (forall r, r <> roomId ->
             objGet r (activeGames s') = objGet r (activeGames s))
       /\ (socketId ∉ matchmakingQueue s'))
  /\ ((forall rg, rg ∈ activeGames s -> socketId ∉ players (snd rg)) ->
      exists s',
        disconnect socketId s = Some (s', [])
        /\ activeGames s' = activeGames s
        /\ (socketId ∉ matchmakingQueue s')
        /\ forall x, x <> socketId ->
             (x ∈ matchmakingQueue s' <-> x ∈ matchmakingQueue s)).
Proof.
  intros Hreach. pose proof (reachable_served _ Hreach) as Hwf.
  destruct (removeFirst_short socketId (matchmakingQueue s)
              (wf_queue_short _ Hwf)) as [Hgone Hrest].
  split.
  - intros before after roomId game Hstore Hbefore Hin.
    assert (Hgame : wf_game game).
    { pose proof (wf_games _ Hwf) as Hall. rewrite Forall_forall in Hall.
      apply (Hall (roomId, game)). rewrite Hstore.
      apply elem_of_app. right. apply list_elem_of_here. }
    destruct Hgame as (id1 & id2 & p1 & p2 & H). seated_fields H.
    unfold disconnect.
    rewrite Hstore, (firstGameOf_first _ _ _ _ _ Hbefore Hin), <- Hstore.
    rewrite Hplayers in *.
    assert (Hother : exists remaining,
               remaining ∈ [id1; id2] /\ remaining <> socketId
               /\ otherThan socketId [id1; id2] = Some remaining
               /\ truthy remaining = true).
    { unfold otherThan, truthy. simpl.
      apply elem_of_cons in Hin as [->|Hin].
      - exists id2. rewrite String.eqb_refl. simpl.
        destruct (String.eqb_spec id2 id1) as [Heq|Hne]; [congruence|].
        destruct Hid2 as [Hne2 _]. apply String.eqb_neq in Hne2.
        rewrite Hne2. repeat split; try congruence.
        apply list_elem_of_further, list_elem_of_here.
      - apply list_elem_of_singleton in Hin as ->. exists id1.
        destruct (String.eqb_spec id1 id2) as [Heq|Hne]; [congruence|].
        destruct Hid1 as [Hne1 _]. apply String.eqb_neq in Hne1.
        simpl. rewrite Hne1. repeat split; try congruence.
        apply list_elem_of_here. }
    destruct Hother as (remaining & Hrin & Hrne & -> & ->).
    exists remaining. eexists. split; [exact Hrin|]. split; [exact Hrne|].
    split; [reflexivity|]. cbn [activeGames matchmakingQueue].
    split; [apply objGet_objDelete|]. split; [|exact Hgone].
    intros r Hr. now apply objGet_objDelete_ne.
  - intros Hnone. unfold disconnect.
    rewrite (firstGameOf_none _ _ Hnone). eexists. split; [reflexivity|].
    cbn [activeGames matchmakingQueue]. split; [reflexivity|].
    split; [exact Hgone|exact Hrest].
Qed.

Lemma disconnect_forfeits_first_session_witness :
  exists s',
    disconnect "a" matched = Some (s', [forfeit "b"])
    /\ objGet "game-a-b" (activeGames s') = None.
Proof.
  destruct (proj1 (disconnect_forfeits_first_session matched "a"
                     reachable_matched)
              [] [] "game-a-b" dealtGame eq_refl)
    as (remaining & s' & Hin & Hne & Hrun & Hgone & _).
  - intros rg Hrg. now apply elem_of_nil in Hrg.
  - apply list_elem_of_here.
  - exists s'. split; [|exact Hgone].
    apply elem_of_cons in Hin as [->|Hin]; [congruence|].
    apply list_elem_of_singleton in Hin as ->. exact Hrun.
Defined.

(** C9 as stated fails: a connection can sit in two stored sessions, and
    its disconnect ends only the first.  After [a] has been matched with
    [b] and then with [c], the disconnect of [a] notifies [b] alone and
    leaves the session with [c] in the store. *)
Lemma disconnect_leaves_later_session :
  exists s1 events1 s2 g,
    run twoTables start = Some (s1, events1)
    /\ disconnect "a" s1 = Some (s2, [forfeit "b"])
    /\ objGet "game-a-c" (activeGames s2) = Some g
    /\ players g = ["a"; "c"].
Proof.
  vm_compute. eexists _, _, _, _. repeat split.
Qed.

(** ** The final broadcast *)

(** Whatever the handler sends as [pvpGameOver], for whichever room its
    first statement found, carries the masked view of the first seat. *)
Lemma playerAction_final_view room sid action s s' events e :
  playerActionOn (Some room) sid action s = Some (s', events) ->
  e ∈ events -> event e = "pvpGameOver" ->
  exists game id0 v upCard,
    objGet room (activeGames s') = Some game
    /\ players game !! 0%nat = Some id0
    /\ Dealer.hand (dealer game) !! 0%nat = Some upCard
    /\ e = emit room "pvpGameOver"
             (GameOver (gameOverMessage game) (gameOverType game) (Some v))
    /\ PlayerView.id (View.playerState v) = id0
    /\ View.dealerState v
       = DealerView.mk [Shown upCard; Placeholder] (getCardValue upCard 0) true.
Proof.
  unfold playerActionOn.
  destruct (objGet room (activeGames s)) as [game|];
    [|intros [= <- <-] He; now apply elem_of_nil in He].
  destruct (negb (String.eqb (currentTurn game) sid)).
  { intros [= <- <-] He Hev. apply list_elem_of_singleton in He as ->.
    discriminate. }
  intros H He Hev.
  destruct (if String.eqb action "hit" then _ else _) as [games|];
    cbn [mbind option_bind] in H; [|discriminate].
  destruct (objGet room games) as [game'|] eqn:Hget;
    cbn [mbind option_bind] in H; [|discriminate].
  destruct (players game' !! 0%nat) as [id0|] eqn:Hid0;
    cbn [mbind option_bind] in H; [|discriminate].
  destruct (getGameStateForPlayer game' id0) as [v0|] eqn:Hv0;
    cbn [mbind option_bind] in H; [|discriminate].
  destruct (players game' !! 1%nat) as [id1|];
    cbn [mbind option_bind] in H; [|discriminate].
  destruct (getGameStateForPlayer game' id1) as [v1|];
    cbn [mbind option_bind] in H; [|discriminate].
  destruct (getGameStateForPlayer_dealerState _ _ _ Hv0) as (up & Hup & Hds).
  assert (Hpid : PlayerView.id (View.playerState v0) = id0).
  { unfold getGameStateForPlayer in Hv0. bind_cases Hv0.
    now injection Hv0 as <-. }
  destruct (gameOver game'); injection H as <- <-.
  - cbn [app] in He.
    apply elem_of_cons in He as [->|He]; [discriminate|].
    apply elem_of_cons in He as [->|He]; [discriminate|].
    apply list_elem_of_singleton in He as ->.
    exists game', id0, v0, up. cbn [activeGames]. repeat split; assumption.
  - apply elem_of_cons in He as [->|He]; [discriminate|].
    apply list_elem_of_singleton in He as ->. discriminate.
Qed.

(** C3: the final broadcast is meant to show the dealer's real second
    card and true total.  The view it carries is the one line 399 builds,
    [getGameStateForPlayer(game, game.players[0])], and that function has
    no unmasked branch: for every game, resolved or not, and every
    recipient, a view it returns shows of the dealer the first card and a
    placeholder, valued by the first card alone, and repeats the game's
    [gameOver].  On the resolved position [showdown] leaves, where the
    dealer holds 10 and 8 for a total of 18, the view of the first seat
    is flagged over and shows the dealer as 10 and a placeholder, valued
    10. *)
Theorem pvpGameOver_final_view_masked :
  (forall (game : Game) (playerId : string) (finalGame : View.t),
     getGameStateForPlayer game playerId = Some finalGame ->
     View.gameOver finalGame = gameOver game
     /\ exists upCard,
          Dealer.hand (dealer game) !! 0%nat = Some upCard
          /\ View.dealerState finalGame
             = DealerView.mk [Shown upCard; Placeholder]
                 (getCardValue upCard 0) true)
  /\ exists game finalGame,
       Room.determineGameOutcome showdown = Some game
       /\ gameOver game = true
       /\ players game !! 0%nat = Some "a"
       /\ dealer game
          = Dealer.mk [mkCard R10 Spades; mkCard R8 Spades] 18 false
       /\ getGameStateForPlayer game "a" = Some finalGame
       /\ View.gameOver finalGame = true
       /\ View.dealerState finalGame
          = DealerView.mk [Shown (mkCard R10 Spades); Placeholder] 10 true.
Proof.
  split.
  - intros game playerId finalGame Hv.
    split; [|now apply getGameStateForPlayer_dealerState with playerId].
    unfold getGameStateForPlayer in Hv. bind_cases Hv.
    now injection Hv as <-.
  - vm_compute. eexists _, _. repeat split.
Qed.

(** * Further properties of the code *)

(** ** Scoring below the bust line *)

Lemma minTotal_Permutation h1 h2 : h1 ≡ₚ h2 -> minTotal h1 = minTotal h2.
Proof. induction 1; rewrite ?minTotal_cons; lia. Qed.

Lemma countAces_Permutation h1 h2 : h1 ≡ₚ h2 -> countAces h1 = countAces h2.
Proof. induction 1; rewrite ?countAces_cons; lia. Qed.

(** X1: on every hand whose total with all Aces as 1 is at most 21,
    [calculateHandTotal] returns the standard blackjack total, at most
    21, and the same value for every order of the cards. *)
Theorem calculateHandTotal_below_bust (hand : list Card) :
  minTotal hand <= 21 ->
  calculateHandTotal hand = standardTotal hand
  /\ calculateHandTotal hand <= 21
  /\ forall hand', hand ≡ₚ hand' ->
       calculateHandTotal hand' = calculateHandTotal hand.
Proof.
  intros Hmin. split; [now apply calculateHandTotal_standard|].
  split; [now apply calculateHandTotal_minTotal_le|].
  intros hand' Hperm.
  pose proof (minTotal_Permutation _ _ Hperm) as Hm.
  pose proof (countAces_Permutation _ _ Hperm) as Ha.
  rewrite !calculateHandTotal_soft by lia. now rewrite Hm, Ha.
Qed.

Lemma calculateHandTotal_below_bust_witness :
  calculateHandTotal [mkCard R9 Clubs; mkCard RA Hearts; mkCard RA Spades]
  = calculateHandTotal [mkCard RA Hearts; mkCard RA Spades; mkCard R9 Clubs].
Proof.
  apply (proj2 (proj2 (calculateHandTotal_below_bust
                         [mkCard RA Hearts; mkCard RA Spades; mkCard R9 Clubs]
                         ltac:(vm_compute; discriminate)))).
  symmetry.
  apply (Permutation_cons_append [mkCard RA Hearts; mkCard RA Spades]).
Defined.

(** ** The shuffle *)

Lemma shuffleFrom_ext rnd rnd' i : forall deck,
  (forall k, (1 <= k <= i)%nat -> rnd k = rnd' k) ->
  shuffleFrom rnd i deck = shuffleFrom rnd' i deck.
Proof.
  induction i as [|i IH]; intros deck Hext; [reflexivity|].
  simpl. rewrite (Hext (S i)) by lia. apply IH. intros k Hk. apply Hext. lia.
Qed.

(** Swapping the last position of the part still to be shuffled with a
    position before it. *)
Lemma swap_last (a suf : list Card) (z y : Card) (j : nat) :
  a !! j = Some y ->
  swap ((a ++ [z]) ++ suf) (length a) j = (<[j := z]> a ++ [y]) ++ suf.
Proof.
  intros Hj. pose proof (lookup_lt_Some _ _ _ Hj) as Hlt. unfold swap.
  rewrite (lookup_app_l _ suf) by (rewrite length_app; simpl; lia).
  rewrite (lookup_app_r a [z]) by lia. rewrite Nat.sub_diag. simpl.
  rewrite (lookup_app_l _ suf) by (rewrite length_app; simpl; lia).
  rewrite (lookup_app_l a [z]) by lia. rewrite Hj.
  rewrite (insert_app_l _ suf) by (rewrite length_app; simpl; lia).
  rewrite (insert_app_r_alt a [z]) by lia. rewrite Nat.sub_diag. simpl.
  rewrite (insert_app_l _ suf) by (rewrite length_app; simpl; lia).
  rewrite (insert_app_l a [y]) by lia. reflexivity.
Qed.

Lemma swap_same (deck : list Card) (i : nat) : swap deck i i = deck.
Proof.
  unfold swap. destruct (deck !! i) as [c|] eqn:Hi; [|reflexivity].
  rewrite list_insert_insert_eq. now apply list_insert_id.
Qed.

(** Every rearrangement of the part still to be shuffled can be drawn. *)
Lemma shuffleFrom_any i : forall (pre suf target : list Card),
  length pre = S i -> pre ≡ₚ target ->
  exists rnd, shuffleFrom rnd i (pre ++ suf) = target ++ suf.
Proof.
  induction i as [|i IH]; intros pre suf target Hlen Hperm.
  - exists (fun _ => O). simpl.
    destruct pre as [|x [|? ?]]; try discriminate.
    apply Permutation_singleton_l in Hperm. now subst.
  - destruct (pop_nonempty pre) as (z & a & ->); [now destruct pre|].
    destruct (pop_nonempty target) as (y & tp & ->).
    { intros ->. apply Permutation_nil_r in Hperm. now destruct a. }
    rewrite length_app in Hlen. simpl in Hlen.
    assert (Hla : length a = S i) by lia.
    assert (Hy : y ∈ a ++ [z]).
    { rewrite Hperm. apply elem_of_app. right. apply list_elem_of_here. }
    apply elem_of_app in Hy as [Hy|Hy].
    + apply list_elem_of_lookup in Hy as [j Hj].
      pose proof (lookup_lt_Some _ _ _ Hj) as Hlt.
      assert (Hpre : <[j := z]> a ≡ₚ tp).
      { apply (Permutation_cons_inv (a := y)).
        rewrite (insert_Permutation a j z y Hj).
        rewrite (Permutation_cons_append tp y), <- Hperm.
        apply Permutation_cons_append. }
      destruct (IH (<[j := z]> a) (y :: suf) tp) as [rnd0 Hrnd0];
        [now rewrite length_insert|assumption|].
      exists (fun k => if Nat.eqb k (S i) then j else rnd0 k).
      cbn [shuffleFrom]. cbv beta. rewrite Nat.eqb_refl.
      rewrite (Nat.mod_small j) by lia.
      rewrite <- Hla, (swap_last a suf z y j Hj).
      rewrite <- !app_assoc. simpl. rewrite Hla.
      rewrite (shuffleFrom_ext _ rnd0).
      * rewrite Hrnd0. reflexivity.
      * intros k Hk. destruct (Nat.eqb_spec k (S i)); [lia|reflexivity].
    + apply list_elem_of_singleton in Hy as ->.
      assert (Hpre : a ≡ₚ tp).
      { apply (Permutation_cons_inv (a := z)).
        rewrite (Permutation_cons_append tp z), <- Hperm.
        apply Permutation_cons_append. }
      destruct (IH a (z :: suf) tp Hla Hpre) as [rnd0 Hrnd0].
      exists (fun k => if Nat.eqb k (S i) then S i else rnd0 k).
      cbn [shuffleFrom]. cbv beta. rewrite Nat.eqb_refl.
      rewrite (Nat.mod_small (S i)) by lia. rewrite swap_same.
      rewrite <- !app_assoc. simpl.
      rewrite (shuffleFrom_ext _ rnd0).
      * rewrite Hrnd0. reflexivity.
      * intros k Hk. destruct (Nat.eqb_spec k (S i)); [lia|reflexivity].
Qed.

(** X2: whatever the random draws, [shuffleDeck] returns the cards it was
    given, each as often as before, in an array of the same length; and
    every order of those cards is the result of some sequence of
    draws. *)
Theorem shuffleDeck_rearranges (deck : list Card) :
  (forall rnd, shuffleDeck rnd deck ≡ₚ deck
               /\ length (shuffleDeck rnd deck) = length deck)
  /\ forall target, deck ≡ₚ target ->
       exists rnd, shuffleDeck rnd deck = target.
Proof.
  split.
  - intros rnd. pose proof (shuffleDeck_Permutation rnd deck) as H.
    split; [exact H|now apply Permutation_length].
  - intros target Hperm. unfold shuffleDeck.
    destruct deck as [|c deck].
    + apply Permutation_nil_l in Hperm as <-. now exists (fun _ => O).
    + destruct (shuffleFrom_any (length deck) (c :: deck) [] target)
        as [rnd Hrnd]; [reflexivity|assumption|].
      rewrite !app_nil_r in Hrnd. exists rnd.
      simpl. rewrite Nat.sub_0_r. exact Hrnd.
Qed.

(** ** The dealer's policy *)

Lemma dealerHits_policy u : forall h m u' h' m',
  Room.dealerHits u h m = Some (u', h', m') ->
  exists drawn,
    u = drawn ++ u' /\ h' = h ++ drawn /\ 17 <= calculateHandTotal h'
    /\ forall n, (n < length drawn)%nat ->
         calculateHandTotal (h ++ take n drawn) < 17.
Proof.
  induction u as [|c u IH]; intros h m u' h' m'; simpl.
  - destruct (Z.ltb_spec (calculateHandTotal h) 17); [discriminate|].
    intros [= <- <- <-]. exists []. rewrite !app_nil_r.
    split; [reflexivity|]. split; [reflexivity|]. split; [assumption|].
    simpl. lia.
  - destruct (Z.ltb_spec (calculateHandTotal h) 17) as [Hlt|Hge].
    + intros H. destruct (IH _ _ _ _ _ H) as (drawn & -> & -> & Hstop & Hhit).
      exists (c :: drawn). split; [reflexivity|].
      split; [now rewrite <- app_assoc|]. split; [assumption|].
      intros [|n] Hn; simpl in *; [now rewrite app_nil_r|].
      replace (h ++ c :: take n drawn) with ((h ++ [c]) ++ take n drawn)
        by now rewrite <- app_assoc.
      apply Hhit. lia.
    + intros [= <- <- <-]. exists []. rewrite !app_nil_r.
      split; [reflexivity|]. split; [reflexivity|]. split; [assumption|].
      simpl. lia.
Qed.

Lemma dealerHits_throws u : forall h m,
  Room.dealerHits u h m = None
  <-> forall n, (n <= length u)%nat ->
        calculateHandTotal (h ++ take n u) < 17.
Proof.
  induction u as [|c u IH]; intros h m; simpl.
  - destruct (Z.ltb_spec (calculateHandTotal h) 17) as [Hlt|Hge].
    + split; [|reflexivity]. intros _ n _. now rewrite take_nil, app_nil_r.
    + split; [discriminate|]. intros H. specialize (H O (Nat.le_0_l _)).
      rewrite app_nil_r in H. lia.
  - destruct (Z.ltb_spec (calculateHandTotal h) 17) as [Hlt|Hge].
    + rewrite IH. split.
      * intros H [|n] Hn; simpl; [now rewrite app_nil_r|].
        replace (h ++ c :: take n u) with ((h ++ [c]) ++ take n u)
          by now rewrite <- app_assoc.
        apply H. lia.
      * intros H n Hn. specialize (H (S n) ltac:(lia)). simpl in H.
        now rewrite <- app_assoc.
    + split; [discriminate|]. intros H. specialize (H O (Nat.le_0_l _)).
      simpl in H. rewrite app_nil_r in H. lia.
Qed.

Lemma onGame_inv gameRoomId body (o o' : Store) :
  onGame gameRoomId body o = Some o' ->
  exists g g',
    objGet gameRoomId o = Some g /\ body g = Some g'
    /\ o' = objSet gameRoomId g' o.
Proof.
  unfold onGame. destruct (objGet gameRoomId o) as [g|]; [|discriminate].
  cbn [mbind option_bind]. destruct (body g) as [g'|] eqn:Hrun; [|discriminate].
  intros [= <-]. now exists g, g'.
Qed.

Lemma Room_handleDealerTurn_inv g g' :
  Room.handleDealerTurn g = Some g' ->
  exists drawn msg,
    g' = setMessage msg
           (setDealer
              (Dealer.mk (Dealer.hand (dealer g) ++ drawn)
                 (calculateHandTotal (Dealer.hand (dealer g) ++ drawn))
                 (if calculateHandTotal (Dealer.hand (dealer g) ++ drawn)
                     >? 21
                  then true else Dealer.isBusted (dealer g)))
              (setDeck (rev (drop (length drawn) (rev (deck g)))) g))
    /\ deck g = rev (drop (length drawn) (rev (deck g))) ++ rev drawn
    /\ 17 <= calculateHandTotal (Dealer.hand (dealer g) ++ drawn)
    /\ forall n, (n < length drawn)%nat ->
         calculateHandTotal (Dealer.hand (dealer g) ++ take n drawn) < 17.
Proof.
  unfold Room.handleDealerTurn.
  destruct (Room.dealerHits _ _ _) as [[[u' h'] m']|] eqn:Hrun;
    cbn [mbind option_bind]; [|discriminate].
  destruct (dealerHits_policy _ _ _ _ _ _ Hrun)
    as (drawn & Hu & -> & Hstop & Hhit).
  assert (Hu' : u' = drop (length drawn) (rev (deck g)))
    by (rewrite Hu; now rewrite drop_app_length).
  assert (Hdeck : deck g = rev u' ++ rev drawn).
  { rewrite <- rev_app_distr, <- Hu. now rewrite rev_involutive. }
  intros H. exists drawn. rewrite <- Hu'.
  destruct (calculateHandTotal (Dealer.hand (dealer g) ++ drawn) >? 21);
    injection H as <-; eexists; repeat split; assumption.
Qed.

(** X3: [handleDealerTurn], whenever it returns, has given the dealer the
    cards popped one after the other from the end of the deck, has drawn
    only while the total held was below 17 and has stopped at the first
    total of 17 or more; the stored score is the total of the final hand,
    the dealer is marked busted when it exceeds 21 and keeps the former
    mark otherwise, and no seat is touched. *)
Theorem handleDealerTurn_policy (activeGames activeGames' : Store)
    (gameRoomId : string) (game : Game) :
  objGet gameRoomId activeGames = Some game ->
  handleDealerTurn gameRoomId activeGames = Some activeGames' ->
  exists (game' : Game) (drawn : list Card),
    objGet gameRoomId activeGames' = Some game'
    /\ Dealer.hand (dealer game') = Dealer.hand (dealer game) ++ drawn
    /\ deck game = deck game' ++ rev drawn
    /\ Dealer.score (dealer game')
       = calculateHandTotal (Dealer.hand (dealer game'))
    /\ 17 <= Dealer.score (dealer game')
    /\ (forall n, (n < length drawn)%nat ->
          calculateHandTotal (Dealer.hand (dealer game) ++ take n drawn) < 17)
    /\ Dealer.isBusted (dealer game')
       = (if Dealer.score (dealer game') >? 21 then true
          else Dealer.isBusted (dealer game))
    /\ seats game' = seats game.
Proof.
  intros Hget Hrun. unfold handleDealerTurn in Hrun.
  destruct (onGame_inv _ _ _ _ Hrun) as (g & g' & Hget' & Hbody & ->).
  rewrite Hget in Hget'. injection Hget' as <-.
  destruct (Room_handleDealerTurn_inv _ _ Hbody)
    as (drawn & msg & -> & Hdeck & Hstop & Hhit).
  eexists _, drawn. split; [apply objGet_objSet|]. cbn.
  repeat split; assumption.
Qed.

Lemma handleDealerTurn_policy_witness :
  exists game',
    handleDealerTurn "game-a-b" [("game-a-b", dealerDraws)]
    = Some [("game-a-b", game')]
    /\ Dealer.hand (dealer game')
       = Dealer.hand (dealer dealerDraws)
           ++ [mkCard R4 Clubs; mkCard R9 Diamonds]
    /\ deck dealerDraws
       = deck game' ++ rev [mkCard R4 Clubs; mkCard R9 Diamonds]
    /\ Dealer.score (dealer game') = 18
    /\ forall n, (n < 2)%nat ->
         calculateHandTotal
           (Dealer.hand (dealer dealerDraws)
              ++ take n [mkCard R4 Clubs; mkCard R9 Diamonds]) < 17.
Proof.
  pose (after :=
    setMessage
      ("Dealer's turn... Dealer hits and gets 4 of Clubs."
         +:+ " Dealer hits and gets 9 of Diamonds. Dealer stands.")
      (setDealer
         (Dealer.mk [mkCard R2 Clubs; mkCard R3 Clubs; mkCard R4 Clubs;
                     mkCard R9 Diamonds] 18 false)
         (setDeck [mkCard R7 Hearts] dealerDraws))).
  assert (Hrun : handleDealerTurn "game-a-b" [("game-a-b", dealerDraws)]
                 = Some [("game-a-b", after)])
    by (vm_compute; reflexivity).
  destruct (handleDealerTurn_policy [("game-a-b", dealerDraws)]
              [("game-a-b", after)] "game-a-b" dealerDraws eq_refl Hrun)
    as (game' & drawn & Hget & Hhand & Hdeck & _ & _ & Hhit & _).
  assert (Hgame : game' = after) by (simpl in Hget; congruence).
  subst game'.
  assert (Hdrawn : drawn = [mkCard R4 Clubs; mkCard R9 Diamonds])
    by (simpl in Hhand; congruence).
  subst drawn. exists after. split; [exact Hrun|].
  split; [exact Hhand|]. split; [exact Hdeck|]. split; [reflexivity|].
  exact Hhit.
Defined.

(** X4: [handleDealerTurn] throws exactly when the deck runs out before
    the dealer reaches 17: when every hand the dealer could hold along
    the way, up to the whole deck drawn, totals less than 17. *)
Theorem handleDealerTurn_exhaustion (activeGames : Store)
    (gameRoomId : string) (game : Game) :
  objGet gameRoomId activeGames = Some game ->
  handleDealerTurn gameRoomId activeGames = None
  <-> forall n, (n <= length (deck game))%nat ->
        calculateHandTotal
          (Dealer.hand (dealer game) ++ take n (rev (deck game))) < 17.
Proof.
  intros Hget. unfold handleDealerTurn, onGame. rewrite Hget.
  cbn [mbind option_bind]. unfold Room.handleDealerTurn.
  rewrite <- (length_rev (deck game)),
    <- (dealerHits_throws (rev (deck game)) (Dealer.hand (dealer game))
          "Dealer's turn...").
  destruct (Room.dealerHits _ _ _) as [[[u' h'] m']|];
    cbn [mbind option_bind]; [|tauto].
  destruct (calculateHandTotal h' >? 21); cbn; split; discriminate.
Qed.

Lemma handleDealerTurn_exhaustion_witness :
  handleDealerTurn "game-a-b" [("game-a-b", shortDeck)] = None.
Proof.
  apply (proj2 (handleDealerTurn_exhaustion [("game-a-b", shortDeck)]
                  "game-a-b" shortDeck eq_refl)).
  intros [|[|[|n]]] Hn; vm_compute; reflexivity.
Defined.

(** ** The type of the outcome *)

Lemma Room_determineGameOutcome_exact game id1 id2 player1 player2 o1 o2 :
  players game = [id1; id2] ->
  seats game !! id1 = Some player1 -> seats game !! id2 = Some player2 ->
  player_outcome player1 (dealer game) o1 ->
  player_outcome player2 (dealer game) o2 ->
  Room.determineGameOutcome game
  = Some (setOutcome
            ("Round over! " +:+ "undefined" +:+ verdict o1
               +:+ "undefined" +:+ verdict o2)
            match o2 with
            | Wins => "win"
            | Loses => "lose"
            | _ => match o1 with
                   | Wins => "win"
                   | Loses => "lose"
                   | _ => "info"
                   end
            end game).
Proof.
  intros Hp Hs1 Hs2 Ho1 Ho2. unfold Room.determineGameOutcome.
  rewrite Hp. cbn [lookup list_lookup mbind option_bind].
  rewrite Hs1. cbn [mbind option_bind]. rewrite Hs2. cbn [mbind option_bind].
  rewrite (judge_outcome _ _ o1 _ _ Ho1), (judge_outcome _ _ o2 _ _ Ho2).
  rewrite append_assoc. reflexivity.
Qed.

(** X5: the single [gameOverType] of a resolved round is the result of
    the second player when that is a win or a loss, otherwise the result
    of the first player when that is a win or a loss, and [info] when
    neither player won or lost; nothing else of the game changes but the
    three outcome fields. *)
Theorem determineGameOutcome_type (activeGames : Store)
    (gameRoomId id1 id2 : string) (game : Game) (player1 player2 : Player.t)
    (o1 o2 : Outcome) :
  objGet gameRoomId activeGames = Some game ->
  players game = [id1; id2] ->
  seats game !! id1 = Some player1 -> seats game !! id2 = Some player2 ->
  player_outcome player1 (dealer game) o1 ->
  player_outcome player2 (dealer game) o2 ->
  exists game' message,
    determineGameOutcome gameRoomId activeGames
      = Some (objSet gameRoomId game' activeGames)
    /\ game' = setOutcome message (gameOverType game') game
    /\ gameOverType game'
       = match o2 with
         | Wins => "win"
         | Loses => "lose"
         | _ => match o1 with
                | Wins => "win"
                | Loses => "lose"
                | _ => "info"
                end
         end.
Proof.
  intros Hget Hp Hs1 Hs2 Ho1 Ho2.
  unfold determineGameOutcome, onGame. rewrite Hget. cbn [mbind option_bind].
  rewrite (Room_determineGameOutcome_exact _ _ _ _ _ _ _ Hp Hs1 Hs2 Ho1 Ho2).
  cbn [mbind option_bind]. eexists _, _. split; [reflexivity|].
  split; reflexivity.
Qed.

Lemma determineGameOutcome_type_witness :
  exists game',
    determineGameOutcome "game-a-b" [("game-a-b", showdown)]
      = Some [("game-a-b", game')]
    /\ gameOverType game' = "win".
Proof.
  destruct (determineGameOutcome_type [("game-a-b", showdown)]
              "game-a-b" "a" "b" showdown
              (Player.mk [mkCard RK Hearts; mkCard RQ Hearts] 20
                 true false 1000)
              (Player.mk [mkCard R10 Hearts; mkCard R5 Clubs; mkCard R9 Clubs]
                 24 false true 1000)
              Wins Busted eq_refl eq_refl eq_refl eq_refl)
    as (game' & message & Hrun & _ & Htype).
  - apply outcome_wins; [reflexivity|]. right. reflexivity.
  - now apply outcome_busted.
  - exists game'. split; [exact Hrun|exact Htype].
Defined.

(** ** A hit on an empty deck *)

(** X6: a hit by the holder of the turn, seated and neither standing nor
    busted, on a game whose deck is empty is not ignored: the handler
    throws. *)
Theorem handleHit_empty_deck (activeGames : Store)
    (gameRoomId playerId : string) (game : Game) (player : Player.t) :
  objGet gameRoomId activeGames = Some game ->
  currentTurn game = playerId -> seats game !! playerId = Some player ->
  Player.isStanding player = false -> Player.isBusted player = false ->
  deck game = [] ->
  handleHit gameRoomId playerId activeGames = None.
Proof.
  intros Hget Hct Hseat Hst Hb Hdeck. unfold handleHit, onGame.
  rewrite Hget. cbn [mbind option_bind]. unfold Room.handleHit.
  rewrite Hct, String.eqb_refl. cbn [negb]. rewrite Hseat.
  cbn [mbind option_bind]. rewrite Hst, Hb, Hdeck. reflexivity.
Qed.

Lemma handleHit_empty_deck_witness :
  handleHit "game-a-b" "a" [("game-a-b", setDeck [] dealtGame)] = None.
Proof.
  apply (handleHit_empty_deck [("game-a-b", setDeck [] dealtGame)]
           "game-a-b" "a" (setDeck [] dealtGame)
           (Player.mk [mkCard R2 Hearts; mkCard RQ Spades] 12
              false false 1000));
    reflexivity.
Defined.

(** ** What an action can change *)

Lemma keptSeat_refl p : keptSeat p p.
Proof. split; auto. Qed.

Lemma keptSeat_trans p1 p2 p3 : keptSeat p1 p2 -> keptSeat p2 p3 -> keptSeat p1 p3.
Proof.
  intros [Hh1 Hc1 Hs1 Hb1] [Hh2 Hc2 Hs2 Hb2]. split; auto.
  - now transitivity (Player.hand p2).
  - congruence.
Qed.

Lemma evolves_same_seats g g' drawn :
  players g' = players g -> turnOrder g' = turnOrder g ->
  seats g' = seats g -> deck g = deck g' ++ drawn ->
  Dealer.hand (dealer g) `prefix_of` Dealer.hand (dealer g') ->
  (gameOver g = true -> gameOver g' = true) ->
  evolves g g'.
Proof.
  intros Hp Ht Hs Hd Hdl Ho. split; try assumption; [now exists drawn|].
  intros id. rewrite Hs. destruct (seats g !! id); [apply keptSeat_refl|exact I].
Qed.

Lemma evolves_refl g : evolves g g.
Proof. apply (evolves_same_seats g g []); auto. now rewrite app_nil_r. Qed.

Lemma evolves_trans g1 g2 g3 : evolves g1 g2 -> evolves g2 g3 -> evolves g1 g3.
Proof.
  intros [Hp1 Ht1 [d1 Hd1] Hdl1 Hs1 Ho1] [Hp2 Ht2 [d2 Hd2] Hdl2 Hs2 Ho2].
  split; try congruence.
  - exists (d2 ++ d1). rewrite Hd1, Hd2. now rewrite <- app_assoc.
  - now transitivity (Dealer.hand (dealer g2)).
  - intros id. specialize (Hs1 id). specialize (Hs2 id).
    destruct (seats g1 !! id), (seats g2 !! id), (seats g3 !! id);
      try tauto. now apply keptSeat_trans with t0.
  - auto.
Qed.

Lemma evolves_setSeat g playerId player player' deck' drawn msg :
  seats g !! playerId = Some player -> keptSeat player player' ->
  deck g = deck' ++ drawn ->
  evolves g (setMessage msg (setSeat playerId player' (setDeck deck' g))).
Proof.
  intros Hseat Hkept Hdeck. split; cbn; try reflexivity; try tauto.
  - now exists drawn.
  - intros id. destruct (decide (id = playerId)) as [->|Hne].
    + rewrite lookup_insert_eq, Hseat. exact Hkept.
    + rewrite lookup_insert_ne by congruence.
      destruct (seats g !! id); [apply keptSeat_refl|exact I].
Qed.

Lemma Room_determineGameOutcome_inv g g' :
  Room.determineGameOutcome g = Some g' ->
  exists message type, g' = setOutcome message type g.
Proof.
  unfold Room.determineGameOutcome. intros H. bind_cases H.
  destruct (Room.judge _ _ _ _) as [m1 t1].
  destruct (Room.judge _ _ _ _) as [m2 t2].
  injection H as <-. now exists m2, t2.
Qed.

(** [advanceTurn] either hands the turn to a player and says so, or plays
    the dealer and judges the round. *)
Lemma Room_advanceTurn_inv g g' :
  Room.advanceTurn g = Some g' ->
  (exists i id,
     g' = setMessage ("It's " +:+ id +:+ "'s turn.") (setTurn i id g))
  \/ (exists i g1 message type,
        Room.handleDealerTurn (setTurn i "dealer" g) = Some g1
        /\ g' = setOutcome message type g1).
Proof.
  unfold Room.advanceTurn.
  destruct (Room.skipExhausted _ _ _) as [[i id]|];
    cbn [mbind option_bind]; [|discriminate].
  cbn [currentTurn setTurn].
  destruct (String.eqb_spec id "dealer") as [->|Hne].
  - destruct (Room.handleDealerTurn _) as [g1|] eqn:Hrun;
      cbn [mbind option_bind]; [|discriminate].
    intros H. apply Room_determineGameOutcome_inv in H as (m & t & ->).
    right. now exists i, g1, m, t.
  - intros [= <-]. left. now exists i, id.
Qed.

Lemma Room_advanceTurn_evolves g g' :
  Room.advanceTurn g = Some g' -> evolves g g'.
Proof.
  intros H. apply Room_advanceTurn_inv in H
    as [(i & id & ->)|(i & g1 & m & t & Hrun & ->)].
  - apply (evolves_same_seats _ _ []); cbn; auto. now rewrite app_nil_r.
  - apply Room_handleDealerTurn_inv in Hrun
      as (drawn & msg & -> & Hdeck & _).
    apply (evolves_same_seats _ _ (rev drawn)); cbn; auto.
    now exists drawn.
Qed.

Lemma Room_handleHit_evolves playerId g g' :
  Room.handleHit playerId g = Some g' -> evolves g g'.
Proof.
  unfold Room.handleHit.
  destruct (negb _); [intros [= <-]; apply evolves_refl|].
  destruct (seats g !! playerId) as [player|] eqn:Hseat;
    cbn [mbind option_bind]; [|discriminate].
  destruct (Player.isStanding player || Player.isBusted player) eqn:Hex;
    [intros [= <-]; apply evolves_refl|].
  destruct (pop (deck g)) as [[c d]|] eqn:Hpop;
    cbn [mbind option_bind]; [|discriminate].
  apply pop_Some in Hpop. apply orb_false_iff in Hex as [Hst Hb].
  destruct (_ >? 21).
  - intros H. apply Room_advanceTurn_evolves in H.
    refine (evolves_trans _ _ _ _ H).
    apply (evolves_setSeat _ _ player _ _ [c]); [assumption| |assumption].
    split; cbn; auto. now exists [c].
  - intros [= <-].
    apply (evolves_setSeat _ _ player _ _ [c]); [assumption| |assumption].
    split; cbn; auto. now exists [c].
Qed.

Lemma Room_handleStand_evolves playerId g g' :
  Room.handleStand playerId g = Some g' -> evolves g g'.
Proof.
  unfold Room.handleStand.
  destruct (negb _); [intros [= <-]; apply evolves_refl|].
  destruct (seats g !! playerId) as [player|] eqn:Hseat;
    cbn [mbind option_bind]; [|discriminate].
  destruct (Player.isStanding player || Player.isBusted player) eqn:Hex;
    [intros [= <-]; apply evolves_refl|].
  intros H. apply Room_advanceTurn_evolves in H.
  refine (evolves_trans _ _ _ _ H).
  replace (setSeat playerId _ g)
    with (setSeat playerId
            (Player.mk (Player.hand player) (Player.score player) true
               (Player.isBusted player) (Player.chips player))
            (setDeck (deck g) g)) by now destruct g.
  apply (evolves_setSeat _ _ player _ _ []);
    [assumption| |now rewrite app_nil_r].
  split; cbn; auto.
Qed.

(** The cards [advanceTurn] moves: those the dealer draws, when the turn
    reaches the dealer. *)
Lemma Room_advanceTurn_dealt g g' :
  Room.advanceTurn g = Some g' ->
  exists toDealer,
    deck g = deck g' ++ rev toDealer
    /\ Dealer.hand (dealer g') = Dealer.hand (dealer g) ++ toDealer
    /\ (dealer g' = dealer g
        \/ (Dealer.score (dealer g')
            = calculateHandTotal (Dealer.hand (dealer g'))
            /\ Dealer.isBusted (dealer g')
               = if Dealer.score (dealer g') >? 21 then true
                 else Dealer.isBusted (dealer g)))
    /\ seats g' = seats g.
Proof.
  intros H. apply Room_advanceTurn_inv in H
    as [(i & id & ->)|(i & g1 & m & t & Hrun & ->)].
  - exists []. cbn. rewrite !app_nil_r. repeat split. now left.
  - apply Room_handleDealerTurn_inv in Hrun
      as (drawn & msg & -> & Hdeck & _).
    exists drawn. cbn. cbn in Hdeck. repeat split; [exact Hdeck|now right].
Qed.

Lemma dealt_nothing playerId g : dealt playerId g g [] [].
Proof.
  split; cbn; rewrite ?app_nil_r; auto.
  destruct (seats g !! playerId) as [p|]; [|reflexivity].
  rewrite app_nil_r. repeat split.
Qed.

(** The seat of [playerId] is rewritten, then the turn may advance. *)
Lemma dealt_seat playerId g g2 g' player p' toPlayer toDealer :
  seats g !! playerId = Some player ->
  seats g2 = <[playerId := p']> (seats g) -> dealer g2 = dealer g ->
  deck g = deck g2 ++ rev toPlayer -> (length toPlayer <= 1)%nat ->
  Player.hand p' = Player.hand player ++ toPlayer ->
  Player.score p'
  = match toPlayer with
    | [] => Player.score player
    | _ :: _ => calculateHandTotal (Player.hand p')
    end ->
  Player.chips p' = Player.chips player ->
  deck g2 = deck g' ++ rev toDealer ->
  Dealer.hand (dealer g') = Dealer.hand (dealer g2) ++ toDealer ->
  (dealer g' = dealer g2
   \/ (Dealer.score (dealer g')
       = calculateHandTotal (Dealer.hand (dealer g'))
       /\ Dealer.isBusted (dealer g')
          = if Dealer.score (dealer g') >? 21 then true
            else Dealer.isBusted (dealer g2))) ->
  seats g' = seats g2 ->
  dealt playerId g g' toPlayer toDealer.
Proof.
  intros Hseat Hs2 Hd2 Hdeck Hone Hhand Hscore Hchips Hdeck' Hdh Hdl Hs'.
  split.
  - now rewrite Hdeck, Hdeck', rev_app_distr, app_assoc.
  - exact Hone.
  - now rewrite Hdh, Hd2.
  - now rewrite <- Hd2.
  - intros id Hne. rewrite Hs', Hs2. now apply lookup_insert_ne.
  - rewrite Hseat, Hs', Hs2, lookup_insert_eq. repeat split; assumption.
Qed.

Lemma Room_handleHit_dealt playerId g g' :
  Room.handleHit playerId g = Some g' ->
  exists toPlayer toDealer, dealt playerId g g' toPlayer toDealer.
Proof.
  unfold Room.handleHit.
  destruct (negb _);
    [intros [= <-]; exists [], []; apply dealt_nothing|].
  destruct (seats g !! playerId) as [player|] eqn:Hseat;
    cbn [mbind option_bind]; [|discriminate].
  destruct (Player.isStanding player || Player.isBusted player);
    [intros [= <-]; exists [], []; apply dealt_nothing|].
  destruct (pop (deck g)) as [[c d]|] eqn:Hpop;
    cbn [mbind option_bind]; [|discriminate].
  apply pop_Some in Hpop.
  destruct (_ >? 21).
  - intros H. destruct (Room_advanceTurn_dealt _ _ H)
      as (toDealer & Hdeck & Hdh & Hdl & Hs).
    exists [c], toDealer.
    match type of H with
    | Room.advanceTurn ?g2 = _ =>
        eapply (dealt_seat playerId g g2 g' player _ [c] toDealer Hseat)
    end;
      [reflexivity|reflexivity|exact Hpop|cbn; lia|reflexivity|reflexivity
      |reflexivity|exact Hdeck|exact Hdh|exact Hdl|exact Hs].
  - intros [= <-]. exists [c], [].
    match goal with
    | |- dealt _ _ ?g2 _ _ =>
        eapply (dealt_seat playerId g g2 g2 player _ [c] [] Hseat)
    end;
      [reflexivity|reflexivity|exact Hpop|cbn; lia|reflexivity|reflexivity
      |reflexivity|cbn; now rewrite app_nil_r|cbn; now rewrite app_nil_r
      |now left|reflexivity].
Qed.

Lemma Room_handleStand_dealt playerId g g' :
  Room.handleStand playerId g = Some g' ->
  exists toPlayer toDealer, dealt playerId g g' toPlayer toDealer.
Proof.
  unfold Room.handleStand.
  destruct (negb _);
    [intros [= <-]; exists [], []; apply dealt_nothing|].
  destruct (seats g !! playerId) as [player|] eqn:Hseat;
    cbn [mbind option_bind]; [|discriminate].
  destruct (Player.isStanding player || Player.isBusted player);
    [intros [= <-]; exists [], []; apply dealt_nothing|].
  intros H. destruct (Room_advanceTurn_dealt _ _ H)
    as (toDealer & Hdeck & Hdh & Hdl & Hs).
  exists [], toDealer.
  match type of H with
  | Room.advanceTurn ?g2 = _ =>
      eapply (dealt_seat playerId g g2 g' player _ [] toDealer Hseat)
  end;
    [reflexivity|reflexivity|cbn; now rewrite app_nil_r|cbn; lia
    |cbn; now rewrite app_nil_r|reflexivity|reflexivity
    |exact Hdeck|exact Hdh|exact Hdl|exact Hs].
Qed.

(** X7: whatever the game and whoever acts, a hit or a stand that
    returns only adds cards at the end of hands, taking them from the end
    of the deck: the cards that have left the deck, in the order popped,
    are the card added to the hand of the one who acted, if any, followed
    by the cards added to the dealer's hand, and a hand that got a card
    has its total stored as score.  It never changes a player's chips,
    never clears a standing or busted flag, never adds or removes a seat,
    never touches the seat of another player, never changes [players] or
    [turnOrder], never takes a card back from the dealer and never
    reopens a resolved round.  Every other room of the store is left as
    it was. *)
Theorem action_only_adds (activeGames activeGames' : Store)
    (gameRoomId playerId : string) :
  handleHit gameRoomId playerId activeGames = Some activeGames'
  \/ handleStand gameRoomId playerId activeGames = Some activeGames' ->
  (exists game game' toPlayer toDealer,
     objGet gameRoomId activeGames = Some game
     /\ objGet gameRoomId activeGames' = Some game'
     /\ evolves game game'
     /\ dealt playerId game game' toPlayer toDealer)
  /\ forall room, room <> gameRoomId ->
       objGet room activeGames' = objGet room activeGames.
Proof.
  unfold handleHit, handleStand.
  intros [H|H]; destruct (onGame_inv _ _ _ _ H) as (g & g' & Hget & Hrun & ->);
    (split; [|intros room Hne; now apply objGet_objSet_ne]).
  - destruct (Room_handleHit_dealt _ _ _ Hrun) as (toPlayer & toDealer & Hd).
    exists g, g', toPlayer, toDealer. split; [assumption|].
    split; [apply objGet_objSet|]. split; [|exact Hd].
    now apply Room_handleHit_evolves with playerId.
  - destruct (Room_handleStand_dealt _ _ _ Hrun) as (toPlayer & toDealer & Hd).
    exists g, g', toPlayer, toDealer. split; [assumption|].
    split; [apply objGet_objSet|]. split; [|exact Hd].
    now apply Room_handleStand_evolves with playerId.
Qed.

Lemma action_only_adds_witness :
  exists game',
    handleHit "game-a-b" "b" [("game-a-b", lastHit)]
    = Some [("game-a-b", game')]
    /\ evolves lastHit game'
    /\ dealt "b" lastHit game' [mkCard RK Diamonds]
         [mkCard R4 Clubs; mkCard R9 Diamonds]
    /\ deck game' = [mkCard R7 Hearts]
    /\ gameOver game' = true.
Proof.
  destruct (handleHit "game-a-b" "b" [("game-a-b", lastHit)])
    as [games'|] eqn:Hrun; [|vm_compute in Hrun; discriminate Hrun].
  destruct (action_only_adds [("game-a-b", lastHit)] games' "game-a-b" "b"
              (or_introl Hrun))
    as [(game & game' & toPlayer & toDealer & Hget & Hget' & Hev & Hd) _].
  assert (Hgame : game = lastHit) by (simpl in Hget; congruence).
  subst game.
  vm_compute in Hrun. injection Hrun as <-.
  simpl in Hget'. injection Hget' as <-.
  pose proof (dealt_actor _ _ _ _ _ Hd) as Hactor.
  vm_compute in Hactor. destruct Hactor as [Hhand _].
  injection Hhand as <-.
  pose proof (dealt_dealer_hand _ _ _ _ _ Hd) as Hdealer.
  vm_compute in Hdealer. injection Hdealer as <-.
  eexists. split; [reflexivity|]. split; [exact Hev|].
  split; [exact Hd|]. split; reflexivity.
Defined.

(** ** Scores, flags and chips *)

Lemma consistent_same g g' :
  seats g' = seats g -> dealer g' = dealer g -> consistent g -> consistent g'.
Proof.
  intros Hs Hd [Hseats Hdealer Hcards]. split; rewrite ?Hs, ?Hd; assumption.
Qed.

Lemma consistent_setSeat g playerId player' deck' msg :
  consistent g -> scoredSeat player' -> Player.chips player' = 1000 ->
  (2 <= length (Player.hand player'))%nat ->
  consistent (setMessage msg (setSeat playerId player' (setDeck deck' g))).
Proof.
  intros [Hseats Hdealer Hcards] Hsc Hch Hlen. split; cbn; try assumption.
  intros id p. destruct (decide (id = playerId)) as [->|Hne].
  - rewrite lookup_insert_eq. intros [= <-]. auto.
  - rewrite lookup_insert_ne by congruence. apply Hseats.
Qed.

Lemma Room_handleDealerTurn_consistent g g' :
  Room.handleDealerTurn g = Some g' -> consistent g -> consistent g'.
Proof.
  intros Hrun [Hseats [Hscore Hbust] Hcards].
  apply Room_handleDealerTurn_inv in Hrun
    as (drawn & msg & -> & _ & Hstop & Hhit).
  split; cbn; [assumption| |rewrite length_app; lia].
  split; cbn; [reflexivity|].
  destruct (Z.gtb_spec (calculateHandTotal (Dealer.hand (dealer g) ++ drawn))
              21) as [Hgt|Hle]; [tauto|].
  destruct (Dealer.isBusted (dealer g)); [|split; [discriminate|lia]].
  exfalso. assert (Hold : 21 < Dealer.score (dealer g)) by now apply Hbust.
  rewrite Hscore in Hold. destruct drawn as [|c drawn].
  - rewrite app_nil_r in Hle. lia.
  - specialize (Hhit O ltac:(simpl; lia)). simpl in Hhit.
    rewrite app_nil_r in Hhit. lia.
Qed.

Lemma Room_advanceTurn_consistent g g' :
  Room.advanceTurn g = Some g' -> consistent g -> consistent g'.
Proof.
  intros H Hc. apply Room_advanceTurn_inv in H
    as [(i & id & ->)|(i & g1 & m & t & Hrun & ->)].
  - now apply (consistent_same g).
  - apply (consistent_same g1); [reflexivity|reflexivity|].
    apply (Room_handleDealerTurn_consistent _ _ Hrun).
    now apply (consistent_same g).
Qed.

Lemma Room_handleHit_consistent playerId g g' :
  Room.handleHit playerId g = Some g' -> consistent g -> consistent g'.
Proof.
  unfold Room.handleHit. intros H Hc.
  destruct (negb _); [now injection H as <-|].
  destruct (seats g !! playerId) as [player|] eqn:Hseat;
    cbn [mbind option_bind] in H; [|discriminate].
  destruct (Player.isStanding player || Player.isBusted player) eqn:Hex;
    [now injection H as <-|].
  destruct (pop (deck g)) as [[c d]|] eqn:Hpop;
    cbn [mbind option_bind] in H; [|discriminate].
  apply orb_false_iff in Hex as [Hst Hb].
  destruct (cons_seats _ Hc _ _ Hseat) as (_ & Hchips & Hlen).
  destruct (Z.gtb_spec (calculateHandTotal (Player.hand player ++ [c])) 21)
    as [Hgt|Hle].
  - apply (Room_advanceTurn_consistent _ _ H).
    apply consistent_setSeat; cbn; try assumption.
    + split; cbn; [reflexivity|tauto].
    + rewrite length_app. lia.
  - injection H as <-. apply consistent_setSeat; cbn; try assumption.
    + split; cbn; [reflexivity|]. rewrite Hb. split; [discriminate|lia].
    + rewrite length_app. lia.
Qed.

Lemma Room_handleStand_consistent playerId g g' :
  Room.handleStand playerId g = Some g' -> consistent g -> consistent g'.
Proof.
  unfold Room.handleStand. intros H Hc.
  destruct (negb _); [now injection H as <-|].
  destruct (seats g !! playerId) as [player|] eqn:Hseat;
    cbn [mbind option_bind] in H; [|discriminate].
  destruct (Player.isStanding player || Player.isBusted player) eqn:Hex;
    [now injection H as <-|].
  destruct (cons_seats _ Hc _ _ Hseat) as (Hsc & Hchips & Hlen).
  apply (Room_advanceTurn_consistent _ _ H).
  replace (setSeat playerId _ g)
    with (setSeat playerId
            (Player.mk (Player.hand player) (Player.score player) true
               (Player.isBusted player) (Player.chips player))
            (setDeck (deck g) g)) by now destruct g.
  apply consistent_setSeat; cbn; assumption.
Qed.

(** The game [initializeGame] builds, card by card. *)
Lemma initializeGame_shape rnd id1 id2 :
  exists c1 c2 c3 c4 c5 c6 d,
    shuffleDeck rnd createDeck = d ++ [c6; c5; c4; c3; c2; c1]
    /\ length d = 46%nat
    /\ initializeGame rnd id1 id2
       = Some (mkGame d [id1; id2]
                 (<[id2 := Player.mk [c2; c5] (calculateHandTotal [c2; c5])
                             false false 1000]>
                    (<[id1 := Player.mk [c1; c4] (calculateHandTotal [c1; c4])
                                false false 1000]> ∅))
                 (Dealer.mk [c3; c6] (calculateHandTotal [c3; c6]) false)
                 id1 [id1; id2; "dealer"] 0
                 "Game started! Player 1's turn." false "" "").
Proof.
  pose proof (shuffleDeck_Permutation rnd createDeck) as Hperm.
  pose proof (Permutation_length Hperm) as Hlen.
  rewrite createDeck_length, <- length_rev in Hlen.
  destruct (rev (shuffleDeck rnd createDeck))
    as [|c1 [|c2 [|c3 [|c4 [|c5 [|c6 r]]]]]] eqn:Hrev; try discriminate.
  apply (f_equal (@rev Card)) in Hrev.
  rewrite rev_involutive in Hrev. simpl in Hrev.
  exists c1, c2, c3, c4, c5, c6, (rev r).
  split; [rewrite Hrev; now rewrite <- !app_assoc|].
  split; [rewrite length_rev; simpl in Hlen; lia|].
  unfold initializeGame. cbv zeta. rewrite Hrev.
  repeat (rewrite pop_snoc; cbn [mbind option_bind]). reflexivity.
Qed.

Lemma initializeGame_consistent rnd id1 id2 g :
  initializeGame rnd id1 id2 = Some g -> consistent g.
Proof.
  destruct (initializeGame_shape rnd id1 id2)
    as (c1 & c2 & c3 & c4 & c5 & c6 & d & _ & _ & ->).
  intros [= <-].
  assert (Hpair : forall a b,
             scoredSeat (Player.mk [a; b] (calculateHandTotal [a; b])
                           false false 1000)).
  { intros a b. pose proof (calculateHandTotal_pair a b).
    split; cbn [Player.score Player.hand Player.isBusted]; [reflexivity|].
    split; [discriminate|lia]. }
  split; cbn [seats dealer].
  - intros id p Hp.
    destruct (decide (id = id2)) as [->|Hne2].
    + rewrite lookup_insert_eq in Hp. injection Hp as <-.
      split; [apply Hpair|]. split; [reflexivity|simpl; lia].
    + rewrite lookup_insert_ne in Hp by congruence.
      destruct (decide (id = id1)) as [->|Hne1].
      * rewrite lookup_insert_eq in Hp. injection Hp as <-.
        split; [apply Hpair|]. split; [reflexivity|simpl; lia].
      * rewrite lookup_insert_ne, lookup_empty in Hp by congruence.
        discriminate.
  - pose proof (calculateHandTotal_pair c3 c6).
    split; cbn [Dealer.score Dealer.hand Dealer.isBusted]; [reflexivity|].
    split; [discriminate|lia].
  - simpl. lia.
Qed.

Lemma onGame_Forall (P : Game -> Prop) gameRoomId body (o o' : Store) :
  (forall g g', P g -> body g = Some g' -> P g') ->
  Forall (fun rg => P (snd rg)) o ->
  onGame gameRoomId body o = Some o' -> Forall (fun rg => P (snd rg)) o'.
Proof.
  intros Hbody Hall H.
  destruct (onGame_inv _ _ _ _ H) as (g & g' & Hget & Hrun & ->).
  apply objSet_Forall; [|assumption]. cbn. apply (Hbody g); [|assumption].
  apply objGet_elem in Hget. rewrite Forall_forall in Hall.
  now apply (Hall (gameRoomId, g)).
Qed.

Lemma reachable_consistent s :
  reachable s -> Forall (fun rg => consistent (snd rg)) (activeGames s).
Proof.
  induction 1 as [|s i s' events _ IH Hid Hrun]; [constructor|].
  destruct i as [rnd sid|sid|sid|r sid action]; simpl in Hrun.
  - unfold requestMatch in Hrun.
    destruct (matchmakingQueue s ++ [sid]) as [|id1 [|id2 q]];
      try (now injection Hrun as <- _).
    bind_cases Hrun. injection Hrun as <- _. cbn.
    apply objSet_Forall; [|assumption]. cbn.
    now apply (initializeGame_consistent rnd id1 id2).
  - unfold cancelMatchmaking in Hrun. now injection Hrun as <- _.
  - unfold disconnect in Hrun.
    destruct (firstGameOf sid (activeGames s)) as [[roomId game]|];
      injection Hrun as <- _; cbn; [now apply objDelete_Forall|assumption].
  - destruct (playerAction_games _ _ _ _ _ _ Hrun)
      as [->|(room & games' & -> & -> & Hact)]; [assumption|]. cbn.
    destruct Hact as [Hact|[Hact| ->]]; [| |assumption].
    + apply (onGame_Forall consistent room (Room.handleHit sid)
               (activeGames s)); [|assumption|exact Hact].
      intros g g' Hg Hbody. now apply (Room_handleHit_consistent sid g).
    + apply (onGame_Forall consistent room (Room.handleStand sid)
               (activeGames s)); [|assumption|exact Hact].
      intros g g' Hg Hbody. now apply (Room_handleStand_consistent sid g).
Qed.

(** X8: in every state the server reaches, every seat of every session
    has a stored score equal to the total of the hand it holds, is marked
    busted exactly when that score exceeds 21, holds at least two cards
    and has 1000 chips; the dealer's stored score and busted mark agree
    with the dealer's hand in the same way, and the dealer holds at least
    two cards. *)
Theorem scores_and_chips (s : Server) (gameRoomId : string) (game : Game) :
  reachable s -> objGet gameRoomId (activeGames s) = Some game ->
  (forall id player, seats game !! id = Some player ->
     Player.score player = calculateHandTotal (Player.hand player)
     /\ (Player.isBusted player = true <-> 21 < Player.score player)
     /\ Player.chips player = 1000
     /\ (2 <= length (Player.hand player))%nat)
  /\ Dealer.score (dealer game) = calculateHandTotal (Dealer.hand (dealer game))
  /\ (Dealer.isBusted (dealer game) = true <-> 21 < Dealer.score (dealer game))
  /\ (2 <= length (Dealer.hand (dealer game)))%nat.
Proof.
  intros Hreach Hget. pose proof (reachable_consistent _ Hreach) as Hall.
  rewrite Forall_forall in Hall.
  destruct (Hall _ (objGet_elem _ _ _ Hget)) as [Hseats [Hscore Hbust] Hcards].
  split; [|split; [exact Hscore|split; [exact Hbust|exact Hcards]]].
  intros id player Hp. destruct (Hseats id player Hp) as ([Hs Hb] & Hc & Hl).
  split; [exact Hs|split; [exact Hb|split; [exact Hc|exact Hl]]].
Qed.

Lemma scores_and_chips_witness :
  Dealer.score (dealer dealtGame)
  = calculateHandTotal (Dealer.hand (dealer dealtGame)).
Proof.
  exact (proj1 (proj2 (scores_and_chips matched "game-a-b" dealtGame
                         reachable_matched eq_refl))).
Defined.

(** ** The two views of a game *)

Lemma otherThan_second id1 id2 :
  id1 <> id2 -> otherThan id2 [id1; id2] = Some id1.
Proof.
  intros Hne. unfold otherThan. simpl.
  destruct (String.eqb_spec id1 id2); [contradiction|reflexivity].
Qed.

Lemma otherThan_first id1 id2 :
  id1 <> id2 -> otherThan id1 [id1; id2] = Some id2.
Proof.
  intros Hne. unfold otherThan. simpl. rewrite String.eqb_refl. simpl.
  destruct (String.eqb_spec id2 id1); [congruence|reflexivity].
Qed.

Lemma getGameStateForPlayer_pair g id1 id2 p1 p2 upCard :
  players g = [id1; id2] -> id1 <> id2 ->
  seats g !! id1 = Some p1 -> seats g !! id2 = Some p2 ->
  Dealer.hand (dealer g) !! 0%nat = Some upCard ->
  getGameStateForPlayer g id1 = Some (viewOf g id1 id2 p1 p2 upCard)
  /\ getGameStateForPlayer g id2 = Some (viewOf g id2 id1 p2 p1 upCard).
Proof.
  intros Hp Hne Hs1 Hs2 Hup. unfold getGameStateForPlayer.
  rewrite Hp, Hs1, Hs2. cbn [mbind option_bind].
  rewrite (otherThan_first _ _ Hne), (otherThan_second _ _ Hne).
  cbn [mbind option_bind]. rewrite Hs1, Hs2. cbn [mbind option_bind].
  rewrite Hup. split; reflexivity.
Qed.

(** X9: in a game of two distinct seated players with a dealer card on
    the table, both projections succeed and mirror each other: each
    player is shown the own seat in full and, of the opponent, the whole
    hand, the score and both flags, exactly as the opponent is shown
    them as own; the two views agree on the dealer, the turn, the message
    and the outcome fields. *)
Theorem views_mirror (game : Game) (id1 id2 : string) (p1 p2 : Player.t) :
  players game = [id1; id2] -> id1 <> id2 ->
  seats game !! id1 = Some p1 -> seats game !! id2 = Some p2 ->
  Dealer.hand (dealer game) <> [] ->
  exists v1 v2,
    getGameStateForPlayer game id1 = Some v1
    /\ getGameStateForPlayer game id2 = Some v2
    /\ View.playerState v1
       = PlayerView.mk id1 (Player.hand p1) (Player.score p1)
           (Player.isStanding p1) (Player.isBusted p1) (Player.chips p1)
    /\ View.opponentState v2
       = OpponentView.mk id1 (Player.hand p1) (Player.score p1) false
           (Player.isStanding p1) (Player.isBusted p1)
    /\ View.playerState v2
       = PlayerView.mk id2 (Player.hand p2) (Player.score p2)
           (Player.isStanding p2) (Player.isBusted p2) (Player.chips p2)
    /\ View.opponentState v1
       = OpponentView.mk id2 (Player.hand p2) (Player.score p2) false
           (Player.isStanding p2) (Player.isBusted p2)
    /\ View.dealerState v1 = View.dealerState v2
    /\ View.currentTurn v1 = View.currentTurn v2
    /\ View.message v1 = View.message v2
    /\ View.gameOver v1 = View.gameOver v2
    /\ View.gameOverMessage v1 = View.gameOverMessage v2
    /\ View.gameOverType v1 = View.gameOverType v2.
Proof.
  intros Hp Hne Hs1 Hs2 Hd.
  destruct (Dealer.hand (dealer game)) as [|up rest] eqn:Hhand;
    [contradiction|].
  destruct (getGameStateForPlayer_pair game id1 id2 p1 p2 up Hp Hne Hs1 Hs2)
    as [Hv1 Hv2]; [now rewrite Hhand|].
  eexists _, _. split; [exact Hv1|]. split; [exact Hv2|].
  repeat split.
Qed.

Lemma views_mirror_witness :
  exists v1 v2,
    getGameStateForPlayer dealtGame "a" = Some v1
    /\ getGameStateForPlayer dealtGame "b" = Some v2
    /\ OpponentView.hand (View.opponentState v2)
       = PlayerView.hand (View.playerState v1).
Proof.
  destruct (views_mirror dealtGame "a" "b"
              (Player.mk [mkCard R2 Hearts; mkCard RQ Spades] 12
                 false false 1000)
              (Player.mk [mkCard RA Spades; mkCard RJ Spades] 21
                 false false 1000)
              eq_refl ltac:(discriminate) eq_refl eq_refl ltac:(discriminate))
    as (v1 & v2 & H1 & H2 & Hown & Hopp & _).
  exists v1, v2. split; [exact H1|]. split; [exact H2|].
  now rewrite Hown, Hopp.
Defined.

(** ** Matchmaking *)

Lemma requestMatch_two rnd socketId s player1Id player2Id queue :
  matchmakingQueue s ++ [socketId] = player1Id :: player2Id :: queue ->
  player1Id <> player2Id ->
  exists game view1 view2,
    initializeGame rnd player1Id player2Id = Some game
    /\ getGameStateForPlayer game player1Id = Some view1
    /\ getGameStateForPlayer game player2Id = Some view2
    /\ requestMatch rnd socketId s
       = Some (mkServer queue
                 (objSet ("game-" +:+ player1Id +:+ "-" +:+ player2Id)
                    game (activeGames s)),
               matchEvents player1Id player2Id view1 view2)
    /\ players game = [player1Id; player2Id]
    /\ currentTurn game = player1Id
    /\ length (deck game) = 46%nat
    /\ gameOver game = false.
Proof.
  intros Hq Hne. unfold requestMatch. rewrite Hq.
  destruct (initializeGame_shape rnd player1Id player2Id)
    as (c1 & c2 & c3 & c4 & c5 & c6 & d & _ & Hlen & Hinit).
  rewrite Hinit. cbn [mbind option_bind].
  match goal with
  | |- context [getGameStateForPlayer ?g player1Id] =>
      destruct (getGameStateForPlayer_pair g player1Id player2Id
                  (Player.mk [c1; c4] (calculateHandTotal [c1; c4])
                     false false 1000)
                  (Player.mk [c2; c5] (calculateHandTotal [c2; c5])
                     false false 1000) c3 eq_refl Hne)
        as [Hv1 Hv2];
      [cbn [seats]; rewrite lookup_insert_ne by congruence;
         apply lookup_insert_eq
      |cbn [seats]; apply lookup_insert_eq
      |reflexivity|]
  end.
  rewrite Hv1, Hv2. cbn [mbind option_bind].
  eexists _, _, _. split; [reflexivity|]. split; [exact Hv1|].
  split; [exact Hv2|]. split; [reflexivity|].
  split; [reflexivity|]. split; [reflexivity|]. split; [exact Hlen|].
  reflexivity.
Qed.

Lemma requestMatch_self rnd socketId s playerId queue :
  matchmakingQueue s ++ [socketId] = playerId :: playerId :: queue ->
  requestMatch rnd socketId s = None.
Proof.
  intros Hq. unfold requestMatch. rewrite Hq.
  destruct (initializeGame rnd playerId playerId) as [g|] eqn:Hinit;
    cbn [mbind option_bind]; [|reflexivity].
  destruct (getGameStateForPlayer g playerId) as [v|] eqn:Hv;
    cbn [mbind option_bind]; [|reflexivity].
  exfalso. apply getGameStateForPlayer_opponent in Hv as [o Ho].
  rewrite (initializeGame_players _ _ _ _ Hinit) in Ho.
  apply otherThan_pair in Ho as [Hne _]. congruence.
Qed.

(** X10: [requestMatch] appends the sender to the queue and pairs the two
    oldest entries.  With nobody waiting the sender is queued alone,
    nothing is sent and no session is touched; with two distinct oldest
    entries a freshly dealt game (46 cards left, first entry to act) is
    stored under [game-first-second], both leave the queue, and each is
    sent [matchFound] naming the other and then the own view; when the
    two oldest entries are the same connection the handler throws. *)
Theorem requestMatch_pairs (rnd : nat -> nat) (socketId : string)
    (s : Server) :
  (matchmakingQueue s = [] ->
   requestMatch rnd socketId s
   = Some (mkServer [socketId] (activeGames s), []))
  /\ (forall player1Id player2Id queue,
        matchmakingQueue s ++ [socketId] = player1Id :: player2Id :: queue ->
        player1Id <> player2Id ->
        exists game view1 view2,
          initializeGame rnd player1Id player2Id = Some game
          /\ getGameStateForPlayer game player1Id = Some view1
          /\ getGameStateForPlayer game player2Id = Some view2
          /\ requestMatch rnd socketId s
             = Some (mkServer queue
                       (objSet ("game-" +:+ player1Id +:+ "-" +:+ player2Id)
                          game (activeGames s)),
                     matchEvents player1Id player2Id view1 view2)
          /\ players game = [player1Id; player2Id]
          /\ currentTurn game = player1Id
          /\ length (deck game) = 46%nat
          /\ gameOver game = false)
  /\ (forall playerId queue,
        matchmakingQueue s ++ [socketId] = playerId :: playerId :: queue ->
        requestMatch rnd socketId s = None).
Proof.
  split; [|split].
  - intros Hq. unfold requestMatch. rewrite Hq. reflexivity.
  - intros id1 id2 queue Hq Hne. now apply requestMatch_two.
  - intros id queue Hq. now apply requestMatch_self with id queue.
Qed.

Lemma run_cons i rest s s' s'' events events' :
  handle i s = Some (s', events) -> run rest s' = Some (s'', events') ->
  run (i :: rest) s = Some (s'', events ++ events').
Proof.
  intros H1 H2. cbn [run]. rewrite H1. cbn [mbind option_bind].
  rewrite H2. reflexivity.
Qed.

Lemma handle_requestMatch rnd socketId s :
  handle (RequestMatch rnd socketId) s = requestMatch rnd socketId s.
Proof. reflexivity. Qed.

(** X11: a connection, a different one and then any third asking for a
    match one after the other on a fresh server, whatever the shuffles:
    the first two are paired in one session named after them, in the
    order they asked, and the third is left alone in the queue. *)
Theorem matchmaking_fifo (rnd1 rnd2 rnd3 : nat -> nat) (a b c : string) :
  a <> b ->
  exists s events game,
    run [RequestMatch rnd1 a; RequestMatch rnd2 b; RequestMatch rnd3 c] start
      = Some (s, events)
    /\ matchmakingQueue s = [c]
    /\ activeGames s = [("game-" +:+ a +:+ "-" +:+ b, game)]
    /\ players game = [a; b]
    /\ currentTurn game = a.
Proof.
  intros Hab.
  destruct (requestMatch_two rnd2 b (mkServer [a] []) a b [] eq_refl Hab)
    as (game & v1 & v2 & _ & _ & _ & Hrun & Hp & Hct & _).
  exists (mkServer [c] [("game-" +:+ a +:+ "-" +:+ b, game)]).
  eexists _, game. split; [|repeat split; assumption].
  eapply run_cons; [reflexivity|].
  eapply run_cons; [rewrite handle_requestMatch; exact Hrun|].
  eapply run_cons; [reflexivity|]. reflexivity.
Qed.

Lemma matchmaking_fifo_witness :
  exists s events game,
    run [RequestMatch rnd0 "a"; RequestMatch rnd0 "b"; RequestMatch rnd0 "c"]
      start = Some (s, events)
    /\ matchmakingQueue s = ["c"]
    /\ activeGames s = [("game-a-b", game)].
Proof.
  destruct (matchmaking_fifo rnd0 rnd0 rnd0 "a" "b" "c" ltac:(discriminate))
    as (s & events & game & Hrun & Hq & Hstore & _).
  exists s, events, game. split; [exact Hrun|]. split; [exact Hq|exact Hstore].
Defined.

(** ** The playerAction handler *)


Lemma served_views g :
  wf_game g -> consistent g ->
  exists id1 id2 v1 v2,
    players g = [id1; id2] /\ id1 <> id2
    /\ getGameStateForPlayer g id1 = Some v1
    /\ getGameStateForPlayer g id2 = Some v2.
Proof.
  intros (id1 & id2 & p1 & p2 & H) Hc.
  pose proof (cons_dealer_cards _ Hc) as Hlen.
  destruct (Dealer.hand (dealer g)) as [|up rest] eqn:Hhand;
    [simpl in Hlen; lia|].
  destruct (getGameStateForPlayer_pair g id1 id2 p1 p2 up
              (seated_players _ _ _ _ _ H) (seated_distinct _ _ _ _ _ H)
              (seated_seat1 _ _ _ _ _ H) (seated_seat2 _ _ _ _ _ H))
    as [Hv1 Hv2]; [now rewrite Hhand|].
  exists id1, id2; eexists _, _. split; [apply (seated_players _ _ _ _ _ H)|].
  split; [apply (seated_distinct _ _ _ _ _ H)|]. split; eassumption.
Qed.

(** What [playerActionOn] does once the action has been applied: an
    update to each player and, when the round is over, the final event. *)
Lemma playerAction_broadcast room sid action s game games' g' id1 id2 v1 v2 :
  objGet room (activeGames s) = Some game -> currentTurn game = sid ->
  (if String.eqb action "hit" then handleHit room sid (activeGames s)
   else if String.eqb action "stand" then handleStand room sid (activeGames s)
   else Some (activeGames s)) = Some games' ->
  objGet room games' = Some g' -> players g' = [id1; id2] ->
  getGameStateForPlayer g' id1 = Some v1 ->
  getGameStateForPlayer g' id2 = Some v2 ->
  playerActionOn (Some room) sid action s
  = Some (mkServer (matchmakingQueue s) games',
          [emit id1 "pvpGameUpdate" (GameUpdate v1);
           emit id2 "pvpGameUpdate" (GameUpdate v2)]
          ++ if gameOver g'
             then [emit room "pvpGameOver"
                     (GameOver (gameOverMessage g') (gameOverType g')
                        (Some v1))]
             else []).
Proof.
  intros Hget Hct Hact Hget' Hp Hv1 Hv2. unfold playerActionOn.
  rewrite Hget, Hct, String.eqb_refl. cbn [negb]. rewrite Hact.
  cbn [mbind option_bind]. rewrite Hget'. cbn [mbind option_bind].
  rewrite Hp. cbn [lookup list_lookup mbind option_bind].
  rewrite Hv1. cbn [mbind option_bind]. rewrite Hv2.
  cbn [mbind option_bind]. destruct (gameOver g'); reflexivity.
Qed.

Lemma playerAction_turn_holder s room sid action game :
  reachable s -> connectionId sid ->
  objGet room (activeGames s) = Some game -> currentTurn game = sid ->
  exists games' g' id1 id2 v1 v2,
    (if String.eqb action "hit" then handleHit room sid (activeGames s)
     else if String.eqb action "stand"
          then handleStand room sid (activeGames s)
          else Some (activeGames s)) = Some games'
    /\ objGet room games' = Some g'
    /\ players g' = [id1; id2]
    /\ getGameStateForPlayer g' id1 = Some v1
    /\ getGameStateForPlayer g' id2 = Some v2.
Proof.
  intros Hreach Hsid Hget Hct.
  pose proof (wf_server_game _ _ _ (reachable_served _ Hreach) Hget) as Hwf.
  pose proof (reachable_consistent _ Hreach) as Hall.
  rewrite Forall_forall in Hall.
  pose proof (Hall _ (objGet_elem _ _ _ Hget)) as Hc. cbn in Hc.
  destruct (Room_action_served game sid Hwf (connectionId_not_dealer _ Hsid))
    as [(gh & Hrunh & Hwfh & _) (gs & Hruns & Hwfs & _)].
  destruct (String.eqb action "hit"); [|destruct (String.eqb action "stand")].
  - destruct (served_views gh Hwfh
                (Room_handleHit_consistent _ _ _ Hrunh Hc))
      as (id1 & id2 & v1 & v2 & Hp & _ & Hv1 & Hv2).
    exists (objSet room gh (activeGames s)), gh, id1, id2, v1, v2.
    split; [now apply (onGame_result _ _ _ game)|].
    split; [apply objGet_objSet|]. now repeat split.
  - destruct (served_views gs Hwfs
                (Room_handleStand_consistent _ _ _ Hruns Hc))
      as (id1 & id2 & v1 & v2 & Hp & _ & Hv1 & Hv2).
    exists (objSet room gs (activeGames s)), gs, id1, id2, v1, v2.
    split; [now apply (onGame_result _ _ _ game)|].
    split; [apply objGet_objSet|]. now repeat split.
  - destruct (served_views game Hwf Hc)
      as (id1 & id2 & v1 & v2 & Hp & _ & Hv1 & Hv2).
    exists (activeGames s), game, id1, id2, v1, v2. now repeat split.
Qed.

(** ** The server as it runs *)

Lemma playerAction_nothing rooms socketId action s :
  playerAction rooms socketId action s = Some (s, []).
Proof. reflexivity. Qed.

Lemma running_reachable s : running s -> reachable s.
Proof.
  induction 1 as [|s rnd sid s' events _ IH Hid Hrun
                  |s sid s' events _ IH Hid Hrun
                  |s sid s' events _ IH Hid Hrun
                  |s rooms sid action s' events _ IH Hid Hrun].
  - apply reachable_start.
  - now apply (reachable_handle s (RequestMatch rnd sid) s' events).
  - now apply (reachable_handle s (CancelMatchmaking sid) s' events).
  - now apply (reachable_handle s (Disconnect sid) s' events).
  - now apply (reachable_handle s (PlayerAction None sid action) s' events).
Qed.

Lemma running_asDealt s : running s -> Forall asDealt (activeGames s).
Proof.
  induction 1 as [|s rnd sid s' events _ IH Hid Hrun
                  |s sid s' events _ IH Hid Hrun
                  |s sid s' events _ IH Hid Hrun
                  |s rooms sid action s' events _ IH Hid Hrun].
  - constructor.
  - pose proof Hrun as Hrun'. unfold requestMatch in Hrun.
    destruct (matchmakingQueue s ++ [sid]) as [|id1 [|id2 q]] eqn:Hq;
      try (now injection Hrun as <- _).
    destruct (decide (id1 = id2)) as [->|Hne].
    { rewrite (requestMatch_self rnd sid s id2 q Hq) in Hrun'.
      discriminate. }
    destruct (initializeGame rnd id1 id2) as [g|] eqn:Hinit;
      cbn [mbind option_bind] in Hrun; [|discriminate].
    bind_cases Hrun. injection Hrun as <- _. cbn.
    apply objSet_Forall; [|assumption]. now exists rnd, id1, id2.
  - unfold cancelMatchmaking in Hrun. now injection Hrun as <- _.
  - unfold disconnect in Hrun.
    destruct (firstGameOf sid (activeGames s)) as [[roomId game]|];
      injection Hrun as <- _; cbn; [now apply objDelete_Forall|assumption].
  - rewrite playerAction_nothing in Hrun. now injection Hrun as <- _.
Qed.

(** X13: on the server as it runs, where a [playerAction] goes on with
    the room its handler finds, no game ever leaves the deal.  Every
    state is one of the reachable states, and every session stored is
    exactly a game [initializeGame] returned for the two distinct
    connections its room is named after, whatever actions were sent
    since: the first of the two is to act, the turn index is 0, 46 cards
    are in the deck and the round is not over. *)
Theorem running_games_as_dealt (s : Server) (gameRoomId : string)
    (game : Game) :
  running s -> objGet gameRoomId (activeGames s) = Some game ->
  reachable s
  /\ exists rnd id1 id2,
       id1 <> id2
       /\ gameRoomId = "game-" +:+ id1 +:+ "-" +:+ id2
       /\ initializeGame rnd id1 id2 = Some game
       /\ players game = [id1; id2]
       /\ currentTurn game = id1 /\ turnIndex game = 0%nat
       /\ length (deck game) = 46%nat
       /\ gameOver game = false.
Proof.
  intros Hrun Hget. split; [now apply running_reachable|].
  pose proof (running_asDealt _ Hrun) as Hall. rewrite Forall_forall in Hall.
  destruct (Hall _ (objGet_elem _ _ _ Hget))
    as (rnd & id1 & id2 & Hne & Hname & Hinit).
  cbn [fst snd] in Hname, Hinit.
  exists rnd, id1, id2. split; [exact Hne|]. split; [exact Hname|].
  split; [exact Hinit|].
  destruct (initializeGame_shape rnd id1 id2)
    as (c1 & c2 & c3 & c4 & c5 & c6 & d & _ & Hlen & Hshape).
  rewrite Hshape in Hinit. injection Hinit as <-. cbn.
  repeat split. exact Hlen.
Qed.

(** [a] and [b] are matched, [a] sends a stand and [b] a hit. *)
Lemma running_matched : running matched.
Proof.
  assert (H1 : requestMatch rnd0 "a" start = Some (mkServer ["a"] [], []))
    by reflexivity.
  assert (H2 : exists events,
             requestMatch rnd0 "b" (mkServer ["a"] [])
             = Some (matched, events)).
  { vm_compute. eexists. reflexivity. }
  destruct H2 as [events H2].
  apply (running_playerAction matched ["b"; "game-a-b"] "b" "hit" matched []);
    [|exact connectionId_b|reflexivity].
  apply (running_playerAction matched ["a"; "game-a-b"] "a" "stand" matched []);
    [|exact connectionId_a|reflexivity].
  apply (running_requestMatch _ rnd0 "b" _ events
           (running_requestMatch _ rnd0 "a" _ []
              running_start connectionId_a H1)
           connectionId_b H2).
Qed.

Lemma running_games_as_dealt_witness :
  playerAction ["a"; "game-a-b"] "a" "stand" matched = Some (matched, [])
  /\ exists rnd id1 id2,
       id1 <> id2
       /\ initializeGame rnd id1 id2 = Some dealtGame
       /\ currentTurn dealtGame = id1
       /\ gameOver dealtGame = false.
Proof.
  split; [reflexivity|].
  destruct (running_games_as_dealt matched "game-a-b" dealtGame
              running_matched eq_refl)
    as (_ & rnd & id1 & id2 & Hne & _ & Hinit & _ & Hturn & _ & _ & Hover).
  exists rnd, id1, id2. split; [exact Hne|]. split; [exact Hinit|].
  split; [exact Hturn|exact Hover].
Defined.

(** ** What can make a handler throw *)

(** X14: in every state the server reaches, an event raised by a
    connection makes its handler throw in one case only: a match request
    from the connection that is itself the one waiting in the queue.
    Cancelling, disconnecting and every player action return. *)
Theorem handler_throws_only_on_self_pairing (s : Server) (i : Input) :
  reachable s -> connectionId (sender i) ->
  handle i s = None
  <-> exists rnd, i = RequestMatch rnd (sender i)
                  /\ matchmakingQueue s = [sender i].
Proof.
  intros Hreach Hid. pose proof (reachable_served _ Hreach) as Hwf.
  destruct i as [rnd sid|sid|sid|r sid action]; cbn [handle sender] in *.
  - pose proof (wf_queue_short _ Hwf) as Hlen.
    destruct (matchmakingQueue s) as [|w [|? ?]] eqn:Hq; [| |simpl in Hlen; lia].
    + unfold requestMatch. rewrite Hq. cbn [app].
      split; [discriminate|]. intros (rnd' & _ & H). discriminate.
    + destruct (String.eqb_spec w sid) as [->|Hne].
      * rewrite (requestMatch_self rnd sid s sid []) by now rewrite Hq.
        split; [|reflexivity]. intros _. now exists rnd.
      * destruct (requestMatch_two rnd sid s w sid []) as
          (g & v1 & v2 & _ & _ & _ & -> & _); [now rewrite Hq|assumption|].
        split; [discriminate|]. intros (rnd' & _ & [= H]). congruence.
  - unfold cancelMatchmaking. split; [discriminate|].
    intros (rnd & H & _). discriminate.
  - unfold disconnect.
    split; [|intros (rnd & H & _); discriminate].
    destruct (firstGameOf sid (activeGames s)) as [[? ?]|]; discriminate.
  - split; [|intros (rnd & H & _); discriminate].
    destruct r as [room|];
      [|discriminate].
    destruct (objGet room (activeGames s)) as [game|] eqn:Hget.
    + destruct (String.eqb_spec (currentTurn game) sid) as [Hct|Hne].
      * destruct (playerAction_turn_holder s room sid action game
                    Hreach Hid Hget Hct)
          as (games' & g' & id1 & id2 & v1 & v2 & Hact & Hget' & Hp & Hv1
              & Hv2).
        rewrite (playerAction_broadcast _ _ _ _ game games' g' id1 id2 v1 v2)
          by assumption.
        discriminate.
      * unfold playerActionOn. rewrite Hget.
        apply String.eqb_neq in Hne. rewrite Hne. discriminate.
    + unfold playerActionOn. rewrite Hget. discriminate.
Qed.

Lemma reachable_waiting : reachable (mkServer ["a"] []).
Proof.
  apply (reachable_handle start (RequestMatch rnd0 "a") _ []
           reachable_start connectionId_a).
  reflexivity.
Qed.

Lemma handler_throws_only_on_self_pairing_witness :
  handle (RequestMatch rnd0 "a") (mkServer ["a"] []) = None.
Proof.
  apply (proj2 (handler_throws_only_on_self_pairing (mkServer ["a"] [])
                  (RequestMatch rnd0 "a") reachable_waiting connectionId_a)).
  exists rnd0. split; reflexivity.
Defined.

(** ** Cancelling *)

Lemma removeFirst_absent sid q : sid ∉ q -> removeFirst sid q = q.
Proof.
  induction q as [|x q IH]; simpl; [reflexivity|]. intros Hnot.
  apply not_elem_of_cons in Hnot as [Hne Hnot].
  destruct (String.eqb_spec x sid); [congruence|]. now rewrite IH.
Qed.

Lemma removeFirst_present sid q :
  sid ∈ q ->
  exists before after,
    q = before ++ sid :: after /\ (sid ∉ before)
    /\ removeFirst sid q = before ++ after.
Proof.
  induction q as [|x q IH]; simpl; intros Hin;
    [now apply elem_of_nil in Hin|].
  destruct (String.eqb_spec x sid) as [->|Hne].
  - exists [], q. split; [reflexivity|]. split; [apply not_elem_of_nil|].
    reflexivity.
  - apply elem_of_cons in Hin as [Heq|Hin]; [congruence|].
    destruct (IH Hin) as (before & after & -> & Hnot & ->).
    exists (x :: before), after. split; [reflexivity|].
    split; [|reflexivity]. apply not_elem_of_cons. split; congruence.
Qed.

(** X15: [cancelMatchmaking] always returns, sends nothing and leaves
    every session untouched.  It removes the first occurrence of the
    sender from the queue, keeping the order of the others, and changes
    nothing when the sender is not queued; cancelling right after a
    request that found nobody waiting gives back the state before the
    request. *)
Theorem cancelMatchmaking_first_occurrence (socketId : string) (s : Server) :
  (exists queue',
     cancelMatchmaking socketId s
     = Some (mkServer queue' (activeGames s), []))
  /\ (socketId ∉ matchmakingQueue s ->
      cancelMatchmaking socketId s = Some (s, []))
  /\ (forall before after,
        matchmakingQueue s = before ++ socketId :: after ->
        socketId ∉ before ->
        cancelMatchmaking socketId s
        = Some (mkServer (before ++ after) (activeGames s), []))
  /\ (forall rnd,
        matchmakingQueue s = [] ->
        exists s1,
          requestMatch rnd socketId s = Some (s1, [])
          /\ cancelMatchmaking socketId s1 = Some (s, [])).
Proof.
  unfold cancelMatchmaking. split; [eexists; reflexivity|]. split; [|split].
  - intros Hnot. rewrite (removeFirst_absent _ _ Hnot). now destruct s.
  - intros before after Hq Hnot.
    destruct (removeFirst_present socketId (matchmakingQueue s))
      as (b & a & Hq' & Hnot' & ->).
    { rewrite Hq. apply elem_of_app. right. apply list_elem_of_here. }
    rewrite Hq in Hq'.
    assert (Hb : before = b).
    { clear -Hq' Hnot Hnot'. revert b Hq' Hnot'.
      induction before as [|x before IH]; intros [|y b] Hq' Hnot'.
      - reflexivity.
      - injection Hq' as <- _. exfalso. apply Hnot'. apply list_elem_of_here.
      - injection Hq' as -> _. exfalso. apply Hnot. apply list_elem_of_here.
      - injection Hq' as -> Hq'. f_equal.
        apply not_elem_of_cons in Hnot as [_ Hnot].
        apply not_elem_of_cons in Hnot' as [_ Hnot']. now apply IH. }
    subst b. apply app_inv_head in Hq'. injection Hq' as <-. reflexivity.
  - intros rnd Hq. unfold requestMatch. rewrite Hq. cbn [app].
    eexists. split; [reflexivity|]. cbn [matchmakingQueue activeGames].
    simpl removeFirst. rewrite String.eqb_refl. destruct s as [q g].
    simpl in Hq. now subst q.
Qed.

(** ** A resolved round *)

(** X16: in every state the server reaches, a game is over exactly when
    its turn is the dealer's, and then both players are standing or
    busted and no connection can play on: every hit and every stand
    leaves the store as it is.  While a game is not over, the turn
    belongs to one of its two players, who is neither standing nor
    busted. *)
Theorem resolved_round_is_final (s : Server) (gameRoomId : string)
    (game : Game) :
  reachable s -> objGet gameRoomId (activeGames s) = Some game ->
  (gameOver game = true <-> currentTurn game = "dealer")
  /\ (gameOver game = true ->
      (forall id, id ∈ players game ->
         exists p, seats game !! id = Some p /\ exhausted p = true)
      /\ forall socketId, connectionId socketId ->
           handleHit gameRoomId socketId (activeGames s)
           = Some (activeGames s)
           /\ handleStand gameRoomId socketId (activeGames s)
              = Some (activeGames s))
  /\ (gameOver game = false ->
      currentTurn game ∈ players game
      /\ exists p, seats game !! currentTurn game = Some p
                   /\ exhausted p = false).
Proof.
  intros Hreach Hget.
  destruct (wf_server_game _ _ _ (reachable_served _ Hreach) Hget)
    as (id1 & id2 & p1 & p2 & H). seated_fields H.
  pose proof (connectionId_not_dealer _ Hid1) as Hnd1.
  pose proof (connectionId_not_dealer _ Hid2) as Hnd2.
  rewrite Hplayers.
  destruct (seated_phase _ _ _ _ _ H)
    as [(Hti & Hc & Ho & Hex1 & Hex2 & _)
       |[(Hti & Hc & Ho & Hex1 & Hex2 & _)|(Hti & Hc & Ho & Hex1 & Hex2)]];
    rewrite Hc, Ho.
  - split; [split; [discriminate|congruence]|].
    split; [discriminate|]. intros _.
    split; [apply list_elem_of_here|now exists p1].
  - split; [split; [discriminate|congruence]|].
    split; [discriminate|]. intros _.
    split; [apply list_elem_of_further, list_elem_of_here|now exists p2].
  - split; [tauto|]. split; [|discriminate]. intros _. split.
    + intros id Hin. apply elem_of_cons in Hin as [->|Hin]; [now exists p1|].
      apply list_elem_of_singleton in Hin as ->. now exists p2.
    + intros sid Hsid.
      pose proof (connectionId_not_dealer _ Hsid) as Hnd.
      assert (Hne : currentTurn game <> sid) by congruence.
      destruct (Room_invalid_action game sid (or_introl Hne)) as [Hh Hs].
      unfold handleHit, handleStand, onGame. rewrite Hget.
      cbn [mbind option_bind]. rewrite Hh, Hs. cbn [mbind option_bind].
      rewrite (objSet_same _ _ _ Hget).
      split; reflexivity.
Qed.

(** [a] and [b] are matched and the turn engine is followed through a
    stand of each. *)
Lemma reachable_bothStood : reachable bothStood.
Proof.
  assert (H : exists s1 events1 events2,
             handle (PlayerAction (Some "game-a-b") "a" "stand") matched
             = Some (s1, events1)
             /\ handle (PlayerAction (Some "game-a-b") "b" "stand") s1
                = Some (bothStood, events2)).
  { vm_compute. eexists _, _, _. split; reflexivity. }
  destruct H as (s1 & events1 & events2 & H1 & H2).
  apply (reachable_handle _ (PlayerAction (Some "game-a-b") "b" "stand") _ _
           (reachable_handle _ (PlayerAction (Some "game-a-b") "a" "stand")
              _ _ reachable_matched connectionId_a H1)
           connectionId_b H2).
Qed.

Lemma resolved_round_is_final_witness :
  gameOver stoodGame = true
  /\ currentTurn stoodGame = "dealer"
  /\ (forall id, id ∈ players stoodGame ->
        exists p, seats stoodGame !! id = Some p /\ exhausted p = true)
  /\ handleHit "game-a-b" "a" (activeGames bothStood)
     = Some (activeGames bothStood)
  /\ handleStand "game-a-b" "b" (activeGames bothStood)
     = Some (activeGames bothStood).
Proof.
  destruct (resolved_round_is_final bothStood "game-a-b" stoodGame
              reachable_bothStood eq_refl) as (Hiff & Hover & _).
  destruct (Hover eq_refl) as (Hexhausted & Hfinal).
  split; [reflexivity|]. split; [exact (proj1 Hiff eq_refl)|].
  split; [exact Hexhausted|].
  split; [exact (proj1 (Hfinal "a" connectionId_a))
         |exact (proj2 (Hfinal "b" connectionId_b))].
Defined.

(** ** The verdict of a resolved round *)

Lemma Room_advanceTurn_resolved g g' id1 id2 :
  players g = [id1; id2] ->
  is_Some (seats g !! id1) -> is_Some (seats g !! id2) ->
  gameOver g = false -> resolved g ->
  Room.advanceTurn g = Some g' -> resolved g'.
Proof.
  intros Hp [p1 Hs1] [p2 Hs2] Hover Hres. unfold Room.advanceTurn.
  destruct (Room.skipExhausted _ _ _) as [[i id]|];
    cbn [mbind option_bind]; [|discriminate].
  cbn [currentTurn setTurn].
  destruct (String.eqb_spec id "dealer") as [->|Hne].
  - destruct (Room.handleDealerTurn _) as [g1|] eqn:Hrun;
      cbn [mbind option_bind]; [|discriminate].
    apply Room_handleDealerTurn_inv in Hrun
      as (drawn & msg & -> & _ & Hstop & _).
    destruct (player_outcome_total p1
                (Dealer.mk (Dealer.hand (dealer g) ++ drawn)
                   (calculateHandTotal (Dealer.hand (dealer g) ++ drawn))
                   (if calculateHandTotal (Dealer.hand (dealer g) ++ drawn)
                       >? 21
                    then true else Dealer.isBusted (dealer g))))
      as [o1 Ho1].
    destruct (player_outcome_total p2
                (Dealer.mk (Dealer.hand (dealer g) ++ drawn)
                   (calculateHandTotal (Dealer.hand (dealer g) ++ drawn))
                   (if calculateHandTotal (Dealer.hand (dealer g) ++ drawn)
                       >? 21
                    then true else Dealer.isBusted (dealer g))))
      as [o2 Ho2].
    rewrite (Room_determineGameOutcome_exact _ id1 id2 p1 p2 o1 o2);
      [|exact Hp|exact Hs1|exact Hs2|exact Ho1|exact Ho2].
    intros [= <-]. unfold resolved. cbn. split; [exact Hstop|].
    exists id1, id2, p1, p2, o1, o2. repeat split; assumption.
  - intros [= <-]. unfold resolved in *. cbn. now rewrite Hover in *.
Qed.

Lemma Room_handleHit_resolved playerId g g' id1 id2 :
  players g = [id1; id2] ->
  is_Some (seats g !! id1) -> is_Some (seats g !! id2) ->
  gameOver g = false -> resolved g ->
  Room.handleHit playerId g = Some g' -> resolved g'.
Proof.
  intros Hp Hs1 Hs2 Hover Hres. unfold Room.handleHit.
  destruct (negb _); [now intros [= <-]|].
  destruct (seats g !! playerId) as [player|] eqn:Hseat;
    cbn [mbind option_bind]; [|discriminate].
  destruct (Player.isStanding player || Player.isBusted player);
    [now intros [= <-]|].
  destruct (pop (deck g)) as [[c d]|];
    cbn [mbind option_bind]; [|discriminate].
  destruct (calculateHandTotal (Player.hand player ++ [c]) >? 21).
  - apply (Room_advanceTurn_resolved _ _ id1 id2); cbn;
      try assumption.
    + destruct (decide (playerId = id1)) as [->|Hne];
        [rewrite lookup_insert_eq; eauto|now rewrite lookup_insert_ne].
    + destruct (decide (playerId = id2)) as [->|Hne];
        [rewrite lookup_insert_eq; eauto|now rewrite lookup_insert_ne].
    + unfold resolved in *. cbn. now rewrite Hover in *.
  - intros [= <-]. unfold resolved in *. cbn. now rewrite Hover in *.
Qed.

Lemma Room_handleStand_resolved playerId g g' id1 id2 :
  players g = [id1; id2] ->
  is_Some (seats g !! id1) -> is_Some (seats g !! id2) ->
  gameOver g = false -> resolved g ->
  Room.handleStand playerId g = Some g' -> resolved g'.
Proof.
  intros Hp Hs1 Hs2 Hover Hres. unfold Room.handleStand.
  destruct (negb _); [now intros [= <-]|].
  destruct (seats g !! playerId) as [player|] eqn:Hseat;
    cbn [mbind option_bind]; [|discriminate].
  destruct (Player.isStanding player || Player.isBusted player);
    [now intros [= <-]|].
  apply (Room_advanceTurn_resolved _ _ id1 id2); cbn; try assumption.
  - destruct (decide (playerId = id1)) as [->|Hne];
      [rewrite lookup_insert_eq; eauto|now rewrite lookup_insert_ne].
  - destruct (decide (playerId = id2)) as [->|Hne];
      [rewrite lookup_insert_eq; eauto|now rewrite lookup_insert_ne].
  - unfold resolved in *. cbn. now rewrite Hover in *.
Qed.

(** A served game that is over ignores every action of a connection. *)
Lemma served_over_ignores g playerId :
  wf_game g -> connectionId playerId -> gameOver g = true ->
  Room.handleHit playerId g = Some g
  /\ Room.handleStand playerId g = Some g.
Proof.
  intros (id1 & id2 & p1 & p2 & H) Hid Hover.
  apply Room_invalid_action. left.
  pose proof (connectionId_not_dealer _ Hid) as Hnd.
  destruct (seated_phase _ _ _ _ _ H)
    as [(_ & _ & Ho & _)|[(_ & _ & Ho & _)|(_ & Hc & _)]];
    congruence.
Qed.

Lemma reachable_resolved s :
  reachable s -> Forall (fun rg => resolved (snd rg)) (activeGames s).
Proof.
  induction 1 as [|s i s' events Hprev IH Hid Hrun]; [constructor|].
  pose proof (reachable_served _ Hprev) as Hwf.
  destruct i as [rnd sid|sid|sid|r sid action]; simpl in Hrun.
  - unfold requestMatch in Hrun.
    destruct (matchmakingQueue s ++ [sid]) as [|id1 [|id2 q]];
      try (now injection Hrun as <- _).
    bind_cases Hrun. injection Hrun as <- _. cbn.
    apply objSet_Forall; [|assumption]. cbn.
    destruct (initializeGame_shape rnd id1 id2)
      as (c1 & c2 & c3 & c4 & c5 & c6 & d & _ & _ & Hinit).
    match goal with
    | Hg : initializeGame rnd id1 id2 = Some _ |- _ =>
        rewrite Hinit in Hg; injection Hg as <-
    end.
    unfold resolved. cbn. now split.
  - unfold cancelMatchmaking in Hrun. now injection Hrun as <- _.
  - unfold disconnect in Hrun.
    destruct (firstGameOf sid (activeGames s)) as [[roomId game]|];
      injection Hrun as <- _; cbn; [now apply objDelete_Forall|assumption].
  - simpl in Hid.
    destruct (playerAction_games _ _ _ _ _ _ Hrun)
      as [->|(room & games' & -> & -> & Hact)]; [assumption|]. cbn.
    destruct Hact as [Hact|[Hact| ->]]; [| |assumption];
      destruct (onGame_inv _ _ _ _ Hact) as (g & g' & Hget & Hbody & ->);
      (apply objSet_Forall; [|assumption]); cbn;
      pose proof (wf_server_game _ _ _ Hwf Hget) as Hg;
      assert (Hres : resolved g)
        by (rewrite Forall_forall in IH;
            exact (IH _ (objGet_elem _ _ _ Hget)));
      destruct (gameOver g) eqn:Hover.
    + destruct (served_over_ignores g sid Hg Hid Hover) as [Hh _].
      rewrite Hh in Hbody. now injection Hbody as <-.
    + destruct Hg as (id1 & id2 & p1 & p2 & H).
      apply (Room_handleHit_resolved sid g g' id1 id2);
        try assumption;
        [exact (seated_players _ _ _ _ _ H)
        |rewrite (seated_seat1 _ _ _ _ _ H); eauto
        |rewrite (seated_seat2 _ _ _ _ _ H); eauto].
    + destruct (served_over_ignores g sid Hg Hid Hover) as [_ Hs].
      rewrite Hs in Hbody. now injection Hbody as <-.
    + destruct Hg as (id1 & id2 & p1 & p2 & H).
      apply (Room_handleStand_resolved sid g g' id1 id2);
        try assumption;
        [exact (seated_players _ _ _ _ _ H)
        |rewrite (seated_seat1 _ _ _ _ _ H); eauto
        |rewrite (seated_seat2 _ _ _ _ _ H); eauto].
Qed.

Lemma player_outcome_handResult p d o :
  scoredSeat p -> scoredDealer d -> player_outcome p d o ->
  handResult (Player.hand p) (Dealer.hand d) o.
Proof.
  intros [Hs Hb] [Hds Hdb] Ho. unfold handResult.
  rewrite <- Hs, <- Hds.
  assert (Hp : Player.isBusted p = false -> Player.score p <= 21).
  { intros Hf. destruct (Z.le_gt_cases (Player.score p) 21) as [|Hgt];
      [assumption|]. apply Hb in Hgt. congruence. }
  assert (Hd : Dealer.isBusted d = false -> Dealer.score d <= 21).
  { intros Hf. destruct (Z.le_gt_cases (Dealer.score d) 21) as [|Hgt];
      [assumption|]. apply Hdb in Hgt. congruence. }
  destruct Ho as [Hbust|Hn Hw|Hn Hdn Hlt|Hn Hdn Heq].
  - now apply Hb.
  - split; [now apply Hp|]. destruct Hw as [Hw|Hw]; [left|right; lia].
    now apply Hdb.
  - split; [now apply Hp|]. split; [now apply Hd|exact Hlt].
  - split; [now apply Hp|]. split; [now apply Hd|exact Heq].
Qed.

(** X17: in every state the server reaches, the outcome fields of a game
    are empty while the round is on.  Once it is over, the dealer's hand
    totals 17 or more, and the stored message and type are those of the
    results of the two hands as they stand: a player is busted when the
    hand exceeds 21, wins when the dealer exceeds 21 or holds less,
    loses when the dealer holds more and pushes on equal totals. *)
Theorem resolved_round_verdict (s : Server) (gameRoomId : string)
    (game : Game) :
  reachable s -> objGet gameRoomId (activeGames s) = Some game ->
  (gameOver game = false ->
   gameOverMessage game = "" /\ gameOverType game = "")
  /\ (gameOver game = true ->
      17 <= calculateHandTotal (Dealer.hand (dealer game))
      /\ exists id1 id2 player1 player2 o1 o2,
           players game = [id1; id2]
           /\ seats game !! id1 = Some player1
           /\ seats game !! id2 = Some player2
           /\ handResult (Player.hand player1) (Dealer.hand (dealer game)) o1
           /\ handResult (Player.hand player2) (Dealer.hand (dealer game)) o2
           /\ gameOverMessage game
              = "Round over! " +:+ "undefined" +:+ verdict o1
                  +:+ "undefined" +:+ verdict o2
           /\ gameOverType game = resultType o1 o2).
Proof.
  intros Hreach Hget.
  pose proof (reachable_resolved _ Hreach) as Hres.
  pose proof (reachable_consistent _ Hreach) as Hcons.
  rewrite Forall_forall in Hres, Hcons.
  specialize (Hres _ (objGet_elem _ _ _ Hget)).
  destruct (Hcons _ (objGet_elem _ _ _ Hget)) as [Hseats Hdealer _].
  cbn [snd] in Hres, Hseats, Hdealer. unfold resolved in Hres.
  destruct (gameOver game); (split; [|]); try discriminate.
  - intros _. destruct Hres
      as (Hstop & id1 & id2 & p1 & p2 & o1 & o2
          & Hp & Hs1 & Hs2 & Ho1 & Ho2 & Hm & Ht).
    rewrite <- (proj1 Hdealer). split; [exact Hstop|].
    exists id1, id2, p1, p2, o1, o2.
    destruct (Hseats _ _ Hs1) as (Hsc1 & _).
    destruct (Hseats _ _ Hs2) as (Hsc2 & _).
    repeat split; try assumption.
    + now apply player_outcome_handResult.
    + now apply player_outcome_handResult.
  - intros _. exact Hres.
Qed.

Lemma resolved_round_verdict_witness :
  17 <= calculateHandTotal (Dealer.hand (dealer stoodGame))
  /\ exists id1 id2 player1 player2 o1 o2,
       players stoodGame = [id1; id2]
       /\ seats stoodGame !! id1 = Some player1
       /\ seats stoodGame !! id2 = Some player2
       /\ handResult (Player.hand player1) (Dealer.hand (dealer stoodGame)) o1
       /\ handResult (Player.hand player2) (Dealer.hand (dealer stoodGame)) o2
       /\ gameOverMessage stoodGame
          = "Round over! " +:+ "undefined" +:+ verdict o1
              +:+ "undefined" +:+ verdict o2
       /\ gameOverType stoodGame = resultType o1 o2.
Proof.
  exact (proj2 (resolved_round_verdict bothStood "game-a-b" stoodGame
                  reachable_bothStood eq_refl) eq_refl).
Defined.

(** ** The skip loop of [advanceTurn], for any game *)

Lemma skipExhausted_eq g fuel idx :
  Room.skipExhausted g fuel idx
  = (nextPlayerId ← turnOrder g !! idx;
     if String.eqb nextPlayerId "dealer" then Some (idx, nextPlayerId)
     else
       player ← seats g !! nextPlayerId;
       if Player.isBusted player || Player.isStanding player then
         match fuel with
         | O => None
         | S fuel' =>
             Room.skipExhausted g fuel'
               ((idx + 1) mod length (turnOrder g))%nat
         end
       else Some (idx, nextPlayerId)).
Proof. destruct fuel; reflexivity. Qed.

Lemma mod_succ (b n : nat) :
  n <> O -> ((b mod n + 1) mod n = ((b + 1) mod n))%nat.
Proof. intros Hn. now rewrite Nat.Div0.add_mod_idemp_l. Qed.

(** The loop stops at the first eligible entry it meets. *)
Lemma skipExhausted_walk g fuel b j id :
  Room.skipExhausted g fuel (b mod length (turnOrder g))%nat = Some (j, id) ->
  exists k : nat,
    (k <= fuel)%nat
    /\ j = ((b + k) mod length (turnOrder g))%nat
    /\ turnOrder g !! j = Some id
    /\ eligible g id
    /\ forall k' : nat, (k' < k)%nat ->
         exists id', turnOrder g !! ((b + k') mod length (turnOrder g))%nat
                     = Some id'
                     /\ ~ eligible g id'.
Proof.
  revert b. induction fuel as [|fuel IH]; intros b; rewrite skipExhausted_eq;
    destruct (turnOrder g !! (b mod length (turnOrder g))%nat)
      as [next|] eqn:Hnext; cbn [mbind option_bind]; try discriminate;
    (destruct (String.eqb_spec next "dealer") as [->|Hne];
     [intros [= <- <-]; exists O; rewrite Nat.add_0_r;
      split; [lia|]; split; [reflexivity|]; split; [assumption|];
      split; [now left|]; intros k' Hk'; lia|]);
    (destruct (seats g !! next) as [player|] eqn:Hseat;
     cbn [mbind option_bind]; [|discriminate]);
    destruct (Player.isBusted player || Player.isStanding player) eqn:Hex;
    try discriminate;
    try (intros [= <- <-]; exists O; rewrite Nat.add_0_r;
         split; [lia|]; split; [reflexivity|]; split; [assumption|];
         split; [right; now exists player|]; intros k' Hk'; lia).
  assert (Hn : length (turnOrder g) <> O).
  { apply lookup_lt_Some in Hnext. lia. }
  rewrite (mod_succ _ _ Hn). intros Hrec.
  destruct (IH _ Hrec) as (k & Hk & -> & Hj & Hel & Hskip).
  exists (S k). split; [lia|].
  replace (b + S k)%nat with (b + 1 + k)%nat by lia.
  split; [reflexivity|]. split; [assumption|]. split; [assumption|].
  intros [|k'] Hk'.
  - rewrite Nat.add_0_r. exists next. split; [assumption|].
    intros [?|(p & Hp & Hfalse)]; [congruence|].
    rewrite Hseat in Hp. injection Hp as <-. unfold exhausted in Hfalse.
    congruence.
  - replace (b + S k')%nat with (b + 1 + k')%nat by lia.
    apply Hskip. lia.
Qed.

(** What [advanceTurn] leaves of the game it was given. *)
Lemma Room_advanceTurn_walk g g' :
  Room.advanceTurn g = Some g' ->
  Room.skipExhausted g (length (turnOrder g))
    ((turnIndex g + 1) mod length (turnOrder g))%nat
  = Some (turnIndex g', currentTurn g')
  /\ seats g' = seats g /\ turnOrder g' = turnOrder g
  /\ players g' = players g
  /\ (if String.eqb (currentTurn g') "dealer" then gameOver g' = true
      else g' = setMessage ("It's " +:+ currentTurn g' +:+ "'s turn.")
                  (setTurn (turnIndex g') (currentTurn g') g)).
Proof.
  unfold Room.advanceTurn.
  destruct (Room.skipExhausted _ _ _) as [[i id]|];
    cbn [mbind option_bind]; [|discriminate].
  cbn [currentTurn setTurn].
  destruct (String.eqb_spec id "dealer") as [->|Hne].
  - destruct (Room.handleDealerTurn _) as [g1|] eqn:Hrun;
      cbn [mbind option_bind]; [|discriminate].
    intros H. apply Room_determineGameOutcome_inv in H as (m & t & ->).
    apply Room_handleDealerTurn_inv in Hrun as (drawn & msg & -> & _).
    cbn. repeat split; reflexivity.
  - intros [= <-]. cbn. apply String.eqb_neq in Hne. rewrite Hne.
    repeat split; reflexivity.
Qed.

Lemma eligible_same_seats g g' id :
  seats g' = seats g -> eligible g' id <-> eligible g id.
Proof. unfold eligible. now intros ->. Qed.

Lemma Room_advanceTurn_first_eligible g g' :
  Room.advanceTurn g = Some g' -> advancedFrom (turnIndex g) g'.
Proof.
  intros Hrun.
  destruct (Room_advanceTurn_walk _ _ Hrun) as (Hskip & Hseats & Hto & _).
  destruct (skipExhausted_walk _ _ _ _ _ Hskip)
    as (k & Hk & Hj & Hlook & Hel & Hskipped).
  assert (Hn : length (turnOrder g) <> O).
  { apply lookup_lt_Some in Hlook. lia. }
  unfold advancedFrom. rewrite Hto. exists k.
  split; [|split; [exact Hj|split; [exact Hlook|split]]].
  - destruct (Nat.eq_dec k (length (turnOrder g))) as [->|Hne]; [|lia].
    exfalso. destruct (Hskipped O) as (id' & Hid' & Hnot); [lia|].
    apply Hnot. rewrite Nat.add_0_r in Hid'.
    replace (turnIndex g + 1 + length (turnOrder g))%nat
      with (turnIndex g + 1 + 1 * length (turnOrder g))%nat in Hj by lia.
    rewrite Nat.Div0.mod_add in Hj. rewrite <- Hj, Hlook in Hid'.
    injection Hid' as <-. exact Hel.
  - exact (proj2 (eligible_same_seats g g' _ Hseats) Hel).
  - intros j Hjk. destruct (Hskipped j Hjk) as (id' & Hid' & Hnot).
    exists id'. split; [exact Hid'|]. intros Hel'. apply Hnot.
    exact (proj1 (eligible_same_seats g g' _ Hseats) Hel').
Qed.

(** X18: for any game whatever, when [advanceTurn] returns, the turn is
    at the first entry of the turn order, walking circularly from the
    one after the old turn, that is the dealer or a player neither
    busted nor standing, and no entry walked over is one; no seat and no entry of the turn order has changed.  A
    turn handed to a player changes nothing but the turn and the
    message; a turn handed to the dealer ends the round. *)
Theorem advanceTurn_first_eligible (activeGames activeGames' : Store)
    (gameRoomId : string) (game : Game) :
  objGet gameRoomId activeGames = Some game ->
  advanceTurn gameRoomId activeGames = Some activeGames' ->
  exists game',
    objGet gameRoomId activeGames' = Some game'
    /\ advancedFrom (turnIndex game) game'
    /\ seats game' = seats game
    /\ turnOrder game' = turnOrder game
    /\ (currentTurn game' = "dealer" -> gameOver game' = true)
    /\ (currentTurn game' <> "dealer" ->
        game' = setMessage ("It's " +:+ currentTurn game' +:+ "'s turn.")
                  (setTurn (turnIndex game') (currentTurn game') game)).
Proof.
  intros Hget Hrun. unfold advanceTurn in Hrun.
  destruct (onGame_inv _ _ _ _ Hrun) as (g & g' & Hget' & Hbody & ->).
  rewrite Hget in Hget'. injection Hget' as <-.
  exists g'. split; [apply objGet_objSet|].
  split; [now apply Room_advanceTurn_first_eligible|].
  destruct (Room_advanceTurn_walk _ _ Hbody) as (_ & Hseats & Hto & _ & Hend).
  split; [exact Hseats|]. split; [exact Hto|].
  destruct (String.eqb_spec (currentTurn g') "dealer") as [Heq|Hne].
  - split; [intros _; exact Hend|congruence].
  - split; [congruence|intros _; exact Hend].
Qed.

Lemma advanceTurn_first_eligible_witness :
  exists game',
    advancedFrom (turnIndex dealtGame) game'
    /\ game' = setMessage ("It's " +:+ currentTurn game' +:+ "'s turn.")
                 (setTurn (turnIndex game') (currentTurn game') dealtGame).
Proof.
  destruct (advanceTurn_first_eligible [("game-a-b", dealtGame)]
              (objSet "game-a-b"
                 (setMessage "It's b's turn." (setTurn 1 "b" dealtGame))
                 [("game-a-b", dealtGame)])
              "game-a-b" dealtGame eq_refl)
    as (game' & Hget & Hadv & _ & _ & _ & Hturn).
  - vm_compute. reflexivity.
  - exists game'. split; [exact Hadv|]. apply Hturn.
    vm_compute in Hget. injection Hget as <-. discriminate.
Defined.

(** Walking circularly from any index meets every index. *)
Lemma mod_reach (b d n : nat) :
  (d < n)%nat -> exists k : nat, (k < n)%nat /\ ((b + k) mod n = d)%nat.
Proof.
  intros Hd. assert (Hn : n <> O) by lia.
  pose proof (Nat.mod_upper_bound b n Hn) as Hr.
  destruct (le_lt_dec (b mod n) d) as [Hle|Hlt].
  - exists (d - b mod n)%nat. split; [lia|].
    rewrite <- Nat.Div0.add_mod_idemp_l.
    replace (b mod n + (d - b mod n))%nat with d by lia.
    now apply Nat.mod_small.
  - exists (n - b mod n + d)%nat. split; [lia|].
    rewrite <- Nat.Div0.add_mod_idemp_l.
    replace (b mod n + (n - b mod n + d))%nat with (d + 1 * n)%nat by lia.
    rewrite Nat.Div0.mod_add. now apply Nat.mod_small.
Qed.

(** With the dealer [k] entries ahead and every player entry seated, the
    loop returns within [k] steps. *)
Lemma skipExhausted_returns g k :
  (forall id, id ∈ turnOrder g -> id <> "dealer" ->
     is_Some (seats g !! id)) ->
  forall fuel b : nat,
    (k <= fuel)%nat ->
    turnOrder g !! ((b + k) mod length (turnOrder g))%nat = Some "dealer" ->
    is_Some (Room.skipExhausted g fuel (b mod length (turnOrder g))%nat).
Proof.
  intros Hseated. induction k as [|k IH]; intros fuel b Hk Hdealer;
    rewrite skipExhausted_eq.
  - rewrite Nat.add_0_r in Hdealer. rewrite Hdealer.
    cbn [mbind option_bind]. simpl. eauto.
  - assert (Hn : length (turnOrder g) <> O).
    { apply lookup_lt_Some in Hdealer. lia. }
    destruct (lookup_lt_is_Some_2 (turnOrder g)
                (b mod length (turnOrder g))%nat) as [next Hnext];
      [now apply Nat.mod_upper_bound|].
    rewrite Hnext. cbn [mbind option_bind].
    destruct (String.eqb_spec next "dealer") as [->|Hne]; [eauto|].
    destruct (Hseated next) as [player Hseat];
      [now apply (list_elem_of_lookup_2 _ _ _ Hnext)|assumption|].
    rewrite Hseat. cbn [mbind option_bind].
    destruct (Player.isBusted player || Player.isStanding player); [|eauto].
    destruct fuel as [|fuel]; [lia|].
    rewrite (mod_succ _ _ Hn). apply IH; [lia|].
    now replace (b + 1 + k)%nat with (b + S k)%nat by lia.
Qed.

(** X19: whether the skip loop of [advanceTurn] ends, for any game.
    When no entry of the turn order is the dealer or a player still able
    to act, [advanceTurn] does not return: it throws or loops for ever.
    When the turn order contains the dealer and every other entry has a
    seat, the loop always ends:
    [advanceTurn] returns unless the turn reached the dealer and the
    dealer's draw or the judging of the round threw. *)
Theorem advanceTurn_loop (activeGames : Store) (gameRoomId : string)
    (game : Game) :
  objGet gameRoomId activeGames = Some game ->
  ((forall id, id ∈ turnOrder game -> ~ eligible game id) ->
   advanceTurn gameRoomId activeGames = None)
  /\ ("dealer" ∈ turnOrder game ->
      (forall id, id ∈ turnOrder game -> id <> "dealer" ->
         is_Some (seats game !! id)) ->
      (exists activeGames',
         advanceTurn gameRoomId activeGames = Some activeGames')
      \/ exists nextTurnIndex,
           turnOrder game !! nextTurnIndex = Some "dealer"
           /\ Room.handleDealerTurn (setTurn nextTurnIndex "dealer" game)
                ≫= Room.determineGameOutcome = None).
Proof.
  intros Hget. unfold advanceTurn, onGame. rewrite Hget.
  cbn [mbind option_bind]. split.
  - intros Hnone. destruct (Room.advanceTurn game) as [g'|] eqn:Hrun;
      [|reflexivity]. exfalso.
    destruct (Room_advanceTurn_walk _ _ Hrun) as (Hskip & _).
    destruct (skipExhausted_walk _ _ _ _ _ Hskip)
      as (k & _ & _ & Hlook & Hel & _).
    exact (Hnone _ (list_elem_of_lookup_2 _ _ _ Hlook) Hel).
  - intros Hdealer Hseated.
    apply list_elem_of_lookup_1 in Hdealer as [d Hd].
    destruct (mod_reach (turnIndex game + 1) d (length (turnOrder game)))
      as (k & Hk & Hreach); [now apply lookup_lt_Some in Hd|].
    destruct (skipExhausted_returns game k Hseated
                (length (turnOrder game)) (turnIndex game + 1)%nat)
      as [[j id] Hskip]; [lia|now rewrite Hreach|].
    unfold Room.advanceTurn. rewrite Hskip. cbn [mbind option_bind].
    cbn [currentTurn setTurn].
    destruct (String.eqb_spec id "dealer") as [->|Hne].
    + destruct (Room.handleDealerTurn (setTurn j "dealer" game)
                  ≫= Room.determineGameOutcome) as [g'|] eqn:Hrun.
      * left. eexists. reflexivity.
      * right. exists j. split; [|exact Hrun].
        now destruct (skipExhausted_walk _ _ _ _ _ Hskip)
          as (_ & _ & _ & Hlook & _).
    + left. eexists. reflexivity.
Qed.

Lemma advanceTurn_loop_witness :
  (exists activeGames',
     advanceTurn "game-a-b" [("game-a-b", dealtGame)] = Some activeGames')
  \/ exists nextTurnIndex,
       turnOrder dealtGame !! nextTurnIndex = Some "dealer"
       /\ Room.handleDealerTurn (setTurn nextTurnIndex "dealer" dealtGame)
            ≫= Room.determineGameOutcome = None.
Proof.
  apply (proj2 (advanceTurn_loop [("game-a-b", dealtGame)] "game-a-b"
                  dealtGame eq_refl)).
  - apply (list_elem_of_lookup_2 _ 2%nat). reflexivity.
  - intros id Hin Hne.
    apply elem_of_cons in Hin as [->|Hin]; [vm_compute; eauto|].
    apply elem_of_cons in Hin as [->|Hin]; [vm_compute; eauto|].
    apply list_elem_of_singleton in Hin. congruence.
Defined.

(** ** The shape of the server state *)

Lemma reachable_named s : reachable s -> Forall named (activeGames s).
Proof.
  induction 1 as [|s i s' events _ IH Hid Hrun]; [constructor|].
  destruct i as [rnd sid|sid|sid|r sid action]; simpl in Hrun.
  - unfold requestMatch in Hrun.
    destruct (matchmakingQueue s ++ [sid]) as [|id1 [|id2 q]];
      try (now injection Hrun as <- _).
    destruct (initializeGame rnd id1 id2) as [g|] eqn:Hinit;
      cbn [mbind option_bind] in Hrun; [|discriminate].
    bind_cases Hrun. injection Hrun as <- _. cbn.
    apply objSet_Forall; [|assumption]. exists id1, id2.
    split; [exact (initializeGame_players _ _ _ _ Hinit)|reflexivity].
  - unfold cancelMatchmaking in Hrun. now injection Hrun as <- _.
  - unfold disconnect in Hrun.
    destruct (firstGameOf sid (activeGames s)) as [[roomId game]|];
      injection Hrun as <- _; cbn; [now apply objDelete_Forall|assumption].
  - destruct (playerAction_games _ _ _ _ _ _ Hrun)
      as [->|(room & games' & -> & -> & Hact)]; [assumption|]. cbn.
    destruct Hact as [Hact|[Hact| ->]]; [| |assumption];
      destruct (onGame_inv _ _ _ _ Hact) as (g & g' & Hget & Hbody & ->);
      (apply objSet_Forall; [|assumption]);
      rewrite Forall_forall in IH;
      destruct (IH _ (objGet_elem _ _ _ Hget)) as (id1 & id2 & Hp & Hname);
      exists id1, id2; (split; [|exact Hname]); cbn [snd] in *.
    + now rewrite (ev_players _ _ (Room_handleHit_evolves _ _ _ Hbody)).
    + now rewrite (ev_players _ _ (Room_handleStand_evolves _ _ _ Hbody)).
Qed.

(** X20: in every state the server reaches, at most one connection is
    waiting in the queue, no room name is stored twice, and every stored
    session is that of two distinct connections, both seated, is named
    [game-first-second] after them in the order they were paired, and
    has the turn order first, second, dealer. *)
Theorem server_shape (s : Server) :
  reachable s ->
  (length (matchmakingQueue s) <= 1)%nat
  /\ NoDup (map fst (activeGames s))
  /\ forall gameRoomId game,
       objGet gameRoomId (activeGames s) = Some game ->
       exists id1 id2,
         id1 <> id2
         /\ players game = [id1; id2]
         /\ turnOrder game = [id1; id2; "dealer"]
         /\ gameRoomId = "game-" +:+ id1 +:+ "-" +:+ id2
         /\ is_Some (seats game !! id1) /\ is_Some (seats game !! id2).
Proof.
  intros Hreach. pose proof (reachable_served _ Hreach) as Hwf.
  split; [exact (wf_queue_short _ Hwf)|]. split; [exact (wf_rooms _ Hwf)|].
  intros room game Hget.
  destruct (wf_server_game _ _ _ Hwf Hget) as (id1 & id2 & p1 & p2 & H).
  pose proof (reachable_named _ Hreach) as Hnamed.
  rewrite Forall_forall in Hnamed.
  destruct (Hnamed _ (objGet_elem _ _ _ Hget)) as (a & b & Hp & Hname).
  cbn [fst snd] in Hp, Hname.
  rewrite (seated_players _ _ _ _ _ H) in Hp. injection Hp as <- <-.
  exists id1, id2. split; [exact (seated_distinct _ _ _ _ _ H)|].
  split; [exact (seated_players _ _ _ _ _ H)|].
  split; [exact (seated_turnOrder _ _ _ _ _ H)|]. split; [exact Hname|].
  rewrite (seated_seat1 _ _ _ _ _ H), (seated_seat2 _ _ _ _ _ H). eauto.
Qed.

Lemma server_shape_witness :
  (length (matchmakingQueue matched) <= 1)%nat
  /\ NoDup (map fst (activeGames matched)).
Proof.
  pose proof (server_shape matched reachable_matched) as H.
  split; [exact (proj1 H)|exact (proj1 (proj2 H))].
Defined.

(** ** Pairing the same two connections again *)

Lemma objSet_present k g old (o : Store) :
  objGet k o = Some old -> map fst (objSet k g o) = map fst o.
Proof.
  induction o as [|[k' g'] o IH]; simpl; [discriminate|].
  destruct (String.eqb_spec k' k) as [->|Hne]; [reflexivity|].
  intros H. simpl. now rewrite IH.
Qed.

(** X21: when a connection is waiting and the one that asks for a match
    already has a session with it under the name the pair gets, the
    stored session, whatever its state, is replaced by a freshly dealt
    game: no room is added, the rooms keep their order and every other
    room is left as it was. *)
Theorem rematch_replaces_session (rnd : nat -> nat) (s : Server)
    (player1Id player2Id : string) (running : Game) :
  matchmakingQueue s = [player1Id] -> player1Id <> player2Id ->
  objGet ("game-" +:+ player1Id +:+ "-" +:+ player2Id) (activeGames s)
  = Some running ->
  exists game s' events,
    requestMatch rnd player2Id s = Some (s', events)
    /\ initializeGame rnd player1Id player2Id = Some game
    /\ objGet ("game-" +:+ player1Id +:+ "-" +:+ player2Id) (activeGames s')
       = Some game
    /\ map fst (activeGames s') = map fst (activeGames s)
    /\ matchmakingQueue s' = []
    /\ forall room, room <> "game-" +:+ player1Id +:+ "-" +:+ player2Id ->
         objGet room (activeGames s') = objGet room (activeGames s).
Proof.
  intros Hq Hne Hget.
  destruct (requestMatch_two rnd player2Id s player1Id player2Id [])
    as (game & v1 & v2 & Hinit & _ & _ & Hrun & _);
    [now rewrite Hq|exact Hne|].
  exists game; eexists _, _. split; [exact Hrun|]. split; [exact Hinit|].
  cbn [activeGames matchmakingQueue].
  split; [apply objGet_objSet|].
  split; [exact (objSet_present _ _ _ _ Hget)|]. split; [reflexivity|].
  intros room Hroom. now apply objGet_objSet_ne.
Qed.

Lemma rematch_replaces_session_witness :
  exists game s' events,
    requestMatch rnd0 "b" (mkServer ["a"] [("game-a-b", showdown)])
    = Some (s', events)
    /\ objGet "game-a-b" (activeGames s') = Some game
    /\ map fst (activeGames s') = ["game-a-b"].
Proof.
  destruct (rematch_replaces_session rnd0
              (mkServer ["a"] [("game-a-b", showdown)]) "a" "b" showdown
              eq_refl)
    as (game & s' & events & Hrun & _ & Hget & Hkeys & _);
    [discriminate|reflexivity|].
  exists game, s', events. split; [exact Hrun|]. split; [exact Hget|].
  exact Hkeys.
Defined.

(** ** The deal *)

(** X22: for two distinct identities and any outcome of the shuffle,
    [initializeGame] returns: the last six cards of the shuffled deck
    are dealt from the end, in turn to the first player, the second
    player and the dealer, twice; 46 cards remain.  Each score is the
    total of the two cards held, nobody is standing or busted whatever
    was dealt, each player has 1000 chips, and the first player is to
    act. *)
Theorem initializeGame_deals (rnd : nat -> nat) (player1Id player2Id : string) :
  player1Id <> player2Id ->
  exists c1 c2 c3 c4 c5 c6 rest game,
    shuffleDeck rnd createDeck = rest ++ [c6; c5; c4; c3; c2; c1]
    /\ initializeGame rnd player1Id player2Id = Some game
    /\ deck game = rest /\ length rest = 46%nat
    /\ seats game !! player1Id
       = Some (Player.mk [c1; c4] (calculateHandTotal [c1; c4])
                 false false 1000)
    /\ seats game !! player2Id
       = Some (Player.mk [c2; c5] (calculateHandTotal [c2; c5])
                 false false 1000)
    /\ dealer game = Dealer.mk [c3; c6] (calculateHandTotal [c3; c6]) false
    /\ players game = [player1Id; player2Id]
    /\ turnOrder game = [player1Id; player2Id; "dealer"]
    /\ currentTurn game = player1Id /\ turnIndex game = 0%nat
    /\ gameOver game = false.
Proof.
  intros Hne.
  destruct (initializeGame_shape rnd player1Id player2Id)
    as (c1 & c2 & c3 & c4 & c5 & c6 & d & Hdeck & Hlen & Hinit).
  exists c1, c2, c3, c4, c5, c6, d. eexists.
  split; [exact Hdeck|]. split; [exact Hinit|]. cbn.
  split; [reflexivity|]. split; [exact Hlen|].
  split; [rewrite lookup_insert_ne by congruence; apply lookup_insert_eq|].
  split; [apply lookup_insert_eq|]. repeat split.
Qed.

Lemma initializeGame_deals_witness :
  exists c1 c2 c3 c4 c5 c6 rest game,
    shuffleDeck rnd0 createDeck = rest ++ [c6; c5; c4; c3; c2; c1]
    /\ initializeGame rnd0 "a" "b" = Some game
    /\ deck game = rest /\ length rest = 46%nat.
Proof.
  destruct (initializeGame_deals rnd0 "a" "b")
    as (c1 & c2 & c3 & c4 & c5 & c6 & rest & game & H1 & H2 & H3 & H4 & _);
    [discriminate|].
  exists c1, c2, c3, c4, c5, c6, rest, game.
  split; [exact H1|]. split; [exact H2|]. split; [exact H3|exact H4].
Defined.
